(** * Long-form memory: extraction, storage and retrieval

    A shallow embedding of the three-stage memory pipeline of the
    repository, and the properties stated about it:
    - [src/memory_extraction.py], class [MemoryExtractor]: module
      [MemoryExtractor], on top of a model of the part of Python's [re]
      that its patterns use (module [re]);
    - [src/memory_storage.py], class [MemoryStorage]: module
      [MemoryStorage], the SQLite table being a list of rows;
    - [src/memory_retrieval.py], class [MemoryRetriever]: module
      [MemoryRetriever].

    Conventions of the embedding.
    - Python [str] values are [string]s of 7-bit ASCII characters; the
      character tests of [re], [str] and of SQL's [LIKE] ([\s], [\w],
      [\d], [lower], [split], case folding) are the ASCII ones.
    - Python [int] values are [Z] (unbounded, as in Python; SQLite's
      64-bit limit is never approached by row ids or counters here).
    - Stored floating point values (confidences) are rationals [Q]; the
      relevance score, which goes through [math.exp] and [math.log], is a
      real number [R].  Rounding and overflow of IEEE doubles are not
      part of the model.
    - [None] is [option]'s [None]; a Python [set] is a [gset]; a [dict]
      used as a table is a [gmap].  An exception that escapes a method is
      the result [None] of the method.
    - [datetime.utcnow().isoformat()] reads a clock; the readings are an
      explicit argument of every operation that takes them.
    - The SQLite table is the list of its rows in rowid order; where SQL
      leaves the order of ties open, rows keep their rowid order. *)

From Stdlib Require Import ZArith QArith Qminmax Qreals Reals Psatz List String Ascii Bool.
From Stdlib Require Import Sorting.Sorted Sorting.Permutation.
From stdpp Require Import gmap strings list fin_maps sorting pretty.
Import ListNotations.

Open Scope string_scope.
Open Scope list_scope.
Open Scope Z_scope.

(* ===================================================================== *)
(** * Python strings *)
(* ===================================================================== *)

Module Py.

Definition code (c : ascii) : N := N_of_ascii c.

Definition in_range (lo hi : N) (c : ascii) : bool :=
  (lo <=? code c)%N && (code c <=? hi)%N.

(** [str.isspace] on ASCII: tab, newline, vertical tab, form feed,
    carriage return, the four separators 0x1c-0x1f and the space. *)
Definition isspace (c : ascii) : bool :=
  in_range 9 13 c || in_range 28 31 c || (code c =? 32)%N.

Definition isdigit (c : ascii) : bool := in_range 48 57 c.
Definition isupper (c : ascii) : bool := in_range 65 90 c.
Definition islower (c : ascii) : bool := in_range 97 122 c.

(** [\w]: letters, digits and the underscore. *)
Definition isword (c : ascii) : bool :=
  isupper c || islower c || isdigit c || (code c =? 95)%N.

Definition lower_char (c : ascii) : ascii :=
  if isupper c then ascii_of_N (code c + 32) else c.

Definition upper_char (c : ascii) : ascii :=
  if islower c then ascii_of_N (code c - 32) else c.

(** [s.lower()] *)
Fixpoint lower (s : string) : string :=
  match s with
  | EmptyString => EmptyString
  | String c s' => String (lower_char c) (lower s')
  end.

(** [len(s)] *)
Definition len (s : string) : Z := Z.of_nat (String.length s).

(** [s.split()]: the maximal runs of non-whitespace characters.
    [cur] holds the run being read, in reverse. *)
Fixpoint split_aux (cur : list ascii) (s : list ascii) : list string :=
  let flush rest :=
    match cur with
    | [] => rest
    | _ :: _ => string_of_list_ascii (rev cur) :: rest
    end in
  match s with
  | [] => flush []
  | c :: s' =>
      if isspace c then flush (split_aux [] s')
      else split_aux (c :: cur) s'
  end.

Definition split (s : string) : list string :=
  split_aux [] (list_ascii_of_string s).

(** [str(x)] for a value that is a string or [None]. *)
Definition str (x : option string) : string :=
  match x with
  | Some s => s
  | None => "None"
  end.

(** [l[:n]] for a list and an integer bound: a negative bound counts
    from the end. *)
Definition slice_to {A} (l : list A) (n : Z) : list A :=
  if 0 <=? n then take (Z.to_nat n) l
  else take (Z.to_nat (Z.of_nat (length l) + n)) l.

(** [str(n)] for an integer, as an f-string renders it. *)
Definition str_int (n : Z) : string := pretty n.

(** [s.title()] on ASCII: a letter that follows a letter is lower-cased,
    any other letter is upper-cased. *)
Fixpoint title_aux (previous_is_cased : bool) (s : string) : string :=
  match s with
  | EmptyString => EmptyString
  | String c s' =>
      String (if previous_is_cased then lower_char c else upper_char c)
             (title_aux (isupper c || islower c) s')
  end.

Definition title (s : string) : string := title_aux false s.

(** The line feed, and [sep.join(l)]. *)
Definition nl : string := String (ascii_of_N 10) EmptyString.

Fixpoint join (sep : string) (l : list string) : string :=
  match l with
  | [] => EmptyString
  | [x] => x
  | x :: rest => x +:+ sep +:+ join sep rest
  end.

(** [needle in haystack] for two strings. *)
Fixpoint starts_with (q s : list ascii) : bool :=
  match q, s with
  | [], _ => true
  | _ :: _, [] => false
  | c :: q', x :: s' => Ascii.eqb c x && starts_with q' s'
  end.

Fixpoint contains_chars (q s : list ascii) : bool :=
  starts_with q s
  || match s with
     | [] => false
     | _ :: s' => contains_chars q s'
     end.

Definition contains (needle haystack : string) : bool :=
  contains_chars (list_ascii_of_string needle) (list_ascii_of_string haystack).

End Py.

(* ===================================================================== *)
(** * The regular expressions of [re] used by the extractor *)
(* ===================================================================== *)

Module re.

(** Abstract syntax of the patterns.  Groups carry their number, which
    [re] assigns in the order of the opening parentheses. *)
Inductive regex : Type :=
| REps                                   (* the empty pattern *)
| RChar (c : ascii)                      (* a literal character *)
| RAny                                   (* .  (any character but newline) *)
| RSet (ranges : list (ascii * ascii))   (* [a-z], [s]: inclusive ranges *)
| RDigit                                 (* \d *)
| RSpace                                 (* \s *)
| RWord                                  (* \w *)
| RBoundary                              (* \b *)
| RCat (r1 r2 : regex)
| RAlt (r1 r2 : regex)                   (* r1|r2, left first *)
| RStar (r : regex)                      (* greedy r* *)
| RGroup (n : nat) (r : regex).          (* capturing group number n *)

(** [r+] and [r?] (both greedy). *)
Definition RPlus (r : regex) : regex := RCat r (RStar r).
Definition ROpt (r : regex) : regex := RAlt r REps.

(** Number of capturing groups: the length of [match.groups()]. *)
Fixpoint ngroups (r : regex) : nat :=
  match r with
  | RCat r1 r2 | RAlt r1 r2 => (ngroups r1 + ngroups r2)%nat
  | RStar r1 => ngroups r1
  | RGroup _ r1 => S (ngroups r1)
  | _ => 0%nat
  end.

(** ** Parsing pattern strings *)

Definition pstate : Type := list ascii * nat.  (* rest of pattern, groups opened *)

Fixpoint parse_set (s : list ascii) (acc : list (ascii * ascii))
  : option (list (ascii * ascii) * list ascii) :=
  match s with
  | [] => None
  | "]"%char :: s' => Some (rev acc, s')
  | lo :: "-"%char :: hi :: s' =>
      if Ascii.eqb hi "]" then
        (* a dash just before the closing bracket is literal *)
        Some (rev (("-"%char, "-"%char) :: (lo, lo) :: acc), s')
      else parse_set s' ((lo, hi) :: acc)
  | c :: s' => parse_set s' ((c, c) :: acc)
  end.

Definition escape (c : ascii) : regex :=
  if Ascii.eqb c "d" then RDigit
  else if Ascii.eqb c "s" then RSpace
  else if Ascii.eqb c "w" then RWord
  else if Ascii.eqb c "b" then RBoundary
  else RChar c.

Definition quantify (r : regex) (s : list ascii) : regex * list ascii :=
  match s with
  | "*"%char :: s' => (RStar r, s')
  | "+"%char :: s' => (RPlus r, s')
  | "?"%char :: s' => (ROpt r, s')
  | _ => (r, s)
  end.

(** Recursive descent on alternations, sequences and atoms; [fuel]
    bounds the nesting and is taken from the length of the pattern. *)
Fixpoint parse_alt (fuel : nat) (st : pstate) : option (regex * pstate) :=
  match fuel with
  | O => None
  | S fuel' =>
      match parse_seq fuel' st with
      | Some (r1, ("|"%char :: s', g)) =>
          match parse_alt fuel' (s', g) with
          | Some (r2, st') => Some (RAlt r1 r2, st')
          | None => None
          end
      | other => other
      end
  end
with parse_seq (fuel : nat) (st : pstate) : option (regex * pstate) :=
  match fuel with
  | O => None
  | S fuel' =>
      match st with
      | ([], _) | ("|"%char :: _, _) | (")"%char :: _, _) => Some (REps, st)
      | _ =>
          match parse_atom fuel' st with
          | Some (r1, (s', g)) =>
              let '(r1q, s'') := quantify r1 s' in
              match parse_seq fuel' (s'', g) with
              | Some (REps, st') => Some (r1q, st')
              | Some (r2, st') => Some (RCat r1q r2, st')
              | None => None
              end
          | None => None
          end
      end
  end
with parse_atom (fuel : nat) (st : pstate) : option (regex * pstate) :=
  match fuel with
  | O => None
  | S fuel' =>
      match st with
      | ("("%char :: "?"%char :: ":"%char :: s', g) =>
          match parse_alt fuel' (s', g) with
          | Some (r, (")"%char :: s'', g')) => Some (r, (s'', g'))
          | _ => None
          end
      | ("("%char :: s', g) =>
          match parse_alt fuel' (s', S g) with
          | Some (r, (")"%char :: s'', g')) => Some (RGroup (S g) r, (s'', g'))
          | _ => None
          end
      | ("["%char :: s', g) =>
          match parse_set s' [] with
          | Some (ranges, s'') => Some (RSet ranges, (s'', g))
          | None => None
          end
      | ("\"%char :: c :: s', g) => Some (escape c, (s', g))
      | ("."%char :: s', g) => Some (RAny, (s', g))
      | (c :: s', g) => Some (RChar c, (s', g))
      | ([], _) => None
      end
  end.

Definition parse (p : string) : option regex :=
  let s := list_ascii_of_string p in
  match parse_alt (3 * length s + 3) (s, O) with
  | Some (r, ([], _)) => Some r
  | _ => None
  end.

(** [re.compile]: a pattern that does not parse matches nothing (every
    pattern of the extractor parses, see [patterns_compile]). *)
Definition compile (p : string) : regex :=
  match parse p with
  | Some r => r
  | None => RSet []
  end.

(** ** Matching *)

(** Under [re.IGNORECASE] literals and sets are compared up to case. *)
Definition char_eq (icase : bool) (c x : ascii) : bool :=
  if icase then Ascii.eqb (Py.lower_char c) (Py.lower_char x)
  else Ascii.eqb c x.

Definition in_ranges (ranges : list (ascii * ascii)) (x : ascii) : bool :=
  existsb (fun '(lo, hi) => Py.in_range (Py.code lo) (Py.code hi) x) ranges.

Definition set_matches (icase : bool) (ranges : list (ascii * ascii)) (x : ascii) : bool :=
  if icase
  then in_ranges ranges (Py.lower_char x) || in_ranges ranges (Py.upper_char x)
  else in_ranges ranges x.

Definition is_word_at (c : option ascii) : bool :=
  match c with
  | Some x => Py.isword x
  | None => false
  end.

Definition newline : ascii := ascii_of_N 10.

(** The groups set so far: group number to captured text. *)
Abbreviation captures := (gmap nat string).

(** The state handed to a continuation: the character before the
    current position, the text that remains, the groups. *)
Definition cont : Type :=
  option ascii -> list ascii -> captures -> option (list ascii * captures).

Definition one_char (test : ascii -> bool) (s : list ascii) (caps : captures)
           (k : cont) : option (list ascii * captures) :=
  match s with
  | x :: s' => if test x then k (Some x) s' caps else None
  | [] => None
  end.

(** Backtracking matcher in continuation-passing style: alternatives
    are tried left to right and repetitions are greedy, which is the
    order in which [re] explores them.  A repetition gives up an
    iteration that consumed nothing. *)
Fixpoint run (icase : bool) (r : regex) (prev : option ascii) (s : list ascii)
         (caps : captures) (k : cont) {struct r} : option (list ascii * captures) :=
  match r with
  | REps => k prev s caps
  | RChar c => one_char (char_eq icase c) s caps k
  | RAny => one_char (fun x => negb (Ascii.eqb x newline)) s caps k
  | RSet ranges => one_char (set_matches icase ranges) s caps k
  | RDigit => one_char Py.isdigit s caps k
  | RSpace => one_char Py.isspace s caps k
  | RWord => one_char Py.isword s caps k
  | RBoundary =>
      if xorb (is_word_at prev) (is_word_at (head s)) then k prev s caps else None
  | RCat r1 r2 =>
      run icase r1 prev s caps (fun prev' s' caps' => run icase r2 prev' s' caps' k)
  | RAlt r1 r2 =>
      match run icase r1 prev s caps k with
      | Some res => Some res
      | None => run icase r2 prev s caps k
      end
  | RStar r1 =>
      (fix loop (fuel : nat) (prev : option ascii) (s : list ascii) (caps : captures)
         : option (list ascii * captures) :=
         match fuel with
         | O => k prev s caps
         | S fuel' =>
             match run icase r1 prev s caps
                     (fun prev' s' caps' =>
                        if (length s' <? length s)%nat
                        then loop fuel' prev' s' caps' else None) with
             | Some res => Some res
             | None => k prev s caps
             end
         end) (length s) prev s caps
  | RGroup n r1 =>
      run icase r1 prev s caps
        (fun prev' s' caps' =>
           k prev' s'
             (<[n := string_of_list_ascii (take (length s - length s') s)]> caps'))
  end.

(** A match object. *)
Record Match : Type := {
  span_start : nat;
  span_end : nat;
  group0 : string;                 (* match.group(0) *)
  groups : list (option string)    (* match.groups() *)
}.

(** [match.group(n)] for [n] within the groups of the pattern. *)
Definition group (m : Match) (n : nat) : option string :=
  match n with
  | O => Some (group0 m)
  | S i => nth i (groups m) None
  end.

(** An attempt at one position. *)
Definition match_at (icase : bool) (r : regex) (prev : option ascii)
           (s : list ascii) (pos : nat) : option Match :=
  match run icase r prev s ∅ (fun _ s' caps' => Some (s', caps')) with
  | Some (s', caps) =>
      let n := (length s - length s')%nat in
      Some {| span_start := pos;
              span_end := (pos + n)%nat;
              group0 := string_of_list_ascii (take n s);
              groups := map (fun i => caps !! i) (seq 1 (ngroups r)) |}
  | None => None
  end.

(** Scan for the first position with a match. *)
Fixpoint search_from (icase : bool) (r : regex) (prev : option ascii)
         (s : list ascii) (pos : nat) : option Match :=
  match match_at icase r prev s pos with
  | Some m => Some m
  | None =>
      match s with
      | [] => None
      | c :: s' => search_from icase r (Some c) s' (S pos)
      end
  end.

(** [re.search(pattern, text, flags)] *)
Definition search (r : regex) (text : string) (icase : bool) : option Match :=
  search_from icase r None (list_ascii_of_string text) O.

(** All non-overlapping matches, left to right.  [skip] counts the
    characters still covered by the previous match.  After an empty
    match the scan moves on by one character (no pattern of the
    extractor matches the empty string). *)
Fixpoint finditer_from (icase : bool) (r : regex) (prev : option ascii)
         (s : list ascii) (pos : nat) (skip : nat) : list Match :=
  let advance (skip' : nat) : list Match :=
    match s with
    | [] => []
    | c :: s' => finditer_from icase r (Some c) s' (S pos) skip'
    end in
  match skip with
  | S skip' => advance skip'
  | O =>
      match match_at icase r prev s pos with
      | Some m => m :: advance (span_end m - span_start m - 1)%nat
      | None => advance O
      end
  end.

(** [re.finditer(pattern, text, flags)] *)
Definition finditer (r : regex) (text : string) (icase : bool) : list Match :=
  finditer_from icase r None (list_ascii_of_string text) O O.

End re.

(* ===================================================================== *)
(** * Memory records *)
(* ===================================================================== *)

(** [class MemoryType(Enum)] and its [.value]. *)
Inductive MemoryType : Type :=
| PREFERENCE | FACT | CONSTRAINT | COMMITMENT | INSTRUCTION | ENTITY.

Definition MemoryType_value (t : MemoryType) : string :=
  match t with
  | PREFERENCE => "preference"
  | FACT => "fact"
  | CONSTRAINT => "constraint"
  | COMMITMENT => "commitment"
  | INSTRUCTION => "instruction"
  | ENTITY => "entity"
  end.

(** The dictionary built by one of the [_extract_*] methods.  [value] is
    the only entry that can hold [None] (a group that took no part in the
    match). *)
Record Candidate : Type := {
  c_type : string;
  c_content : string;
  c_key : string;
  c_value : option string;
  c_confidence : Q;
  c_raw_text : string
}.

(** The memory dictionary handed from the extractor to the store. *)
Record Memory : Type := {
  session_id : string;
  mem_type : string;
  content : string;
  key : string;
  value : option string;
  confidence : Q;
  source_turn : Z;
  created_at : string;
  last_accessed : option string;
  access_count : Z;
  raw_text : string
}.

(* ===================================================================== *)
(** * [memory_extraction.py]: class [MemoryExtractor] *)
(* ===================================================================== *)

Module MemoryExtractor.

Definition IGNORECASE : bool := true.

Definition preference_patterns : list string :=
  [ "prefer[s]?\s+(.+)";
    "like[s]?\s+(.+)";
    "favorite\s+(.+)";
    "my\s+(.+)\s+is\s+(.+)";
    "call me\s+(.+)";
    "language\s+is\s+(\w+)" ].

Definition constraint_patterns : list string :=
  [ "(?:only|must|should|need to)\s+(.+)";
    "(?:before|after|by)\s+(\d+(?::\d+)?(?:\s*(?:AM|PM|am|pm))?)";
    "(?:not available|busy|occupied)\s+(.+)";
    "(?:don't|do not|never)\s+(.+)" ].

Definition commitment_patterns : list string :=
  [ "(?:will|going to|planning to)\s+(.+)";
    "(?:call|email|text|message|contact)\s+(.+)";
    "(?:remind me|schedule|set up)\s+(.+)";
    "(?:tomorrow|next week|later|soon)\s+(.+)?" ].

Definition instruction_patterns : list string :=
  [ "(?:always|never|from now on)\s+(.+)";
    "(?:remember to|make sure to)\s+(.+)";
    "(?:whenever|if)\s+(.+)" ].

Definition entity_pattern : string :=
  "\b([A-Z][a-z]+(?:\s+[A-Z][a-z]+)*)\b".

Definition fact_patterns : list string :=
  [ "(.+)\s+(?:is|are|was|were)\s+(.+)";
    "my\s+(.+)" ].

(** [re.finditer(pattern, text, re.IGNORECASE)] and friends on pattern
    strings. *)
Definition finditer (pattern text : string) (icase : bool) : list re.Match :=
  re.finditer (re.compile pattern) text icase.

Definition search (pattern text : string) (icase : bool) : option re.Match :=
  re.search (re.compile pattern) text icase.

(** Truth value of the result of [re.search] in a condition. *)
Definition found (m : option re.Match) : bool :=
  match m with
  | Some _ => true
  | None => false
  end.

(** [match.group(1) if match.groups() else content] *)
Definition group1_or (m : re.Match) (content : string) : option string :=
  match re.groups m with
  | [] => Some content
  | _ :: _ => re.group m 1
  end.

Definition _calculate_confidence (content pattern : string) : Q :=
  let base_confidence := 0.8%Q in
  let base_confidence :=
    if Py.len content <? 5 then (base_confidence - 0.2)%Q else base_confidence in
  let base_confidence :=
    if found (search "language|prefer|favorite" content IGNORECASE)
    then (base_confidence + 0.1)%Q else base_confidence in
  Qred (Qmin 0.99 (Qmax 0.5 base_confidence)).

(** The priority-ordered finer patterns of [_parse_preference]. *)
Definition parse_preference_patterns : list (string * (string * nat)) :=
  [ ("language\s+is\s+(\w+)", ("language", 1%nat));
    ("prefer[s]?\s+(.+)", ("preference", 1%nat));
    ("favorite\s+(.+)", ("favorite", 1%nat));
    ("call me\s+(.+)", ("name", 1%nat)) ].

Fixpoint _parse_preference_loop (patterns : list (string * (string * nat)))
         (text : string) : string * option string :=
  match patterns with
  | [] => ("general", Some text)
  | (pattern, (key, group)) :: rest =>
      match search pattern text IGNORECASE with
      | Some m => (key, re.group m group)
      | None => _parse_preference_loop rest text
      end
  end.

Definition _parse_preference (text : string) : string * option string :=
  _parse_preference_loop parse_preference_patterns text.

Definition _extract_constraint_key (text : string) : string :=
  if found (search "time|am|pm|\d+:\d+" text IGNORECASE) then "time_constraint"
  else if found (search "not available|busy" text IGNORECASE) then "availability"
  else "general_constraint".

(** The two nested loops shared by the pattern families: every match of
    every pattern, in pattern order, turned into a candidate. *)
Definition for_each_match {A} (patterns : list string) (text : string)
           (body : string -> re.Match -> list A) : list A :=
  flat_map (fun pattern =>
              flat_map (body pattern) (finditer pattern text IGNORECASE))
           patterns.

Definition _extract_preferences (text : string) (turn_number : Z) : list Candidate :=
  for_each_match preference_patterns text (fun pattern m =>
    let content := re.group0 m in
    let '(key, value) := _parse_preference content in
    [ {| c_type := MemoryType_value PREFERENCE;
         c_content := content;
         c_key := key;
         c_value := value;
         c_confidence := _calculate_confidence content pattern;
         c_raw_text := text |} ]).

Definition _extract_constraints (text : string) (turn_number : Z) : list Candidate :=
  for_each_match constraint_patterns text (fun pattern m =>
    let content := re.group0 m in
    [ {| c_type := MemoryType_value CONSTRAINT;
         c_content := content;
         c_key := _extract_constraint_key content;
         c_value := group1_or m content;
         c_confidence := _calculate_confidence content pattern;
         c_raw_text := text |} ]).

Definition _extract_commitments (text : string) (turn_number : Z) : list Candidate :=
  for_each_match commitment_patterns text (fun pattern m =>
    let content := re.group0 m in
    [ {| c_type := MemoryType_value COMMITMENT;
         c_content := content;
         c_key := "scheduled_action";
         c_value := group1_or m content;
         c_confidence := _calculate_confidence content pattern;
         c_raw_text := text |} ]).

Definition _extract_instructions (text : string) (turn_number : Z) : list Candidate :=
  for_each_match instruction_patterns text (fun pattern m =>
    let content := re.group0 m in
    [ {| c_type := MemoryType_value INSTRUCTION;
         c_content := content;
         c_key := "instruction";
         c_value := group1_or m content;
         c_confidence := _calculate_confidence content pattern;
         c_raw_text := text |} ]).

Definition entity_stopwords : list string := ["i"; "my"; "the"; "a"; "an"].

(** The entity pattern is matched case-sensitively.  Its group spans the
    whole match, so [match.group(1)] is always a string. *)
Definition _extract_entities (text : string) (turn_number : Z) : list Candidate :=
  flat_map (fun m =>
    match re.group m 1 with
    | Some entity =>
        if bool_decide (Py.lower entity ∈ entity_stopwords) then []
        else [ {| c_type := MemoryType_value ENTITY;
                  c_content := entity;
                  c_key := "entity_name";
                  c_value := Some entity;
                  c_confidence := 0.7%Q;
                  c_raw_text := text |} ]
    | None => []
    end) (finditer entity_pattern text false).

Definition _extract_facts (text : string) (turn_number : Z) : list Candidate :=
  for_each_match fact_patterns text (fun pattern m =>
    let content := re.group0 m in
    if (10 <? Py.len content) && (2 <? Z.of_nat (length (Py.split content)))
    then [ {| c_type := MemoryType_value FACT;
              c_content := content;
              c_key := "fact";
              c_value := Some content;
              c_confidence := 0.6%Q;
              c_raw_text := text |} ]
    else []).

(** The metadata loop of [extract_memories]: the [i]-th memory is
    stamped with the [i]-th reading of the clock. *)
Definition add_metadata (session : string) (turn_number : Z)
           (clock : nat -> string) (i : nat) (c : Candidate) : Memory :=
  {| session_id := session;
     mem_type := c_type c;
     content := c_content c;
     key := c_key c;
     value := c_value c;
     confidence := c_confidence c;
     source_turn := turn_number;
     created_at := clock i;
     last_accessed := None;
     access_count := 0;
     raw_text := c_raw_text c |}.

Definition extract_memories (user_message assistant_response : string)
           (turn_number : Z) (session : string) (clock : nat -> string)
  : list Memory :=
  let memories :=
    (_extract_preferences user_message turn_number
     ++ _extract_constraints user_message turn_number
     ++ _extract_commitments user_message turn_number
     ++ _extract_instructions user_message turn_number
     ++ _extract_entities user_message turn_number
     ++ _extract_facts user_message turn_number)%list in
  imap (add_metadata session turn_number clock) memories.

(** [filter_memories] *)
Definition filter_memories (memories : list Memory) (min_confidence : Q) : list Memory :=
  List.filter (fun m => Qle_bool min_confidence (confidence m)) memories.

(** The fingerprint f-string [type:key:value]. *)
Definition fingerprint (m : Memory) : string :=
  mem_type m +:+ ":" +:+ key m +:+ ":" +:+ Py.str (value m).

(** The loop of [deduplicate_memories], threading the [seen] set and the
    list built so far. *)
Definition deduplicate_step (acc : gset string * list Memory) (memory : Memory)
  : gset string * list Memory :=
  let '(seen, unique_memories) := acc in
  let fp := fingerprint memory in
  if bool_decide (fp ∈ seen) then (seen, unique_memories)
  else ({[ fp ]} ∪ seen, (unique_memories ++ [memory])%list).

Definition deduplicate_memories (memories : list Memory) : list Memory :=
  snd (fold_left deduplicate_step memories (∅, [])).

End MemoryExtractor.

(* ===================================================================== *)
(** * Sorting as [list.sort] and [ORDER BY] do *)
(* ===================================================================== *)

(** A stable insertion sort: [le x y] says that [x] may stay in front of
    [y].  Elements that compare equal keep their input order, as with
    Python's [list.sort] (also under [reverse=True]) and with the rowid
    order SQLite falls back to. *)
Section StableSort.
Context {A : Type} (le : A -> A -> bool).

Fixpoint insert_sorted (x : A) (l : list A) : list A :=
  match l with
  | [] => [x]
  | y :: l' => if le x y then x :: y :: l' else y :: insert_sorted x l'
  end.

Definition stable_sort (l : list A) : list A :=
  foldr insert_sorted [] l.
End StableSort.

(* ===================================================================== *)
(** * [memory_storage.py]: class [MemoryStorage] *)
(* ===================================================================== *)

(** A row of table [memories]: the assigned [id] and the columns written
    by [store_memory].  Column [embedding_id] is never written. *)
Record Row : Type := {
  memory_id : Z;
  fields : Memory
}.

(** The result dictionary of [get_memory_stats]. *)
Record Stats : Type := {
  total_memories : option Z;
  avg_confidence : option Q;
  earliest_turn : option Z;
  latest_turn : option Z
}.

Module MemoryStorage.

(** The storage object: the table (in rowid order), the AUTOINCREMENT
    counter SQLite keeps in [sqlite_sequence], and the similarity index
    with its id map. *)
Record t : Type := {
  memories : list Row;
  sqlite_sequence : Z;
  vector_search_enabled : bool;
  faiss_index : list string;       (* the texts whose embeddings were added *)
  memory_id_map : list Z
}.

(** [_init_database] on a fresh file. *)
Definition init (vector_search : bool) : t :=
  {| memories := [];
     sqlite_sequence := 0;
     vector_search_enabled := vector_search;
     faiss_index := [];
     memory_id_map := [] |}.

(** [UNIQUE(session_id, type, key, value, source_turn)]: the stored row
    [r] forbids the insertion of [m].  As SQL prescribes, a NULL is
    distinct from every value, NULL included. *)
Definition unique_conflict (m : Memory) (r : Row) : bool :=
  String.eqb (session_id (fields r)) (session_id m)
  && String.eqb (mem_type (fields r)) (mem_type m)
  && String.eqb (key (fields r)) (key m)
  && match value (fields r), value m with
     | Some v, Some v' => String.eqb v v'
     | _, _ => false
     end
  && (source_turn (fields r) =? source_turn m).

(** [_add_to_vector_index] (writing the index to disk after every tenth
    addition is not part of the model). *)
Definition _add_to_vector_index (st : t) (id : Z) (text : string) : t :=
  if vector_search_enabled st then
    {| memories := memories st;
       sqlite_sequence := sqlite_sequence st;
       vector_search_enabled := vector_search_enabled st;
       faiss_index := faiss_index st ++ [text];
       memory_id_map := memory_id_map st ++ [id] |}
  else st.

(** [store_memory]: the INSERT raises [sqlite3.IntegrityError] on a
    conflict, which is answered with [-1]; otherwise the row gets the
    next AUTOINCREMENT id ([cursor.lastrowid]). *)
Definition store_memory (st : t) (memory : Memory) : t * Z :=
  if existsb (unique_conflict memory) (memories st) then (st, -1)
  else
    let id := sqlite_sequence st + 1 in
    let st' :=
      {| memories := memories st ++ [ {| memory_id := id; fields := memory |} ];
         sqlite_sequence := id;
         vector_search_enabled := vector_search_enabled st;
         faiss_index := faiss_index st;
         memory_id_map := memory_id_map st |} in
    (_add_to_vector_index st' id (content memory), id).

(** [store_memories] *)
Fixpoint store_memories (st : t) (ms : list Memory) : t * list Z :=
  match ms with
  | [] => (st, [])
  | memory :: rest =>
      let '(st1, id) := store_memory st memory in
      let '(st2, memory_ids) := store_memories st1 rest in
      (st2, if id =? -1 then memory_ids else id :: memory_ids)
  end.

(** [get_memory] *)
Definition get_memory (st : t) (id : Z) : option Row :=
  List.find (fun r => memory_id r =? id) (memories st).

(** Truth value of an optional string used as a condition: [None] and
    the empty string are false. *)
Definition truthy (s : option string) : option string :=
  match s with
  | Some "" => None
  | other => other
  end.

(** The WHERE clause of [get_session_memories]. *)
Definition session_memories_where (session : string) (memory_type : option string)
           (min_confidence : Q) (r : Row) : bool :=
  String.eqb (session_id (fields r)) session
  && match truthy memory_type with
     | Some ty => String.eqb (mem_type (fields r)) ty
     | None => true
     end
  && Qle_bool min_confidence (confidence (fields r)).

(** [get_session_memories] *)
Definition get_session_memories (st : t) (session : string)
           (memory_type : option string) (min_confidence : Q) : list Row :=
  stable_sort (fun a b => source_turn (fields a) <=? source_turn (fields b))
              (List.filter (session_memories_where session memory_type min_confidence)
                           (memories st)).

(** The SQL operator [LIKE]: [%] stands for any run of characters, [_]
    for any one character, every other character for itself up to
    ASCII case. *)
Fixpoint like_chars (p : list ascii) (s : list ascii) {struct p} : bool :=
  match p with
  | [] => match s with [] => true | _ :: _ => false end
  | "%"%char :: p' =>
      (fix any_run (s : list ascii) : bool :=
         like_chars p' s
         || match s with
            | [] => false
            | _ :: s' => any_run s'
            end) s
  | "_"%char :: p' =>
      match s with
      | [] => false
      | _ :: s' => like_chars p' s'
      end
  | c :: p' =>
      match s with
      | [] => false
      | x :: s' => Ascii.eqb (Py.lower_char c) (Py.lower_char x) && like_chars p' s'
      end
  end.

Definition like (text pattern : string) : bool :=
  like_chars (list_ascii_of_string pattern) (list_ascii_of_string text).

(** [LIMIT n]: a negative limit is no limit. *)
Definition limit {A} (n : Z) (l : list A) : list A :=
  if n <? 0 then l else take (Z.to_nat n) l.

(** The WHERE clause of [_text_search]; a NULL [value] makes its
    [LIKE] unknown, which does not select the row. *)
Definition text_search_where (session : option string) (query_pattern : string)
           (r : Row) : bool :=
  let hit :=
    like (content (fields r)) query_pattern
    || match value (fields r) with
       | Some v => like v query_pattern
       | None => false
       end in
  match truthy session with
  | Some sid => String.eqb (session_id (fields r)) sid && hit
  | None => hit
  end.

(** [_text_search] *)
Definition _text_search (st : t) (query : string)
           (session : option string) (top_k : Z) : list Row :=
  let query_pattern := "%" +:+ query +:+ "%" in
  limit top_k
    (stable_sort (fun a b => Qle_bool (confidence (fields b)) (confidence (fields a)))
                 (List.filter (text_search_where session query_pattern) (memories st))).

(** [l[i]] with Python's negative indices; [None] is an [IndexError]. *)
Definition py_index {A} (l : list A) (i : Z) : option A :=
  if 0 <=? i then l !! Z.to_nat i
  else if 0 <=? Z.of_nat (length l) + i then l !! Z.to_nat (Z.of_nat (length l) + i)
  else None.

Section VectorSearch.
(** The nearest-neighbour search of the similarity index: from the
    indexed texts, the query and the number of neighbours asked for
    to the positions found ([indices[0]]). *)
Variable index_search : list string -> string -> Z -> list Z.

(** The loop over [indices[0]]; [None] is an [IndexError]. *)
Fixpoint collect_hits (st : t) (session : option string) (top_k : Z)
         (indices : list Z) (found : list Row) : option (list Row) :=
  match indices with
  | [] => Some found
  | idx :: rest =>
      if idx <? Z.of_nat (length (memory_id_map st)) then
        match py_index (memory_id_map st) idx with
        | None => None
        | Some id =>
            match get_memory st id with
            | Some memory =>
                if match session with
                   | None => true
                   | Some sid => String.eqb (session_id (fields memory)) sid
                   end
                then
                  let found' := found ++ [memory] in
                  if top_k <=? Z.of_nat (length found') then Some found'
                  else collect_hits st session top_k rest found'
                else collect_hits st session top_k rest found
            | None => collect_hits st session top_k rest found
            end
        end
      else collect_hits st session top_k rest found
  end.

(** [search_memories_by_content] *)
Definition search_memories_by_content (st : t) (query : string)
           (session : option string) (top_k : Z) : option (list Row) :=
  if negb (vector_search_enabled st) then Some (_text_search st query session top_k)
  else
    let k := Z.min (top_k * 2) (Z.of_nat (length (memory_id_map st))) in
    collect_hits st session top_k (index_search (faiss_index st) query k) [].
End VectorSearch.

(** The UPDATE of [update_memory_access] on one row. *)
Definition touch (now : string) (id : Z) (r : Row) : Row :=
  if memory_id r =? id then
    {| memory_id := memory_id r;
       fields :=
         {| session_id := session_id (fields r);
            mem_type := mem_type (fields r);
            content := content (fields r);
            key := key (fields r);
            value := value (fields r);
            confidence := confidence (fields r);
            source_turn := source_turn (fields r);
            created_at := created_at (fields r);
            last_accessed := Some now;
            access_count := access_count (fields r) + 1;
            raw_text := raw_text (fields r) |} |}
  else r.

Definition with_memories (st : t) (rows : list Row) : t :=
  {| memories := rows;
     sqlite_sequence := sqlite_sequence st;
     vector_search_enabled := vector_search_enabled st;
     faiss_index := faiss_index st;
     memory_id_map := memory_id_map st |}.

(** [update_memory_access]; [now] is the clock reading. *)
Definition update_memory_access (st : t) (now : string) (id : Z) : t :=
  with_memories st (map (touch now id) (memories st)).

(** [delete_session_memories] *)
Definition delete_session_memories (st : t) (session : string) : t :=
  with_memories st
    (List.filter (fun r => negb (String.eqb (session_id (fields r)) session))
                 (memories st)).

(** The SQL aggregates over the selected rows. *)
Definition sql_count (rows : list Row) : Z := Z.of_nat (length rows).

Definition sql_sum (rows : list Row) : Q :=
  fold_left (fun acc r => (acc + confidence (fields r))%Q) rows 0%Q.

Definition sql_avg (rows : list Row) : option Q :=
  match rows with
  | [] => None
  | _ :: _ => Some (Qred (sql_sum rows / inject_Z (sql_count rows)))
  end.

Definition sql_min (rows : list Row) : option Z :=
  fold_left (fun acc r =>
               match acc with
               | None => Some (source_turn (fields r))
               | Some turn => Some (Z.min turn (source_turn (fields r)))
               end) rows None.

Definition sql_max (rows : list Row) : option Z :=
  fold_left (fun acc r =>
               match acc with
               | None => Some (source_turn (fields r))
               | Some turn => Some (Z.max turn (source_turn (fields r)))
               end) rows None.

(** The rows a statistics query ranges over. *)
Definition stats_rows (st : t) (session : option string) : list Row :=
  match truthy session with
  | Some sid =>
      List.filter (fun r => String.eqb (session_id (fields r)) sid) (memories st)
  | None => memories st
  end.

(** [get_memory_stats] *)
Definition get_memory_stats (st : t) (session : option string) : Stats :=
  let rows := stats_rows st session in
  {| total_memories := Some (sql_count rows);
     avg_confidence := sql_avg rows;
     earliest_turn := sql_min rows;
     latest_turn := sql_max rows |}.

End MemoryStorage.

(* ===================================================================== *)
(** * [memory_retrieval.py]: class [MemoryRetriever] *)
(* ===================================================================== *)

(** [memory_copy] with its ["relevance_score"] entry. *)
Record ScoredMemory : Type := {
  scored_row : Row;
  relevance_score : R
}.

Module MemoryRetriever.

Definition recency_weight : R := 0.3%R.
Definition confidence_weight : R := 0.4%R.
Definition access_count_weight : R := 0.2%R.
Definition semantic_weight : R := 0.1%R.

Definition type_priorities : gmap string Q :=
  list_to_map
    [ ("instruction", 1.0%Q);
      ("preference", 0.9%Q);
      ("commitment", 0.85%Q);
      ("constraint", 0.8%Q);
      ("fact", 0.7%Q);
      ("entity", 0.6%Q) ].

Definition stopwords : gset string :=
  list_to_set ["the"; "a"; "an"; "and"; "or"; "but"; "in"; "on"; "at"; "to";
               "for"; "of"; "is"; "are"].

Definition Rleb (x y : R) : bool := if Rle_dec x y then true else false.
Definition Reqb (x y : R) : bool := if Req_dec_T x y then true else false.

(** [_calculate_semantic_similarity]: Jaccard similarity of the word
    sets, a rational number. *)
Definition _calculate_semantic_similarity (memory_content query : string) : Q :=
  let memory_words : gset string := list_to_set (Py.split (Py.lower memory_content)) in
  let query_words : gset string := list_to_set (Py.split (Py.lower query)) in
  let memory_words := memory_words ∖ stopwords in
  let query_words := query_words ∖ stopwords in
  if bool_decide (memory_words = ∅) || bool_decide (query_words = ∅) then 0%Q
  else
    let intersection := Z.of_nat (size (memory_words ∩ query_words)) in
    let union := Z.of_nat (size (memory_words ∪ query_words)) in
    if 0 <? union then Qred (inject_Z intersection / inject_Z union) else 0%Q.

(** [math.log] on an integer: a [ValueError] ([None]) outside the
    positive numbers. *)
Definition math_log (x : Z) : option R :=
  if 0 <? x then Some (ln (IZR x)) else None.

(** [_calculate_relevance] *)
Definition _calculate_relevance (memory : Row) (current_turn : Z)
           (user_message : string) : option R :=
  let turn_distance := current_turn - source_turn (fields memory) in
  let recency_score := exp (IZR (- turn_distance) / 100) in
  let confidence_score := Q2R (confidence (fields memory)) in
  match math_log (access_count (fields memory) + 1) with
  | None => None
  | Some log_count =>
      let access_score := (log_count / ln 10)%R in
      let access_score := Rmin 1 access_score in
      let semantic_score :=
        Q2R (_calculate_semantic_similarity (content (fields memory)) user_message) in
      let type_score :=
        Q2R (default 0.5%Q (type_priorities !! mem_type (fields memory))) in
      let total_score :=
        ((recency_weight * recency_score
          + confidence_weight * confidence_score
          + access_count_weight * access_score
          + semantic_weight * semantic_score) * type_score)%R in
      Some (Rmin 1 total_score)
  end.

(** [==] on the dictionaries of the result list. *)
Definition option_string_eqb (a b : option string) : bool :=
  match a, b with
  | Some x, Some y => String.eqb x y
  | None, None => true
  | _, _ => false
  end.

Definition memory_eqb (a b : Memory) : bool :=
  String.eqb (session_id a) (session_id b)
  && String.eqb (mem_type a) (mem_type b)
  && String.eqb (content a) (content b)
  && String.eqb (key a) (key b)
  && option_string_eqb (value a) (value b)
  && Qeq_bool (confidence a) (confidence b)
  && (source_turn a =? source_turn b)
  && String.eqb (created_at a) (created_at b)
  && option_string_eqb (last_accessed a) (last_accessed b)
  && (access_count a =? access_count b)
  && String.eqb (raw_text a) (raw_text b).

Definition scored_eqb (a b : ScoredMemory) : bool :=
  (memory_id (scored_row a) =? memory_id (scored_row b))
  && memory_eqb (fields (scored_row a)) (fields (scored_row b))
  && Reqb (relevance_score a) (relevance_score b).

(** The first loop of [_apply_diversity_filter], with its [break]. *)
Fixpoint diversity_loop (max_count : Z) (memories : list ScoredMemory)
         (diverse_memories : list ScoredMemory)
         (type_counts : gmap string Z) (seen_keys : gset string)
  : list ScoredMemory :=
  match memories with
  | [] => diverse_memories
  | memory :: rest =>
      let memory_type := mem_type (fields (scored_row memory)) in
      let memory_key := key (fields (scored_row memory)) in
      if default 0 (type_counts !! memory_type) <? 2 then
        if negb (bool_decide (memory_key ∈ seen_keys))
           || (Z.of_nat (length diverse_memories) <? max_count / 2)
        then
          let diverse_memories := diverse_memories ++ [memory] in
          let type_counts :=
            <[memory_type := default 0 (type_counts !! memory_type) + 1]> type_counts in
          let seen_keys := {[ memory_key ]} ∪ seen_keys in
          if max_count <=? Z.of_nat (length diverse_memories) then diverse_memories
          else diversity_loop max_count rest diverse_memories type_counts seen_keys
        else diversity_loop max_count rest diverse_memories type_counts seen_keys
      else diversity_loop max_count rest diverse_memories type_counts seen_keys
  end.

(** The second loop: fill the remaining slots. *)
Fixpoint fill_loop (max_count : Z) (memories : list ScoredMemory)
         (diverse_memories : list ScoredMemory) : list ScoredMemory :=
  match memories with
  | [] => diverse_memories
  | memory :: rest =>
      if negb (existsb (scored_eqb memory) diverse_memories) then
        let diverse_memories := diverse_memories ++ [memory] in
        if max_count <=? Z.of_nat (length diverse_memories) then diverse_memories
        else fill_loop max_count rest diverse_memories
      else fill_loop max_count rest diverse_memories
  end.

(** [_apply_diversity_filter] *)
Definition _apply_diversity_filter (memories : list ScoredMemory) (max_count : Z)
  : list ScoredMemory :=
  if Z.of_nat (length memories) <=? max_count then memories
  else
    let diverse_memories := diversity_loop max_count memories [] ∅ ∅ in
    if Z.of_nat (length diverse_memories) <? max_count
    then fill_loop max_count memories diverse_memories
    else diverse_memories.

(** The scoring loop of [retrieve_relevant_memories]; an exception of
    [_calculate_relevance] leaves the loop. *)
Fixpoint score_memories (all_memories : list Row) (current_turn : Z)
         (user_message : string) (min_relevance : R) : option (list ScoredMemory) :=
  match all_memories with
  | [] => Some []
  | memory :: rest =>
      match _calculate_relevance memory current_turn user_message with
      | None => None
      | Some score =>
          match score_memories rest current_turn user_message min_relevance with
          | None => None
          | Some scored_memories =>
              Some (if Rleb min_relevance score
                    then {| scored_row := memory; relevance_score := score |}
                           :: scored_memories
                    else scored_memories)
          end
      end
  end.

(** The access-statistics loop; the [i]-th update reads [clock i]. *)
Fixpoint update_access (st : MemoryStorage.t) (clock : nat -> string) (i : nat)
         (selected : list ScoredMemory) : MemoryStorage.t :=
  match selected with
  | [] => st
  | memory :: rest =>
      update_access
        (MemoryStorage.update_memory_access st (clock i) (memory_id (scored_row memory)))
        clock (S i) rest
  end.

(** [retrieve_relevant_memories]: the new state of the storage and the
    returned list, or [None] when an exception escapes. *)
Definition retrieve_relevant_memories (st : MemoryStorage.t) (session : string)
           (current_turn : Z) (user_message : string) (max_memories : Z)
           (min_relevance : R) (clock : nat -> string)
  : option (MemoryStorage.t * list ScoredMemory) :=
  let all_memories := MemoryStorage.get_session_memories st session None 0%Q in
  match all_memories with
  | [] => Some (st, [])
  | _ :: _ =>
      match score_memories all_memories current_turn user_message min_relevance with
      | None => None
      | Some scored_memories =>
          let scored_memories :=
            stable_sort (fun a b => Rleb (relevance_score b) (relevance_score a))
                        scored_memories in
          let diverse_memories := _apply_diversity_filter scored_memories max_memories in
          Some (update_access st clock O diverse_memories,
                Py.slice_to diverse_memories max_memories)
      end
  end.

(** The sort key [(confidence, -source_turn)] of [retrieve_by_type],
    compared as Python compares tuples; [reverse=True]. *)
Definition by_type_key_le (a b : Row) : bool :=
  let ca := confidence (fields a) in
  let cb := confidence (fields b) in
  if Qeq_bool ca cb
  then - source_turn (fields a) <=? - source_turn (fields b)
  else Qle_bool ca cb.

(** [retrieve_by_type] *)
Definition retrieve_by_type (st : MemoryStorage.t) (session memory_type : string)
           (max_memories : Z) : list Row :=
  let memories := MemoryStorage.get_session_memories st session (Some memory_type) 0%Q in
  let memories := stable_sort (fun a b => by_type_key_le b a) memories in
  Py.slice_to memories max_memories.

(** [retrieve_by_turn_range] *)
Definition retrieve_by_turn_range (st : MemoryStorage.t) (session : string)
           (start_turn end_turn : Z) : list Row :=
  List.filter (fun m => (start_turn <=? source_turn (fields m))
                        && (source_turn (fields m) <=? end_turn))
              (MemoryStorage.get_session_memories st session None 0%Q).

(** [retrieve_critical_memories] *)
Definition retrieve_critical_memories (st : MemoryStorage.t) (session : string)
           (current_turn : Z) : list Row :=
  let critical_types := ["instruction"; "commitment"] in
  let critical_memories :=
    flat_map (fun mem_type => retrieve_by_type st session mem_type 3) critical_types in
  let preferences := retrieve_by_type st session "preference" 5 in
  let high_conf_prefs :=
    List.filter (fun p => negb (Qle_bool (confidence (fields p)) 0.8%Q)) preferences in
  critical_memories ++ high_conf_prefs.

(** [by_type[memory_type].append(memory)] on the [defaultdict(list)],
    whose keys stay in the order of their insertion. *)
Fixpoint group_append (by_type : list (string * list Row)) (memory_type : string)
         (memory : Row) : list (string * list Row) :=
  match by_type with
  | [] => [(memory_type, [memory])]
  | (ty, mems) :: rest =>
      if String.eqb ty memory_type then (ty, mems ++ [memory]) :: rest
      else (ty, mems) :: group_append rest memory_type memory
  end.

Section Format.
(** The format specification [:.2f] applied to a confidence. *)
Variable format_2f : Q -> string.

(** The list [formatted] of the lines of the prompt.  The dictionaries
    are read at ["type"], ["content"], ["source_turn"] and
    ["confidence"] only: they are given as rows. *)
Definition format_lines (memories : list Row) (include_metadata : bool)
  : list string :=
  let formatted := ["## Active Memories"] in
  let by_type :=
    fold_left (fun by_type memory =>
                 group_append by_type (mem_type (fields memory)) memory)
              memories [] in
  fold_left
    (fun formatted '(memory_type, mems) =>
       let formatted :=
         formatted ++ [Py.nl +:+ "### " +:+ Py.title memory_type +:+ "s:"] in
       fold_left
         (fun formatted mem =>
            let content := content (fields mem) in
            if include_metadata then
              let turn := source_turn (fields mem) in
              let conf := confidence (fields mem) in
              formatted ++ ["- " +:+ content +:+ " (from turn " +:+ Py.str_int turn
                            +:+ ", confidence: " +:+ format_2f conf +:+ ")"]
            else formatted ++ ["- " +:+ content])
         mems formatted)
    by_type formatted.

(** [format_memories_for_prompt] *)
Definition format_memories_for_prompt (memories : list Row) (include_metadata : bool)
  : string :=
  match memories with
  | [] => ""
  | _ :: _ => Py.join Py.nl (format_lines memories include_metadata)
  end.
End Format.

(** The result of [get_retrieval_stats] for a session that has
    memories. *)
Record RetrievalStats : Type := {
  stats_total_memories : Z;
  stats_total_accesses : Z;
  stats_avg_confidence : Q;
  stats_type_distribution : gmap string Z;
  stats_most_accessed : Row
}.

(** [max(l, key=...)] on a list with first element [x]: the first of the
    elements with the greatest key. *)
Definition py_max {A} (key : A -> Z) (x : A) (l : list A) : A :=
  fold_left (fun best y => if key best <? key y then y else best) l x.

(** [get_retrieval_stats]: [None] stands for the dictionary
    [{"total_memories": 0}] of a session without memories. *)
Definition get_retrieval_stats (st : MemoryStorage.t) (session : string)
  : option RetrievalStats :=
  let all_memories := MemoryStorage.get_session_memories st session None 0%Q in
  match all_memories with
  | [] => None
  | first :: others =>
      let total_accesses :=
        fold_left (fun acc m => acc + access_count (fields m)) all_memories 0 in
      let avg_confidence :=
        Qred (fold_left (fun acc m => (acc + confidence (fields m))%Q) all_memories 0%Q
              / inject_Z (Z.of_nat (length all_memories))) in
      let type_distribution :=
        fold_left (fun dist mem =>
                     <[mem_type (fields mem) :=
                         default 0 (dist !! mem_type (fields mem)) + 1]> dist)
                  all_memories (∅ : gmap string Z) in
      Some {| stats_total_memories := Z.of_nat (length all_memories);
              stats_total_accesses := total_accesses;
              stats_avg_confidence := avg_confidence;
              stats_type_distribution := type_distribution;
              stats_most_accessed :=
                py_max (fun m => access_count (fields m)) first others |}
  end.

End MemoryRetriever.

(* ===================================================================== *)
(** * [conversation_agent.py]: class [ConversationAgent] *)
(* ===================================================================== *)

Module ConversationAgent.

(** An entry of [self.sessions]. *)
Record Session : Type := {
  created_at : string;
  turn_count : Z;
  last_active : string
}.

(** The agent.  [storage] is the storage object behind the attributes
    [extractor], [storage] and [retriever], which exist only when
    [enable_memory] is set; it is not read otherwise.  Printing (the
    [verbose] flag) is not part of the model. *)
Record t : Type := {
  verbose : bool;
  enable_memory : bool;
  storage : MemoryStorage.t;
  sessions : gmap string Session
}.

(** [__init__], given the fresh storage object. *)
Definition init (memory : bool) (log : bool) (fresh : MemoryStorage.t) : t :=
  {| verbose := log;
     enable_memory := memory;
     storage := fresh;
     sessions := ∅ |}.

(** The entries of the response dictionary. *)
Record ActiveMemory : Type := {
  active_memory_id : Z;
  active_content : string;
  active_type : string;
  origin_turn : Z;
  active_relevance_score : R
}.

Record ExtractedMemory : Type := {
  extracted_content : string;
  extracted_type : string;
  extracted_confidence : Q
}.

Record Performance : Type := {
  total_latency_ms : Q;
  retrieval_latency_ms : Q;
  response_latency_ms : Q;
  extraction_latency_ms : Q
}.

Record Response : Type := {
  response_session_id : string;
  turn_number : Z;
  user_message : string;
  assistant_response : string;
  active_memories : list ActiveMemory;
  extracted_memories : list ExtractedMemory;
  performance : Performance
}.

(** What the stopwatch of a call shows, in milliseconds and rounded to
    two decimals, for the whole call and for each of its three phases
    (the readings of [time.time()] are inputs of the model). *)
Record Durations : Type := {
  total_time : Q;
  retrieval_time : Q;
  response_time : Q;
  extraction_time : Q
}.

(** [_generate_response] *)
Definition _generate_response (message memory_context : string) (turn : Z)
           (relevant_memories : list ScoredMemory) : string :=
  let message_lower := Py.lower message in
  if Py.contains "call" message_lower && Py.contains "tomorrow" message_lower then
    let time_constraints :=
      List.filter
        (fun m => String.eqb (mem_type (fields (scored_row m))) "constraint"
                  && Py.contains "time" (Py.lower (key (fields (scored_row m)))))
        relevant_memories in
    match time_constraints with
    | constraint :: _ =>
        "I'll make sure to call you tomorrow "
        +:+ Py.str (value (fields (scored_row constraint))) +:+ " as you preferred."
    | [] => "I'll call you tomorrow. What time works best for you?"
    end
  else if Py.contains "language" message_lower
          || Py.contains "preferred language" message_lower then
    "I'll remember your language preference for our future conversations."
  else if Py.contains "my name is" message_lower
          || Py.contains "call me" message_lower then
    "Got it! I'll remember that."
  else if existsb (fun word => Py.contains word message_lower) ["hello"; "hi"; "hey"] then
    let name_prefs :=
      List.filter
        (fun m => String.eqb (mem_type (fields (scored_row m))) "preference"
                  && String.eqb (key (fields (scored_row m))) "name")
        relevant_memories in
    match name_prefs with
    | name_pref :: _ =>
        "Hello " +:+ Py.str (value (fields (scored_row name_pref)))
        +:+ "! How can I help you today?"
    | [] => "Hello! How can I help you today?"
    end
  else
    if negb (String.eqb memory_context "") then
      "I understand. Based on what I remember about you, I'll keep that in mind. How else can I assist you?"
    else "I understand. How can I help you with that?".

Section ProcessTurn.
(** The format specification [:.2f] of the prompt (not used by
    [process_turn], which formats without metadata). *)
Variable format_2f : Q -> string.

(** Steps 2 to 4 of [process_turn] and its response, given the
    outcome of step 1: the storage [st1], the memories retrieved, and
    the local variable [retrieval_time], which is bound only when
    step 1 has run.  [after] builds the agent from the storage. *)
Definition process_turn_steps (agent : t) (after : MemoryStorage.t -> t)
           (session_id message : string) (turn : Z) (retrieve_memories : bool)
           (extraction_clock : nat -> string) (measured : Durations)
           (st1 : MemoryStorage.t) (relevant_memories : list ScoredMemory)
           (retrieval : option Q) : t * option Response :=
  (* Step 2: Format memories for prompt *)
  let memory_context :=
    match relevant_memories with
    | [] => ""
    | _ :: _ =>
        MemoryRetriever.format_memories_for_prompt
          format_2f (scored_row <$> relevant_memories) false
    end in
  (* Step 3: Generate response *)
  let response_text :=
    _generate_response message memory_context turn relevant_memories in
  (* Step 4: Extract memories from this turn *)
  let '(st2, extracted) :=
    if enable_memory agent then
      let raw_memories :=
        MemoryExtractor.extract_memories message response_text turn session_id
                                         extraction_clock in
      let filtered_memories := MemoryExtractor.filter_memories raw_memories 0.6%Q in
      let unique_memories := MemoryExtractor.deduplicate_memories filtered_memories in
      match unique_memories with
      | [] => (st1, [])
      | _ :: _ =>
          let '(st2, memory_ids) := MemoryStorage.store_memories st1 unique_memories in
          (st2,
           fst <$> List.filter (fun '(m, mid) => negb (mid =? -1))
                               (zip unique_memories memory_ids))
      end
    else (st1, []) in
  (* Build response *)
  match (if retrieve_memories then retrieval else Some 0%Q) with
  | None => (after st2, None)        (* UnboundLocalError: retrieval_time *)
  | Some retrieval_latency =>
      (after st2,
       Some {| response_session_id := session_id;
               turn_number := turn;
               user_message := message;
               assistant_response := response_text;
               active_memories :=
                 (fun m =>
                    {| active_memory_id := memory_id (scored_row m);
                       active_content := content (fields (scored_row m));
                       active_type := mem_type (fields (scored_row m));
                       origin_turn := source_turn (fields (scored_row m));
                       active_relevance_score := relevance_score m |})
                   <$> relevant_memories;
               extracted_memories :=
                 (fun m =>
                    {| extracted_content := content m;
                       extracted_type := mem_type m;
                       extracted_confidence := confidence m |})
                   <$> extracted;
               performance :=
                 {| total_latency_ms := total_time measured;
                    retrieval_latency_ms := retrieval_latency;
                    response_latency_ms := response_time measured;
                    extraction_latency_ms :=
                      if enable_memory agent then extraction_time measured
                      else 0%Q |} |})
  end.

(** [process_turn].  The readings of [datetime.utcnow()] are given as
    [now] for the bookkeeping of the session, and as the clocks of the
    retrieval and of the extraction.  The result is the agent after
    the call and the response, or [None] when an exception leaves the
    call.  The three updates of [self.sessions[session_id]] are
    written as one. *)
Definition process_turn (agent : t) (session_id message : string)
           (turn : option Z) (retrieve_memories : bool)
           (now retrieval_clock extraction_clock : nat -> string)
           (measured : Durations) : t * option Response :=
  (* Initialize session if needed *)
  let '(session, next) :=
    match sessions agent !! session_id with
    | Some session => (session, O)
    | None =>
        ({| created_at := now O; turn_count := 0; last_active := now 1%nat |}, 2%nat)
    end in
  (* Increment turn count *)
  let '(count, turn) :=
    match turn with
    | None => (turn_count session + 1, turn_count session + 1)
    | Some n => (Z.max (turn_count session) n, n)
    end in
  let sessions' :=
    <[session_id := {| created_at := created_at session;
                       turn_count := count;
                       last_active := now next |}]> (sessions agent) in
  let after (st : MemoryStorage.t) : t :=
    {| verbose := verbose agent;
       enable_memory := enable_memory agent;
       storage := st;
       sessions := sessions' |} in
  (* Step 1: Retrieve relevant memories *)
  if enable_memory agent && retrieve_memories && (1 <? turn) then
    match MemoryRetriever.retrieve_relevant_memories
            (storage agent) session_id turn message 5 0.3%R retrieval_clock with
    | None => (after (storage agent), None)   (* the exception of the scoring *)
    | Some (st1, relevant_memories) =>
        process_turn_steps agent after session_id message turn retrieve_memories
                           extraction_clock measured st1 relevant_memories
                           (Some (retrieval_time measured))
    end
  else
    process_turn_steps agent after session_id message turn retrieve_memories
                       extraction_clock measured (storage agent) [] None.
End ProcessTurn.

(** The result of [get_session_summary]: the dictionary with the key
    ["error"], or the summary, with the two statistics when the memory
    system is enabled. *)
Inductive Summary : Type :=
| SessionNotFound
| SessionSummary (session_id created last : string) (total_turns : Z)
                 (statistics : option (Stats * option MemoryRetriever.RetrievalStats)).

(** [get_session_summary] *)
Definition get_session_summary (agent : t) (session_id : string) : Summary :=
  match sessions agent !! session_id with
  | None => SessionNotFound
  | Some session_data =>
      SessionSummary session_id (created_at session_data) (last_active session_data)
        (turn_count session_data)
        (if enable_memory agent then
           Some (MemoryStorage.get_memory_stats (storage agent) (Some session_id),
                 MemoryRetriever.get_retrieval_stats (storage agent) session_id)
         else None)
  end.

(** [clear_session] *)
Definition clear_session (agent : t) (session_id : string) : t :=
  {| verbose := verbose agent;
     enable_memory := enable_memory agent;
     storage :=
       if enable_memory agent
       then MemoryStorage.delete_session_memories (storage agent) session_id
       else storage agent;
     sessions := delete session_id (sessions agent) |}.

End ConversationAgent.

(* ===================================================================== *)
(** * Notions used in the statements *)
(* ===================================================================== *)

(** ** Deduplication *)

(** The record at position [i] of [l] is a later duplicate: an earlier
    record of [l] has the same fingerprint. *)
Definition later_duplicate (l : list Memory) (i : nat) : bool :=
  match l !! i with
  | Some m =>
      bool_decide (MemoryExtractor.fingerprint m
                     ∈ MemoryExtractor.fingerprint <$> take i l)
  | None => false
  end.

(** The number [k] of later duplicates among the records of [l]. *)
Definition count_later_duplicates (l : list Memory) : nat :=
  length (List.filter (later_duplicate l) (seq 0 (length l))).

(** The records of [l] that are the first of their fingerprint, in the
    order of [l]. *)
Definition first_occurrences (l : list Memory) : list Memory :=
  omap (fun i => if later_duplicate l i then None else l !! i) (seq 0 (length l)).

(** The state of the loop of [deduplicate_memories] after the records of
    [l]. *)
Definition dedup_state (l : list Memory) : gset string * list Memory :=
  fold_left MemoryExtractor.deduplicate_step l (∅, []).

(** ** The store *)

(** The uniqueness tuple [(session_id, type, key, value, source_turn)] of
    a memory. *)
Definition unique_tuple (m : Memory) : string * string * string * option string * Z :=
  (session_id m, mem_type m, key m, value m, source_turn m).

(** The invariant of table [memories]: ids are positive, distinct and
    not above the AUTOINCREMENT counter. *)
Record store_ok (st : MemoryStorage.t) : Prop := {
  sequence_nonneg : 0 <= MemoryStorage.sqlite_sequence st;
  ids_positive : ∀ r, r ∈ MemoryStorage.memories st → 0 < memory_id r;
  ids_bounded : ∀ r, r ∈ MemoryStorage.memories st → memory_id r <= MemoryStorage.sqlite_sequence st;
  ids_distinct : NoDup (memory_id <$> MemoryStorage.memories st)
}.

(** The uniqueness invariant as the table enforces it: a row with a
    value shares its tuple with no other row. *)
Definition tuples_unique (st : MemoryStorage.t) : Prop :=
  ∀ i j r r',
    MemoryStorage.memories st !! i = Some r →
    MemoryStorage.memories st !! j = Some r' →
    is_Some (value (fields r)) →
    unique_tuple (fields r) = unique_tuple (fields r') →
    i = j.

(** [r'] is [r] up to the two access-tracking columns. *)
Definition same_but_access (r r' : Row) : Prop :=
  memory_id r' = memory_id r
  ∧ session_id (fields r') = session_id (fields r)
  ∧ mem_type (fields r') = mem_type (fields r)
  ∧ content (fields r') = content (fields r)
  ∧ key (fields r') = key (fields r)
  ∧ value (fields r') = value (fields r)
  ∧ confidence (fields r') = confidence (fields r)
  ∧ source_turn (fields r') = source_turn (fields r)
  ∧ created_at (fields r') = created_at (fields r)
  ∧ raw_text (fields r') = raw_text (fields r).

(** [n] successive calls of [update_memory_access] on [id]; the [i]-th
    call reads [clock i]. *)
Fixpoint update_memory_access_n (st : MemoryStorage.t) (clock : nat -> string)
         (id : Z) (n : nat) : MemoryStorage.t :=
  match n with
  | O => st
  | S n' =>
      MemoryStorage.update_memory_access (update_memory_access_n st clock id n') (clock n') id
  end.

(** Example records and stores used to run the definitions. *)
Definition fixed_clock (i : nat) : string := "2024-01-01T00:00:00".

Definition example_memory (session type content key : string) (value : option string)
           (confidence : Q) (turn : Z) : Memory :=
  {| session_id := session;
     mem_type := type;
     content := content;
     key := key;
     value := value;
     confidence := confidence;
     source_turn := turn;
     created_at := fixed_clock O;
     last_accessed := None;
     access_count := 0;
     raw_text := content |}.

(** The commitment extracted from a turn that ends in ["tomorrow "]. *)
Definition commitment_without_value : Memory :=
  example_memory "s1" "commitment" "tomorrow " "scheduled_action" None (4 # 5)%Q 1.

Definition language_preference : Memory :=
  example_memory "s1" "preference" "language is Kannada" "language"
                 (Some "Kannada") 0.95%Q 1.

Definition tea_preference : Memory :=
  example_memory "s2" "preference" "likes tea" "general" (Some "likes tea") (4 # 5)%Q 2.

(** The records of [test_deduplication]. *)
Definition kannada : Memory :=
  example_memory "test" "preference" "language is Kannada" "language"
                 (Some "Kannada") 0.9%Q 1.

Definition john : Memory :=
  example_memory "test" "preference" "call me John" "name" (Some "John") 0.8%Q 1.

Definition store_of (ms : list Memory) : MemoryStorage.t :=
  fst (MemoryStorage.store_memories (MemoryStorage.init false) ms).

(** ** Text search *)

(** [q] is a prefix of [s], and [q] occurs in [s], up to ASCII case. *)
Fixpoint ci_prefix (q s : list ascii) : bool :=
  match q, s with
  | [], _ => true
  | _ :: _, [] => false
  | c :: q', x :: s' => Ascii.eqb (Py.lower_char c) (Py.lower_char x) && ci_prefix q' s'
  end.

Fixpoint ci_infix (q s : list ascii) : bool :=
  ci_prefix q s
  || match s with
     | [] => false
     | _ :: s' => ci_infix q s'
     end.




(** Highest confidence first. *)
Definition confidence_descending (a b : Row) : Prop :=
  (confidence (fields b) <= confidence (fields a))%Q.

(** ** Statistics *)

(** The rows a statistics query is about: those of the session, or all
    rows when no session (or an empty session id) is given. *)
Definition rows_in_scope (st : MemoryStorage.t) (session : option string) : list Row :=
  match session with
  | None => MemoryStorage.memories st
  | Some sid =>
      if decide (sid = "") then MemoryStorage.memories st
      else filter (fun r => session_id (fields r) = sid) (MemoryStorage.memories st)
  end.

(** The sum of the confidences of [rows]. *)
Definition confidence_sum (rows : list Row) : Q :=
  foldr (fun r acc => (confidence (fields r) + acc)%Q) 0%Q rows.

(** [t] is the least, respectively the greatest, source turn of [rows]. *)
Definition least_turn (rows : list Row) (t : Z) : Prop :=
  t ∈ (fun r => source_turn (fields r)) <$> rows
  ∧ ∀ r, r ∈ rows → t <= source_turn (fields r).

Definition greatest_turn (rows : list Row) (t : Z) : Prop :=
  t ∈ (fun r => source_turn (fields r)) <$> rows
  ∧ ∀ r, r ∈ rows → source_turn (fields r) <= t.

(** ** Critical memories *)

(** The row belongs to the session and has the type. *)
Definition of_type (sid t : string) (r : Row) : Prop :=
  session_id (fields r) = sid ∧ mem_type (fields r) = t.

Global Instance of_type_dec sid t r : Decision (of_type sid t r).
Proof. unfold of_type. apply _. Defined.

(** How many rows of the type the session holds. *)
Definition count_of_type (st : MemoryStorage.t) (sid t : string) : nat :=
  length (filter (of_type sid t) (MemoryStorage.memories st)).

(** The invariant [confidence >= 0] of the stored records. *)
Definition confidences_nonneg (st : MemoryStorage.t) : Prop :=
  ∀ r, r ∈ MemoryStorage.memories st → (0 <= confidence (fields r))%Q.

(** Four standing instructions of one session, given at turns 1 to 4. *)
Definition instruction_at (turn : Z) (text : string) : Memory :=
  example_memory "s1" "instruction" text "instruction" (Some text) (4 # 5)%Q turn.

Definition four_instructions : list Memory :=
  [ instruction_at 1 "always reply in Kannada";
    instruction_at 2 "never call before 11 AM";
    instruction_at 3 "always confirm by email";
    instruction_at 4 "never share my number" ].

(** ** Relevance *)


(** Distance in turns between a record and the current turn. *)
Definition turn_distance (r : Row) (current_turn : Z) : Z :=
  Z.abs (current_turn - source_turn (fields r)).

(** The invariant [access_count >= 0] of the stored records. *)
Definition access_counts_nonneg (st : MemoryStorage.t) : Prop :=
  ∀ r, r ∈ MemoryStorage.memories st → 0 <= access_count (fields r).

(** The score of a row whose access count is not negative: the value
    [_calculate_relevance] returns for it. *)
Definition score_of (r : Row) (current_turn : Z) (user_message : string) : R :=
  Rmin 1
    ((MemoryRetriever.recency_weight
        * exp (IZR (- (current_turn - source_turn (fields r))) / 100)
      + MemoryRetriever.confidence_weight * Q2R (confidence (fields r))
      + MemoryRetriever.access_count_weight
        * Rmin 1 (ln (IZR (access_count (fields r) + 1)) / ln 10)
      + MemoryRetriever.semantic_weight
        * Q2R (MemoryRetriever._calculate_semantic_similarity
                 (content (fields r)) user_message))
     * Q2R (default 0.5%Q (MemoryRetriever.type_priorities !! mem_type (fields r))))%R.

(** ** Extraction *)

(** Every match of the pattern sets group [n]. *)
Fixpoint always_sets (n : nat) (r : re.regex) : bool :=
  match r with
  | re.RGroup m r1 => (m =? n)%nat || always_sets n r1
  | re.RCat r1 r2 => always_sets n r1 || always_sets n r2
  | re.RAlt r1 r2 => always_sets n r1 && always_sets n r2
  | _ => false
  end.

(** The pattern can match the empty string. *)
Fixpoint nullable (r : re.regex) : bool :=
  match r with
  | re.REps | re.RBoundary | re.RStar _ => true
  | re.RCat r1 r2 => nullable r1 && nullable r2
  | re.RAlt r1 r2 => nullable r1 || nullable r2
  | re.RGroup _ r1 => nullable r1
  | _ => false
  end.

(** The patterns the extractor matches with [re.IGNORECASE]. *)
Definition ignorecase_patterns : list string :=
  MemoryExtractor.preference_patterns
  ++ MemoryExtractor.constraint_patterns
  ++ MemoryExtractor.commitment_patterns
  ++ MemoryExtractor.instruction_patterns
  ++ MemoryExtractor.fact_patterns.

Definition is_nil {A} (l : list A) : bool :=
  match l with
  | [] => true
  | _ :: _ => false
  end.

(** No pattern of any of the six families matches in [text]. *)
Definition nothing_matches (text : string) : bool :=
  forallb (fun pattern => is_nil (MemoryExtractor.finditer pattern text true))
          ignorecase_patterns
  && is_nil (MemoryExtractor.finditer MemoryExtractor.entity_pattern text false).

(** ** Stores built by the operations *)

(** The storages reached from a fresh database by the writing
    operations of [MemoryStorage].  The inserted records have no negative
    access count or confidence (the extractor writes [0] and at least
    [0.6]). *)
Inductive reachable : MemoryStorage.t → Prop :=
| reachable_init (vector_search : bool) :
    reachable (MemoryStorage.init vector_search)
| reachable_store_memory (st : MemoryStorage.t) (m : Memory) :
    reachable st → 0 <= access_count m → (0 <= confidence m)%Q →
    reachable (fst (MemoryStorage.store_memory st m))
| reachable_update_memory_access (st : MemoryStorage.t) (now : string) (id : Z) :
    reachable st → reachable (MemoryStorage.update_memory_access st now id)
| reachable_delete_session_memories (st : MemoryStorage.t) (session : string) :
    reachable st → reachable (MemoryStorage.delete_session_memories st session).

(** The invariant of the similarity index: one id per indexed text, every
    id issued by the table and listed once, nothing indexed while the
    backend is disabled. *)
Record index_ok (st : MemoryStorage.t) : Prop := {
  index_lockstep :
    length (MemoryStorage.faiss_index st) = length (MemoryStorage.memory_id_map st);
  index_ids_issued :
    ∀ id, id ∈ MemoryStorage.memory_id_map st →
          0 < id <= MemoryStorage.sqlite_sequence st;
  index_ids_distinct : NoDup (MemoryStorage.memory_id_map st);
  index_disabled :
    MemoryStorage.vector_search_enabled st = false → MemoryStorage.memory_id_map st = []
}.

(** The uniqueness invariant, by row id: a row with a value shares its
    tuple only with itself. *)
Definition tuples_unique_by_id (st : MemoryStorage.t) : Prop :=
  ∀ r r', r ∈ MemoryStorage.memories st → r' ∈ MemoryStorage.memories st →
          is_Some (value (fields r)) →
          unique_tuple (fields r) = unique_tuple (fields r') →
          memory_id r = memory_id r'.

(** The [memory_type] argument of [get_session_memories] lets the row
    through: no type, the empty string, or the type of the row. *)
Definition type_selected (memory_type : option string) (r : Row) : Prop :=
  memory_type = None ∨ memory_type = Some "" ∨ memory_type = Some (mem_type (fields r)).

(** In order of source turn. *)
Definition turn_ascending (a b : Row) : Prop :=
  source_turn (fields a) <= source_turn (fields b).

(** The rows of a session. *)
Definition session_rows (st : MemoryStorage.t) (sid : string) : list Row :=
  filter (fun r => session_id (fields r) = sid) (MemoryStorage.memories st).

(** The session argument of the similarity search lets the row through:
    the test is [session_id is None], so an empty string is a session
    id like any other. *)
Definition session_selected (session : option string) (r : Row) : Prop :=
  match session with
  | None => True
  | Some sid => session_id (fields r) = sid
  end.

(** A store with a preference and a constraint in session [s1] and a
    preference in session [s2], the similarity backend being enabled. *)
Definition time_constraint : Memory :=
  example_memory "s1" "constraint" "after 11 AM" "time_constraint"
                 (Some "11 AM") (4 # 5)%Q 3.

Definition indexed_store : MemoryStorage.t :=
  fst (MemoryStorage.store_memories (MemoryStorage.init true)
         [language_preference; tea_preference; time_constraint]).

(** An index search that answers with the given positions. *)
Definition fixed_hits (hits : list Z) (index : list string) (query : string) (k : Z)
  : list Z := hits.

(** Two sessions with one preference each, the similarity backend being
    enabled. *)
Definition two_sessions : MemoryStorage.t :=
  fst (MemoryStorage.store_memory
         (fst (MemoryStorage.store_memory (MemoryStorage.init true) language_preference))
         tea_preference).

(** ** Ranking *)

(** The words of a text that count for the similarity: lower-cased,
    split at whitespace, without the stopwords. *)
Definition content_words (text : string) : gset string :=
  list_to_set (Py.split (Py.lower text)) ∖ MemoryRetriever.stopwords.




(** A row with its score at a turn, for a message: the entry the scoring
    loop builds for it. *)
Definition scored_at (current_turn : Z) (user_message : string) (r : Row) : ScoredMemory :=
  {| scored_row := r; relevance_score := score_of r current_turn user_message |}.

(** The order of [retrieve_by_type]: higher confidence first, and among
    equal confidences the earlier source turn first. *)
Definition by_type_order (a b : Row) : Prop :=
  (confidence (fields b) < confidence (fields a))%Q
  ∨ ((confidence (fields a) == confidence (fields b))%Q
     ∧ source_turn (fields a) <= source_turn (fields b)).

(** The candidates of a call of [retrieve_relevant_memories]: the rows
    of the session that reach the threshold, scored, highest score
    first. *)
Definition candidates (st : MemoryStorage.t) (sid : string) (current_turn : Z)
           (user_message : string) (min_relevance : R) : list ScoredMemory :=
  stable_sort (fun a b => MemoryRetriever.Rleb (relevance_score b) (relevance_score a))
    (scored_at current_turn user_message
       <$> List.filter
             (fun r => MemoryRetriever.Rleb min_relevance
                         (score_of r current_turn user_message))
             (MemoryStorage.get_session_memories st sid None 0)).

(** ** Statistics of a session and the prompt *)

(** The sum of the access counts of [rows]. *)
Definition access_sum (rows : list Row) : Z :=
  foldr (fun r acc => access_count (fields r) + acc) 0 rows.

(** How many of [rows] have the type. *)
Definition count_type (ty : string) (rows : list Row) : nat :=
  length (List.filter (fun r => String.eqb (mem_type (fields r)) ty) rows).

(** [best] is the first row of [rows] with the greatest access count. *)
Definition first_most_accessed (rows : list Row) (best : Row) : Prop :=
  ∃ i, rows !! i = Some best
       ∧ (∀ r, r ∈ rows → access_count (fields r) <= access_count (fields best))
       ∧ (∀ j r, (j < i)%nat → rows !! j = Some r →
                 access_count (fields r) < access_count (fields best)).

(** The types of [memories], each once, in the order of their first
    appearance. *)
Definition types_in_order (memories : list Row) : list string :=
  fold_left (fun seen m =>
               if bool_decide (mem_type (fields m) ∈ seen) then seen
               else seen ++ [mem_type (fields m)])
            memories [].

(** The heading of a type and the line of a memory in the prompt. *)
Definition type_heading (memory_type : string) : string :=
  Py.nl +:+ "### " +:+ Py.title memory_type +:+ "s:".

Definition memory_line (format_2f : Q -> string) (include_metadata : bool) (mem : Row)
  : string :=
  if include_metadata then
    "- " +:+ content (fields mem) +:+ " (from turn "
    +:+ Py.str_int (source_turn (fields mem))
    +:+ ", confidence: " +:+ format_2f (confidence (fields mem)) +:+ ")"
  else "- " +:+ content (fields mem).

(** A formatter for the examples (two digits of a confidence below 1,
    truncated). *)
Definition example_format_2f (q : Q) : string :=
  "0." +:+ Py.str_int ((Qnum q * 100) / Z.pos (Qden q)).

(** ** Extracted records *)

(** The keys a record of each type can carry. *)
Definition key_vocabulary : list (string * list string) :=
  [ ("preference", ["language"; "preference"; "favorite"; "name"; "general"]);
    ("constraint", ["time_constraint"; "availability"; "general_constraint"]);
    ("commitment", ["scheduled_action"]);
    ("instruction", ["instruction"]);
    ("entity", ["entity_name"]);
    ("fact", ["fact"]) ].

(** [piece] occurs in [text] as a contiguous run of characters. *)
Definition substring (piece text : string) : Prop :=
  ∃ before after : string, text = before +:+ piece +:+ after.

(** The same on lists of characters. *)
Definition infix_of (piece text : list ascii) : Prop :=
  ∃ before after : list ascii, text = before ++ piece ++ after.

(** The body of every capturing group of the pattern is not nullable:
    a group that is set holds at least one character. *)
Fixpoint groups_not_nullable (r : re.regex) : bool :=
  match r with
  | re.RGroup _ r1 => negb (nullable r1) && groups_not_nullable r1
  | re.RCat r1 r2 | re.RAlt r1 r2 => groups_not_nullable r1 && groups_not_nullable r2
  | re.RStar r1 => groups_not_nullable r1
  | _ => true
  end.

(** Every group that is set holds a non-empty piece of [text]. *)
Definition pieces_of (text : list ascii) (caps : gmap nat string) : Prop :=
  ∀ i v, caps !! i = Some v →
         v ≠ "" ∧ infix_of (list_ascii_of_string v) text.

(** The candidates of the six families, in the order in which
    [extract_memories] collects them. *)
Definition all_candidates (text : string) (turn_number : Z) : list Candidate :=
  MemoryExtractor._extract_preferences text turn_number
  ++ MemoryExtractor._extract_constraints text turn_number
  ++ MemoryExtractor._extract_commitments text turn_number
  ++ MemoryExtractor._extract_instructions text turn_number
  ++ MemoryExtractor._extract_entities text turn_number
  ++ MemoryExtractor._extract_facts text turn_number.

(** The two steps between extraction and storage in [process_turn]. *)
Definition surviving (memories : list Memory) (min_confidence : Q) : list Memory :=
  MemoryExtractor.deduplicate_memories
    (MemoryExtractor.filter_memories memories min_confidence).

(** The first record extracted from the message of
    [test_extract_preference]. *)
Definition kannada_turn : Memory :=
  example_memory "test" "preference" "My preferred language is Kannada" "language"
                 (Some "Kannada") (9 # 10)%Q 1.

(** ** The agent *)

(** The turn count the agent holds for a session (0 for a session it does
    not know), and the number under which a call processes its turn: the
    one given, or the next one. *)
Definition turn_count_of (agent : ConversationAgent.t) (sid : string) : Z :=
  match ConversationAgent.sessions agent !! sid with
  | Some s => ConversationAgent.turn_count s
  | None => 0
  end.

Definition effective_turn (agent : ConversationAgent.t) (sid : string) (turn : option Z)
  : Z :=
  match turn with
  | Some n => n
  | None => turn_count_of agent sid + 1
  end.

(** The entry of [extracted_memories] for a record. *)
Definition report (m : Memory) : ConversationAgent.ExtractedMemory :=
  {| ConversationAgent.extracted_content := content m;
     ConversationAgent.extracted_type := mem_type m;
     ConversationAgent.extracted_confidence := confidence m |}.


(** An agent with the memory system enabled, on a fresh database, and
    the stopwatch of the examples. *)
Definition new_agent : ConversationAgent.t :=
  ConversationAgent.init true false (MemoryStorage.init false).

Definition example_durations : ConversationAgent.Durations :=
  {| ConversationAgent.total_time := 1.5%Q;
     ConversationAgent.retrieval_time := 0.5%Q;
     ConversationAgent.response_time := 0.25%Q;
     ConversationAgent.extraction_time := 0.75%Q |}.

(** The first turn of a session, processed without retrieval, and a
    second call under the same turn number. *)
Definition first_turn : ConversationAgent.t * option ConversationAgent.Response :=
  ConversationAgent.process_turn
    example_format_2f new_agent "s1" "My preferred language is Kannada" (Some 1) false
    fixed_clock fixed_clock fixed_clock example_durations.

Definition repeated_turn : ConversationAgent.t * option ConversationAgent.Response :=
  ConversationAgent.process_turn
    example_format_2f (fst first_turn) "s1" "Kannada and Tamil" (Some 1) false
    fixed_clock fixed_clock fixed_clock example_durations.

(** The contents of the rows of the table from position [n] on, and the
    contents of the records a response reports. *)
Definition contents_from (n : nat) (agent : ConversationAgent.t) : list string :=
  (fun r => content (fields r))
    <$> drop n (MemoryStorage.memories (ConversationAgent.storage agent)).

Definition reported_contents (response : option ConversationAgent.Response)
  : option (list string) :=
  (fun r => ConversationAgent.extracted_content
              <$> ConversationAgent.extracted_memories r) <$> response.



(* ===================================================================== *)
(** * Properties of the extractor's post-processing *)
(* ===================================================================== *)

Lemma omap_ext_in {A B} (f g : A → option B) (l : list A) :
  (∀ x, x ∈ l → f x = g x) → omap f l = omap g l.
Proof.
  intros H. apply list_omap_ext, Forall2_same_length_lookup. split; [done|].
  intros i x y Hx Hy. rewrite Hx in Hy. injection Hy as <-.
  apply H. by eapply list_elem_of_lookup_2.
Qed.

Section Deduplicate.
Import MemoryExtractor.

Lemma dedup_state_snoc l m :
  dedup_state (l ++ [m]) = deduplicate_step (dedup_state l) m.
Proof. unfold dedup_state. by rewrite fold_left_app. Qed.

Lemma deduplicate_memories_nil : deduplicate_memories [] = [].
Proof. reflexivity. Qed.

(** The [seen] set holds the fingerprints of the records read so far,
    which are also those of the records kept so far. *)
Lemma dedup_seen l :
  ∀ fp, fp ∈ fst (dedup_state l) ↔ fp ∈ fingerprint <$> l.
Proof.
  induction l as [|m l IH] using rev_ind; intros fp.
  - cbn. set_solver.
  - rewrite dedup_state_snoc. unfold deduplicate_step.
    destruct (dedup_state l) as [seen acc] eqn:E. cbn [fst] in IH.
    rewrite fmap_app, elem_of_app. cbn [fmap list_fmap].
    case_bool_decide as Hin; cbn [fst].
    + rewrite IH. split; [auto|]. intros [?|Hx]; [done|].
      apply list_elem_of_singleton in Hx as ->. by apply IH.
    + rewrite elem_of_union, elem_of_singleton, IH, list_elem_of_singleton. tauto.
Qed.

Lemma deduplicate_memories_snoc l m :
  deduplicate_memories (l ++ [m]) =
    if bool_decide (fingerprint m ∈ fingerprint <$> l)
    then deduplicate_memories l
    else deduplicate_memories l ++ [m].
Proof.
  unfold deduplicate_memories. fold (dedup_state (l ++ [m])). fold (dedup_state l).
  rewrite dedup_state_snoc. unfold deduplicate_step.
  pose proof (dedup_seen l (fingerprint m)) as Hseen.
  destruct (dedup_state l) as [seen acc]. cbn [fst snd] in *.
  repeat case_bool_decide; cbn [snd]; tauto.
Qed.

Lemma dedup_fingerprints l :
  ∀ fp, fp ∈ fingerprint <$> deduplicate_memories l ↔ fp ∈ fingerprint <$> l.
Proof.
  induction l as [|m l IH] using rev_ind; intros fp; [done|].
  rewrite deduplicate_memories_snoc, fmap_app, elem_of_app. cbn [fmap list_fmap].
  rewrite list_elem_of_singleton.
  case_bool_decide as Hin.
  - rewrite IH. split; [auto|]. intros [?| ->]; done.
  - rewrite fmap_app, elem_of_app, IH. cbn [fmap list_fmap].
    by rewrite list_elem_of_singleton.
Qed.

Lemma dedup_sublist l : sublist (deduplicate_memories l) l.
Proof.
  induction l as [|m l IH] using rev_ind; [done|].
  rewrite deduplicate_memories_snoc. case_bool_decide.
  - by apply sublist_inserts_r.
  - by apply sublist_app.
Qed.

Lemma dedup_NoDup l : NoDup (fingerprint <$> deduplicate_memories l).
Proof.
  induction l as [|m l IH] using rev_ind; [constructor|].
  rewrite deduplicate_memories_snoc. case_bool_decide as Hin; [done|].
  rewrite fmap_app. apply NoDup_app. split; [done|]. split.
  - intros fp Hfp Hm. cbn in Hm. apply list_elem_of_singleton in Hm as ->.
    apply Hin. by apply dedup_fingerprints.
  - cbn. apply NoDup_singleton.
Qed.

Lemma later_duplicate_snoc_lt l m i :
  (i < length l)%nat → later_duplicate (l ++ [m]) i = later_duplicate l i.
Proof.
  intros Hi. unfold later_duplicate.
  rewrite lookup_app_l by done. rewrite take_app_le by lia. done.
Qed.

Lemma later_duplicate_snoc_last l m :
  later_duplicate (l ++ [m]) (length l) =
    bool_decide (fingerprint m ∈ fingerprint <$> l).
Proof.
  unfold later_duplicate.
  rewrite lookup_app_r by lia. rewrite Nat.sub_diag. cbn.
  rewrite take_app_le by lia. by rewrite firstn_all.
Qed.

Lemma first_occurrences_snoc l m :
  first_occurrences (l ++ [m]) =
    first_occurrences l ++
      (if bool_decide (fingerprint m ∈ fingerprint <$> l) then [] else [m]).
Proof.
  unfold first_occurrences.
  rewrite length_app. cbn [length]. rewrite seq_app, omap_app. f_equal.
  - apply omap_ext_in. intros i Hi.
    apply list_elem_of_In, in_seq in Hi.
    rewrite later_duplicate_snoc_lt by lia.
    destruct (later_duplicate l i); [done|]. apply lookup_app_l. lia.
  - cbn. rewrite later_duplicate_snoc_last.
    case_bool_decide; [done|].
    rewrite lookup_app_r by lia. by rewrite Nat.sub_diag.
Qed.

Lemma dedup_first_occurrences l : deduplicate_memories l = first_occurrences l.
Proof.
  induction l as [|m l IH] using rev_ind; [done|].
  rewrite deduplicate_memories_snoc, first_occurrences_snoc, IH.
  case_bool_decide; [by rewrite app_nil_r|done].
Qed.

Lemma count_later_duplicates_snoc l m :
  count_later_duplicates (l ++ [m]) =
    (count_later_duplicates l
     + if bool_decide (fingerprint m ∈ fingerprint <$> l) then 1 else 0)%nat.
Proof.
  unfold count_later_duplicates.
  rewrite length_app. cbn [length]. rewrite seq_app, List.filter_app, length_app.
  f_equal.
  - f_equal. apply List.filter_ext_in. intros i Hi. apply in_seq in Hi.
    apply later_duplicate_snoc_lt. lia.
  - cbn. rewrite later_duplicate_snoc_last. by case_bool_decide.
Qed.

Lemma dedup_length l :
  (length (deduplicate_memories l) + count_later_duplicates l = length l)%nat.
Proof.
  induction l as [|m l IH] using rev_ind; [done|].
  rewrite deduplicate_memories_snoc, count_later_duplicates_snoc.
  case_bool_decide; rewrite !length_app; cbn [length]; lia.
Qed.

(** Nothing is dropped from a list whose fingerprints are distinct. *)
Lemma dedup_NoDup_id l :
  NoDup (fingerprint <$> l) → deduplicate_memories l = l.
Proof.
  induction l as [|m l IH] using rev_ind; [done|].
  rewrite fmap_app. intros [Hl [Hm _]]%NoDup_app.
  rewrite deduplicate_memories_snoc, IH by done.
  case_bool_decide as Hin; [|done].
  exfalso. apply (Hm _ Hin). cbn. left.
Qed.

(** C7. [deduplicate_memories] keeps exactly the first record of every
    fingerprint [type:key:value], in input order, and drops the later
    records whose fingerprint was already seen; of [n] records with [k]
    later duplicates it returns [n - k]; a second application changes
    nothing. *)
Theorem C7_deduplicate_keeps_first_occurrences (l : list Memory) :
  deduplicate_memories l = first_occurrences l
  ∧ sublist (deduplicate_memories l) l
  ∧ NoDup (fingerprint <$> deduplicate_memories l)
  ∧ (∀ m, m ∈ l → fingerprint m ∈ fingerprint <$> deduplicate_memories l)
  ∧ length (deduplicate_memories l) = (length l - count_later_duplicates l)%nat
  ∧ deduplicate_memories (deduplicate_memories l) = deduplicate_memories l.
Proof.
  split; [apply dedup_first_occurrences|].
  split; [apply dedup_sublist|].
  split; [apply dedup_NoDup|].
  split.
  - intros m Hm. apply dedup_fingerprints. by apply list_elem_of_fmap_2.
  - split.
    + pose proof (dedup_length l). lia.
    + apply dedup_NoDup_id, dedup_NoDup.
Qed.

End Deduplicate.

(* ===================================================================== *)
(** * Properties of the store *)
(* ===================================================================== *)

Section StorageFacts.
Import MemoryStorage.

Lemma with_memories_same st : with_memories st (memories st) = st.
Proof. by destruct st. Qed.

(** ** Access tracking *)

Lemma touch_other now id r : memory_id r ≠ id → touch now id r = r.
Proof. unfold touch. intros H. by rewrite (proj2 (Z.eqb_neq _ _) H). Qed.

Lemma touch_same now id r :
  memory_id r = id →
  same_but_access r (touch now id r)
  ∧ last_accessed (fields (touch now id r)) = Some now
  ∧ access_count (fields (touch now id r)) = access_count (fields r) + 1.
Proof.
  unfold touch, same_but_access. intros H.
  rewrite (proj2 (Z.eqb_eq _ _) H). cbn. tauto.
Qed.

Lemma touch_id now id r : memory_id (touch now id r) = memory_id r.
Proof. unfold touch. by destruct (memory_id r =? id). Qed.

Lemma update_memory_access_lookup st now id i :
  memories (update_memory_access st now id) !! i = touch now id <$> memories st !! i.
Proof. unfold update_memory_access. cbn. apply list_lookup_fmap. Qed.

Lemma update_memory_access_absent st now id :
  (∀ r, r ∈ memories st → memory_id r ≠ id) → update_memory_access st now id = st.
Proof.
  intros H. unfold update_memory_access.
  transitivity (with_memories st (memories st)); [|apply with_memories_same].
  f_equal. transitivity (map (fun r => r) (memories st)); [|apply map_id].
  apply map_ext_in. intros r Hr. apply touch_other, H. by apply list_elem_of_In.
Qed.

Lemma update_memory_access_n_row st clock id n i r :
  memories st !! i = Some r → memory_id r = id →
  ∃ r', memories (update_memory_access_n st clock id n) !! i = Some r'
        ∧ memory_id r' = id
        ∧ access_count (fields r') = access_count (fields r) + Z.of_nat n
        ∧ ((0 < n)%nat → last_accessed (fields r') = Some (clock (Nat.pred n))).
Proof.
  intros Hi Hid. induction n as [|n (r' & Hr' & Hid' & Hcount & _)].
  - exists r. cbn. repeat split; [done|done|lia|lia].
  - exists (touch (clock n) id r'). cbn [update_memory_access_n].
    rewrite update_memory_access_lookup, Hr'.
    destruct (touch_same (clock n) id r' Hid') as (Hsame & Hlast & Hacc).
    repeat split; [by rewrite touch_id| lia | done].
Qed.

(** C6. [update_memory_access] on an existing id sets [last_accessed]
    to the clock reading and adds exactly one to [access_count]; the
    other columns of the row, the other rows and the rest of the storage
    stay as they are.  [n] calls on a row whose count starts at zero
    leave the count at [n] with [last_accessed] set.  On an id that is
    not in the table the call returns and changes nothing. *)
Theorem C6_update_memory_access_frame (st : MemoryStorage.t) (now : string) (id : Z) :
  let st' := update_memory_access st now id in
  (sqlite_sequence st' = sqlite_sequence st
   ∧ vector_search_enabled st' = vector_search_enabled st
   ∧ faiss_index st' = faiss_index st
   ∧ memory_id_map st' = memory_id_map st
   ∧ length (memories st') = length (memories st))
  ∧ (∀ i r, memories st !! i = Some r →
       ∃ r', memories st' !! i = Some r'
             ∧ (memory_id r = id →
                  same_but_access r r'
                  ∧ last_accessed (fields r') = Some now
                  ∧ access_count (fields r') = access_count (fields r) + 1)
             ∧ (memory_id r ≠ id → r' = r))
  ∧ (∀ clock n i r,
       memories st !! i = Some r → memory_id r = id → access_count (fields r) = 0 →
       ∃ r', memories (update_memory_access_n st clock id n) !! i = Some r'
             ∧ access_count (fields r') = Z.of_nat n
             ∧ ((0 < n)%nat → is_Some (last_accessed (fields r'))))
  ∧ ((∀ r, r ∈ memories st → memory_id r ≠ id) → st' = st).
Proof.
  cbn zeta. split; [|split; [|split]].
  - unfold update_memory_access. cbn. by rewrite length_map.
  - intros i r Hi. exists (touch now id r).
    rewrite update_memory_access_lookup, Hi. split; [done|]. split.
    + apply touch_same.
    + apply touch_other.
  - intros clock n i r Hi Hid Hzero.
    destruct (update_memory_access_n_row st clock id n i r Hi Hid)
      as (r' & Hr' & _ & Hcount & Hlast).
    exists r'. split; [done|]. split; [lia|].
    intros Hn. rewrite (Hlast Hn). by eexists.
  - apply update_memory_access_absent.
Qed.

(** The test [test_update_access] of the repository, on the model. *)
Lemma C6_update_memory_access_witness :
  let st := store_of [language_preference] in
  ∃ r', memories (update_memory_access_n st (fun _ => "2024-01-02T00:00:00") 1 3) !! O
          = Some r'
        ∧ access_count (fields r') = 3
        ∧ is_Some (last_accessed (fields r')).
Proof.
  cbn zeta.
  destruct (C6_update_memory_access_frame
              (store_of [language_preference]) "2024-01-02T00:00:00" 1)
    as (_ & _ & Hn & _).
  destruct (Hn (fun _ => "2024-01-02T00:00:00") 3%nat O
               {| memory_id := 1; fields := language_preference |}
               eq_refl eq_refl eq_refl) as (r' & Hr' & Hcount & Hlast).
  exists r'. split; [exact Hr'|]. split; [exact Hcount|]. apply Hlast. lia.
Defined.

(** ** Insertion *)

Lemma unique_conflict_spec m r :
  unique_conflict m r = true ↔
  unique_tuple (fields r) = unique_tuple m ∧ is_Some (value m).
Proof.
  unfold unique_conflict, unique_tuple.
  destruct (value (fields r)) as [v|], (value m) as [v'|];
    rewrite !andb_true_iff, ?String.eqb_eq, Z.eqb_eq; split.
  - intros ((((H1 & H2) & H3) & H4) & H5). rewrite H1, H2, H3, H4, H5. eauto.
  - intros [Heq _]. injection Heq as H1 H2 H3 H4 H5. by rewrite H1, H2, H3, H4, H5.
  - intros [[_ ?] _]. discriminate.
  - intros [_ [? ?]]. discriminate.
  - intros [[_ ?] _]. discriminate.
  - intros [Heq _]. discriminate.
  - intros [[_ ?] _]. discriminate.
  - intros [_ [? ?]]. discriminate.
Qed.

Lemma existsb_unique_conflict st m :
  existsb (unique_conflict m) (memories st) = true ↔
  is_Some (value m)
  ∧ ∃ r, r ∈ memories st ∧ unique_tuple (fields r) = unique_tuple m.
Proof.
  rewrite existsb_exists. split.
  - intros (r & Hr & [Ht Hv]%unique_conflict_spec).
    split; [done|]. exists r. by rewrite list_elem_of_In.
  - intros (Hv & r & Hr & Ht). exists r. rewrite <- list_elem_of_In.
    split; [done|]. by apply unique_conflict_spec.
Qed.

(** The storage after a successful insertion of [m] under [id]. *)
Lemma store_memory_cases st m :
  (store_memory st m = (st, -1)
   ∧ is_Some (value m)
   ∧ ∃ r, r ∈ memories st ∧ unique_tuple (fields r) = unique_tuple m)
  ∨ (∃ st', store_memory st m = (st', sqlite_sequence st + 1)
            ∧ memories st' =
                memories st ++ [ {| memory_id := sqlite_sequence st + 1; fields := m |} ]
            ∧ sqlite_sequence st' = sqlite_sequence st + 1
            ∧ ¬ (is_Some (value m)
                 ∧ ∃ r, r ∈ memories st ∧ unique_tuple (fields r) = unique_tuple m)).
Proof.
  unfold store_memory.
  destruct (existsb (unique_conflict m) (memories st)) eqn:E.
  - left. apply existsb_unique_conflict in E. tauto.
  - right. eexists. split; [reflexivity|].
    unfold _add_to_vector_index. cbn.
    destruct (vector_search_enabled st); cbn; (split; [done|split; [done|]]);
      rewrite <- existsb_unique_conflict, E; discriminate.
Qed.

(** Insertion of a record with a present value: a duplicate of a stored
    tuple is answered with [-1] and changes nothing; any other record
    gets the next id, which no row carries, and is appended. *)
Lemma store_memory_present_value st m :
  store_ok st → is_Some (value m) →
  ((∃ r, r ∈ memories st ∧ unique_tuple (fields r) = unique_tuple m) →
     store_memory st m = (st, -1))
  ∧ ((∀ r, r ∈ memories st → unique_tuple (fields r) ≠ unique_tuple m) →
       ∃ st' id, store_memory st m = (st', id)
                 ∧ 0 < id ∧ id ≠ -1
                 ∧ (∀ r, r ∈ memories st → memory_id r < id)
                 ∧ memories st' = memories st ++ [ {| memory_id := id; fields := m |} ]).
Proof.
  intros Hok Hv. destruct (store_memory_cases st m)
    as [(Hs & _ & Hdup)|(st' & Hs & Hrows & Hseq & Hnodup)]; split.
  - done.
  - intros Hnone. destruct Hdup as (r & Hr & Ht). by destruct (Hnone r Hr).
  - intros Hdup. by destruct Hnodup.
  - intros _. exists st', (sqlite_sequence st + 1).
    pose proof (sequence_nonneg st Hok).
    split; [done|]. split; [lia|]. split; [lia|]. split; [|done].
    intros r Hr. pose proof (ids_bounded st Hok r Hr). lia.
Qed.

Lemma init_tuples_unique vector_search : tuples_unique (init vector_search).
Proof. intros i j r r' Hi. cbn in Hi. by rewrite lookup_nil in Hi. Qed.

(** Insertion keeps the tuples of the rows with a value distinct: after
    a duplicate insert the tuple is still held by exactly one row. *)
Lemma store_memory_tuples_unique st m :
  tuples_unique st → tuples_unique (fst (store_memory st m)).
Proof.
  intros Huniq. destruct (store_memory_cases st m)
    as [(Hs & _)|(st' & Hs & Hrows & _ & Hfresh)]; rewrite Hs; cbn [fst]; [done|].
  intros i j r r' Hi Hj Hv Ht. rewrite Hrows in Hi, Hj.
  apply lookup_app_Some in Hi as [Hi|[Hil Hi]];
    apply lookup_app_Some in Hj as [Hj|[Hjl Hj]].
  - by apply (Huniq i j r r').
  - apply list_lookup_singleton_Some in Hj as [_ <-]. cbn in Ht.
    destruct Hfresh. split.
    + unfold unique_tuple in Ht. injection Ht as _ _ _ <- _. done.
    + exists r. split; [by eapply list_elem_of_lookup_2|done].
  - apply list_lookup_singleton_Some in Hi as [_ <-]. cbn in Ht, Hv.
    destruct Hfresh. split; [done|].
    exists r'. split; [by eapply list_elem_of_lookup_2|done].
  - apply list_lookup_singleton_Some in Hi as [Hi _].
    apply list_lookup_singleton_Some in Hj as [Hj _]. lia.
Qed.

(** The invariant holds initially and is kept by every operation. *)
Lemma init_ok vector_search : store_ok (init vector_search).
Proof.
  split; cbn; [lia| | |constructor]; intros r Hr; by apply elem_of_nil in Hr.
Qed.

Lemma store_memory_ok st m : store_ok st → store_ok (fst (store_memory st m)).
Proof.
  intros Hok. destruct (store_memory_cases st m)
    as [(Hs & _)|(st' & Hs & Hrows & Hseq & _)]; rewrite Hs; cbn [fst]; [done|].
  pose proof (sequence_nonneg st Hok).
  split; rewrite ?Hrows, ?Hseq.
  - lia.
  - intros r [Hr| ->%list_elem_of_singleton]%elem_of_app; cbn; [|lia].
    by apply (ids_positive st Hok).
  - intros r [Hr| ->%list_elem_of_singleton]%elem_of_app; cbn; [|lia].
    pose proof (ids_bounded st Hok r Hr). lia.
  - rewrite fmap_app. apply NoDup_app. split; [apply (ids_distinct st Hok)|].
    split; [|apply NoDup_singleton].
    intros id (r & -> & Hr)%list_elem_of_fmap Hid. cbn in Hid.
    apply list_elem_of_singleton in Hid.
    pose proof (ids_bounded st Hok r Hr). lia.
Qed.

Lemma store_memories_ok st ms : store_ok st → store_ok (fst (store_memories st ms)).
Proof.
  revert st. induction ms as [|m ms IH]; intros st Hok; [done|].
  cbn. pose proof (store_memory_ok st m Hok) as Hok1.
  destruct (store_memory st m) as [st1 id]. cbn [fst] in Hok1.
  specialize (IH st1 Hok1). by destruct (store_memories st1 ms) as [st2 ids].
Qed.

Lemma update_memory_access_ok st now id :
  store_ok st → store_ok (update_memory_access st now id).
Proof.
  intros Hok.
  assert (memory_id <$> memories (update_memory_access st now id)
          = memory_id <$> memories st) as Hids.
  { cbn. rewrite <- list_fmap_compose. apply list_fmap_ext.
    intros i r _. apply touch_id. }
  split; cbn [update_memory_access with_memories sqlite_sequence].
  - apply (sequence_nonneg st Hok).
  - intros r (r0 & -> & Hr0)%list_elem_of_fmap. rewrite touch_id.
    by apply (ids_positive st Hok).
  - intros r (r0 & -> & Hr0)%list_elem_of_fmap. rewrite touch_id.
    by apply (ids_bounded st Hok).
  - rewrite Hids. apply (ids_distinct st Hok).
Qed.

Lemma delete_session_memories_ok st session :
  store_ok st → store_ok (delete_session_memories st session).
Proof.
  intros Hok. split; cbn.
  - apply (sequence_nonneg st Hok).
  - intros r [Hr _]%list_elem_of_In%filter_In. apply (ids_positive st Hok).
    by apply list_elem_of_In.
  - intros r [Hr _]%list_elem_of_In%filter_In. apply (ids_bounded st Hok).
    by apply list_elem_of_In.
  - eapply sublist_NoDup; [apply (ids_distinct st Hok)|].
    apply fmap_sublist. clear. induction (memories st) as [|r rows IH]; [done|].
    cbn. destruct (negb _); by constructor.
Qed.

(** C1 (the code at the failing input).  The commitment extracted from a
    turn ending in ["tomorrow "] has no value.  Stored once, its tuple
    is in the table; stored again, it is not answered with [-1]: it gets
    a second id and a second row with the same tuple.  So a turn that
    is processed twice is stored twice.  A record with a value, stored
    again, is answered with [-1]. *)
Theorem C1_duplicate_without_value_is_stored_twice :
  let m := commitment_without_value in
  let st1 := fst (store_memory (init false) m) in
  let st2 := fst (store_memory st1 m) in
  let turn :=
    MemoryExtractor.deduplicate_memories
      (MemoryExtractor.filter_memories
         (MemoryExtractor.extract_memories "tomorrow " "Sure" 1 "s1" fixed_clock) 0.6) in
  snd (store_memory (init false) m) = 1
  ∧ memories st1 = [ {| memory_id := 1; fields := m |} ]
  ∧ snd (store_memory st1 m) = 2
  ∧ memories st2 = [ {| memory_id := 1; fields := m |};
                     {| memory_id := 2; fields := m |} ]
  ∧ unique_tuple (fields {| memory_id := 1; fields := m |})
    = unique_tuple (fields {| memory_id := 2; fields := m |})
  ∧ snd (store_memories (init false) turn) = [1]
  ∧ snd (store_memories (fst (store_memories (init false) turn)) turn) = [2]
  ∧ store_memory (store_of [language_preference]) language_preference
    = (store_of [language_preference], -1).
Proof. cbn zeta. by vm_compute. Qed.

End StorageFacts.

(* ===================================================================== *)
(** * Properties of the stable sort *)
(* ===================================================================== *)

Section StableSortFacts.
Context {A : Type} (le : A -> A -> bool).

Lemma insert_sorted_perm x l : insert_sorted le x l ≡ₚ x :: l.
Proof.
  induction l as [|y l IH]; cbn; [done|].
  destruct (le x y); [done|]. rewrite IH. apply Permutation_swap.
Qed.

Lemma stable_sort_perm l : stable_sort le l ≡ₚ l.
Proof.
  induction l as [|x l IH]; cbn; [done|].
  rewrite insert_sorted_perm. by constructor.
Qed.

Lemma stable_sort_length l : length (stable_sort le l) = length l.
Proof. apply Permutation_length, stable_sort_perm. Qed.

Lemma stable_sort_elem x l : x ∈ stable_sort le l ↔ x ∈ l.
Proof. by rewrite stable_sort_perm. Qed.

Lemma stable_sort_nil_inv l : stable_sort le l = [] → l = [].
Proof.
  intros H. apply Permutation_nil. by rewrite <- H, stable_sort_perm.
Qed.

Hypothesis le_total : ∀ x y, le x y = true ∨ le y x = true.
Hypothesis le_trans : ∀ x y z, le x y = true → le y z = true → le x z = true.

Lemma insert_sorted_sorted x l :
  StronglySorted (fun a b => le a b = true) l →
  StronglySorted (fun a b => le a b = true) (insert_sorted le x l).
Proof.
  induction 1 as [|y l Hl IH Hy]; cbn.
  - repeat constructor.
  - destruct (le x y) eqn:E.
    + constructor; [by constructor|]. constructor; [done|].
      eapply Forall_impl; [exact Hy|]. intros z Hz. by eapply le_trans.
    + constructor; [done|].
      eapply Permutation_Forall; [symmetry; apply insert_sorted_perm|].
      constructor; [|done]. destruct (le_total x y); congruence.
Qed.

Lemma stable_sort_sorted l :
  StronglySorted (fun a b => le a b = true) (stable_sort le l).
Proof.
  induction l as [|x l IH]; cbn; [constructor|]. by apply insert_sorted_sorted.
Qed.
End StableSortFacts.

Lemma StronglySorted_take {A} (R : A → A → Prop) (n : nat) (l : list A) :
  StronglySorted R l → StronglySorted R (take n l).
Proof.
  intros H. rewrite <- (take_drop n l) in H. by apply StronglySorted_app_1_l in H.
Qed.

Lemma StronglySorted_weaken {A} (R R' : A → A → Prop) (l : list A) :
  (∀ a b, R a b → R' a b) → StronglySorted R l → StronglySorted R' l.
Proof.
  intros HR. induction 1 as [|x l Hl IH Hx]; constructor; [done|].
  eapply Forall_impl; [exact Hx|]. intros y. apply HR.
Qed.

(* ===================================================================== *)
(** * Properties of the text search *)
(* ===================================================================== *)

Section TextSearch.
Import MemoryStorage.


(** ** [LIKE] against the substring test *)


Lemma like_chars_percent p s :
  like_chars ("%"%char :: p) s =
    like_chars p s
    || match s with
       | [] => false
       | _ :: s' => like_chars ("%"%char :: p) s'
       end.
Proof. by destruct s. Qed.

Lemma like_chars_trailing_percent s : like_chars ["%"%char] s = true.
Proof.
  induction s as [|x s IH]; [done|].
  rewrite like_chars_percent. by rewrite IH, orb_true_r.
Qed.




(** The boolean substring test says what it should. *)
Lemma ci_prefix_spec q s :
  ci_prefix q s = true ↔
  ∃ b c, s = b ++ c ∧ map Py.lower_char b = map Py.lower_char q.
Proof.
  revert s. induction q as [|x q IH]; intros s; cbn.
  - split; [by exists [], s|done].
  - destruct s as [|y s].
    + split; [done|]. by intros ([|??] & c & ? & ?).
    + rewrite andb_true_iff, IH. split.
      * intros [Hxy%Ascii.eqb_eq (b & c & -> & Hb)].
        exists (y :: b), c. cbn. by rewrite Hb, Hxy.
      * intros ([|y' b] & c & Hs & Hb); [done|].
        injection Hs as <- ->. injection Hb as Hxy Hb.
        split; [by apply Ascii.eqb_eq|]. by exists b, c.
Qed.

Lemma ci_infix_spec q s :
  ci_infix q s = true ↔
  ∃ a b c, s = a ++ b ++ c ∧ map Py.lower_char b = map Py.lower_char q.
Proof.
  induction s as [|y s IH]; cbn [ci_infix]; rewrite orb_true_iff, ci_prefix_spec.
  - split.
    + intros [(b & c & Hs & Hb)|?]; [|done]. by exists [], b, c.
    + intros (a & b & c & Hs & Hb). left. exists b, c.
      destruct a; [done|discriminate].
  - rewrite IH. split.
    + intros [(b & c & Hs & Hb)|(a & b & c & -> & Hb)].
      * by exists [], b, c.
      * by exists (y :: a), b, c.
    + intros ([|y' a] & b & c & Hs & Hb).
      * left. by exists b, c.
      * injection Hs as <- ->. right. by exists a, b, c.
Qed.

(** ** The result of [_text_search] *)

Lemma confidence_order_total (a b : Row) :
  Qle_bool (confidence (fields b)) (confidence (fields a)) = true
  ∨ Qle_bool (confidence (fields a)) (confidence (fields b)) = true.
Proof.
  rewrite !Qle_bool_iff.
  destruct (Qlt_le_dec (confidence (fields a)) (confidence (fields b))) as [H|H];
    [right; by apply Qlt_le_weak|by left].
Qed.

Lemma confidence_order_trans (a b c : Row) :
  Qle_bool (confidence (fields b)) (confidence (fields a)) = true →
  Qle_bool (confidence (fields c)) (confidence (fields b)) = true →
  Qle_bool (confidence (fields c)) (confidence (fields a)) = true.
Proof. rewrite !Qle_bool_iff. intros. by eapply Qle_trans. Qed.


Lemma limit_sorted {A} (R : A → A → Prop) (n : Z) (l : list A) :
  StronglySorted R l → StronglySorted R (limit n l).
Proof. unfold limit. destruct (n <? 0); [done|]. apply StronglySorted_take. Qed.

Lemma limit_elem {A} (n : Z) (l : list A) x : x ∈ limit n l → x ∈ l.
Proof. unfold limit. destruct (n <? 0); [done|]. apply subseteq_take. Qed.

Lemma limit_all {A} (n : Z) (l : list A) :
  Z.of_nat (length l) <= n → limit n l = l.
Proof.
  intros H. unfold limit. destruct (Z.ltb_spec n 0); [done|]. apply take_ge. lia.
Qed.





End TextSearch.

(* ===================================================================== *)
(** * Properties of the statistics *)
(* ===================================================================== *)

Section Statistics.
Import MemoryStorage.

Lemma filter_bool_prop {A} (f : A → bool) (P : A → Prop) `{∀ x, Decision (P x)}
      (l : list A) :
  (∀ x, f x = true ↔ P x) → List.filter f l = filter P l.
Proof.
  intros Hf. induction l as [|x l IH]; [done|].
  rewrite filter_cons. cbn [List.filter]. destruct (decide (P x)) as [Hx|Hx].
  - apply Hf in Hx. by rewrite Hx, IH.
  - destruct (f x) eqn:E; [by apply Hf in E|done].
Qed.

Lemma stats_rows_in_scope st session : stats_rows st session = rows_in_scope st session.
Proof.
  unfold stats_rows, rows_in_scope. destruct session as [sid|]; [|done].
  destruct (decide (sid = "")) as [->|Hsid]; [done|].
  assert (truthy (Some sid) = Some sid) as -> by (by destruct sid).
  apply filter_bool_prop. intros r. apply String.eqb_eq.
Qed.

Lemma sql_sum_from rows acc :
  (fold_left (fun acc r => acc + confidence (fields r)) rows acc
   == acc + confidence_sum rows)%Q.
Proof.
  revert acc. induction rows as [|r rows IH]; intros acc; cbn.
  - by rewrite Qplus_0_r.
  - rewrite IH. by rewrite Qplus_assoc.
Qed.

Lemma sql_sum_spec rows : (sql_sum rows == confidence_sum rows)%Q.
Proof. unfold sql_sum. rewrite sql_sum_from. apply Qplus_0_l. Qed.

Lemma sql_min_from rows t :
  ∃ lo, fold_left (fun acc r =>
                     match acc with
                     | None => Some (source_turn (fields r))
                     | Some t => Some (Z.min t (source_turn (fields r)))
                     end) rows (Some t) = Some lo
        ∧ lo <= t
        ∧ (lo = t ∨ lo ∈ (fun r => source_turn (fields r)) <$> rows)
        ∧ ∀ r, r ∈ rows → lo <= source_turn (fields r).
Proof.
  revert t. induction rows as [|r rows IH]; intros t; cbn.
  - exists t. repeat split; [lia|by left|]. intros r Hr. by apply elem_of_nil in Hr.
  - destruct (IH (Z.min t (source_turn (fields r)))) as (lo & -> & Hle & Hin & Hall).
    exists lo. split; [done|]. split; [lia|]. split.
    + destruct Hin as [->|Hin]; [|right; by right].
      destruct (Z.min_spec t (source_turn (fields r))) as [[_ ->]|[_ ->]];
        [by left|right; left].
    + intros r' [->|Hr']%elem_of_cons; [lia|by apply Hall].
Qed.

Lemma sql_max_from rows t :
  ∃ hi, fold_left (fun acc r =>
                     match acc with
                     | None => Some (source_turn (fields r))
                     | Some t => Some (Z.max t (source_turn (fields r)))
                     end) rows (Some t) = Some hi
        ∧ t <= hi
        ∧ (hi = t ∨ hi ∈ (fun r => source_turn (fields r)) <$> rows)
        ∧ ∀ r, r ∈ rows → source_turn (fields r) <= hi.
Proof.
  revert t. induction rows as [|r rows IH]; intros t; cbn.
  - exists t. repeat split; [lia|by left|]. intros r Hr. by apply elem_of_nil in Hr.
  - destruct (IH (Z.max t (source_turn (fields r)))) as (hi & -> & Hle & Hin & Hall).
    exists hi. split; [done|]. split; [lia|]. split.
    + destruct Hin as [->|Hin]; [|right; by right].
      destruct (Z.max_spec t (source_turn (fields r))) as [[_ ->]|[_ ->]];
        [right; left|by left].
    + intros r' [->|Hr']%elem_of_cons; [lia|by apply Hall].
Qed.

Lemma sql_min_spec r rows : ∃ lo, sql_min (r :: rows) = Some lo ∧ least_turn (r :: rows) lo.
Proof.
  unfold sql_min, least_turn. cbn [fold_left].
  destruct (sql_min_from rows (source_turn (fields r))) as (lo & -> & Hle & Hin & Hall).
  exists lo. split; [done|]. split.
  - cbn. destruct Hin as [->|Hin]; [left|by right].
  - intros r' [->|Hr']%elem_of_cons; [done|by apply Hall].
Qed.

Lemma sql_max_spec r rows :
  ∃ hi, sql_max (r :: rows) = Some hi ∧ greatest_turn (r :: rows) hi.
Proof.
  unfold sql_max, greatest_turn. cbn [fold_left].
  destruct (sql_max_from rows (source_turn (fields r))) as (hi & -> & Hle & Hin & Hall).
  exists hi. split; [done|]. split.
  - cbn. destruct Hin as [->|Hin]; [left|by right].
  - intros r' [->|Hr']%elem_of_cons; [done|by apply Hall].
Qed.

(** C8 (amended).  [get_memory_stats] aggregates over exactly the rows
    of the session (over all rows when no session or an empty session
    id is given): the count, the average confidence, the least and the
    greatest source turn.  When no row matches, the count is 0 and the
    other three entries are [None]. *)
Theorem C8_get_memory_stats_aggregates (st : MemoryStorage.t) (session : option string) :
  let rows := rows_in_scope st session in
  let stats := get_memory_stats st session in
  total_memories stats = Some (Z.of_nat (length rows))
  ∧ (rows = [] →
       total_memories stats = Some 0
       ∧ avg_confidence stats = None
       ∧ earliest_turn stats = None
       ∧ latest_turn stats = None)
  ∧ (rows ≠ [] →
       ∃ avg lo hi,
         avg_confidence stats = Some avg
         ∧ (avg == confidence_sum rows / inject_Z (Z.of_nat (length rows)))%Q
         ∧ earliest_turn stats = Some lo ∧ least_turn rows lo
         ∧ latest_turn stats = Some hi ∧ greatest_turn rows hi).
Proof.
  cbn zeta. unfold get_memory_stats. rewrite stats_rows_in_scope.
  cbn [total_memories avg_confidence earliest_turn latest_turn].
  split; [done|]. split.
  - by intros ->.
  - destruct (rows_in_scope st session) as [|r rows]; [done|]. intros _.
    destruct (sql_min_spec r rows) as (lo & Hlo & Hleast).
    destruct (sql_max_spec r rows) as (hi & Hhi & Hgreatest).
    eexists _, lo, hi. split; [reflexivity|]. split; [|done].
    rewrite Qred_correct, sql_sum_spec. reflexivity.
Qed.

Lemma C8_get_memory_stats_witness :
  let st := store_of [language_preference; tea_preference] in
  ∃ avg lo hi,
    avg_confidence (get_memory_stats st None) = Some avg
    ∧ (avg == confidence_sum (memories st) / 2)%Q
    ∧ earliest_turn (get_memory_stats st None) = Some lo ∧ least_turn (memories st) lo
    ∧ latest_turn (get_memory_stats st None) = Some hi ∧ greatest_turn (memories st) hi.
Proof.
  cbn zeta.
  destruct (C8_get_memory_stats_aggregates
              (store_of [language_preference; tea_preference]) None) as (_ & _ & H).
  apply H. discriminate.
Defined.

(** C8 as stated fails where no row matches: the count is 0, not
    absent. *)
Lemma C8_counterexample_count_of_no_rows :
  rows_in_scope (init false) (Some "s1") = []
  ∧ total_memories (get_memory_stats (init false) (Some "s1")) = Some 0
  ∧ total_memories (get_memory_stats (init false) (Some "s1")) ≠ None.
Proof. by vm_compute. Qed.

End Statistics.

(* ===================================================================== *)
(** * Properties of the retrieval by type *)
(* ===================================================================== *)

Section ByType.
Import MemoryStorage MemoryRetriever.

Lemma slice_to_nonneg {A} (l : list A) (n : Z) :
  0 <= n → Py.slice_to l n = take (Z.to_nat n) l.
Proof. intros H. unfold Py.slice_to. by rewrite (proj2 (Z.leb_le _ _) H). Qed.


Lemma slice_to_elem {A} (l : list A) (n : Z) x : x ∈ Py.slice_to l n → x ∈ l.
Proof. unfold Py.slice_to. destruct (0 <=? n); apply subseteq_take. Qed.

Lemma slice_to_negative_length {A} (l : list A) (n : Z) :
  n < 0 → (length (Py.slice_to l n) = length l - Z.to_nat (- n))%nat.
Proof.
  intros H. unfold Py.slice_to. rewrite (proj2 (Z.leb_gt _ _) H), length_take. lia.
Qed.

(** The order of [retrieve_by_type]. *)
Lemma by_type_key_le_spec a b :
  by_type_key_le a b = true ↔
  (confidence (fields a) < confidence (fields b))%Q
  ∨ ((confidence (fields a) == confidence (fields b))%Q
     ∧ source_turn (fields b) <= source_turn (fields a)).
Proof.
  unfold by_type_key_le. cbn zeta.
  destruct (Qeq_bool _ _) eqn:E.
  - apply Qeq_bool_iff in E. rewrite Z.leb_le. split.
    + intros H. right. split; [done|lia].
    + intros [H|[_ H]]; [lra|lia].
  - apply Qeq_bool_neq in E. rewrite Qle_bool_iff. split.
    + intros H. left. lra.
    + intros [H|[H _]]; [lra|done].
Qed.

Lemma by_type_order_total a b :
  by_type_key_le b a = true ∨ by_type_key_le a b = true.
Proof.
  rewrite !by_type_key_le_spec.
  destruct (Q_dec (confidence (fields a)) (confidence (fields b))) as [[H|H]|H];
    [tauto|tauto|].
  destruct (Z.le_ge_cases (source_turn (fields a)) (source_turn (fields b)));
    [left|right]; right; split; (lra || lia).
Qed.

Lemma by_type_order_trans a b c :
  by_type_key_le b a = true → by_type_key_le c b = true → by_type_key_le c a = true.
Proof.
  rewrite !by_type_key_le_spec. intros [H1|[H1 H1']] [H2|[H2 H2']].
  - left. lra.
  - left. lra.
  - left. lra.
  - right. split; [lra|lia].
Qed.

Lemma by_type_key_le_confidence a b :
  by_type_key_le a b = true → (confidence (fields a) <= confidence (fields b))%Q.
Proof. rewrite by_type_key_le_spec. intros [H|[H _]]; lra. Qed.

Lemma session_memories_where_spec sid t r :
  t ≠ "" →
  session_memories_where sid (Some t) 0 r = true ↔
  of_type sid t r ∧ (0 <= confidence (fields r))%Q.
Proof.
  intros Ht. unfold session_memories_where, of_type.
  assert (truthy (Some t) = Some t) as -> by (by destruct t).
  rewrite !andb_true_iff, !String.eqb_eq, Qle_bool_iff. tauto.
Qed.

Lemma get_session_memories_elem st sid t r :
  t ≠ "" →
  r ∈ get_session_memories st sid (Some t) 0 ↔
  r ∈ memories st ∧ of_type sid t r ∧ (0 <= confidence (fields r))%Q.
Proof.
  intros Ht. unfold get_session_memories.
  rewrite stable_sort_elem, list_elem_of_In, filter_In, <- list_elem_of_In.
  by rewrite session_memories_where_spec.
Qed.

Lemma get_session_memories_length st sid t :
  t ≠ "" → confidences_nonneg st →
  length (get_session_memories st sid (Some t) 0) = count_of_type st sid t.
Proof.
  intros Ht Hconf. unfold get_session_memories, count_of_type.
  rewrite stable_sort_length.
  unfold confidences_nonneg in Hconf. revert Hconf.
  generalize (memories st). intros rows.
  induction rows as [|r rows IH]; intros Hconf; [done|].
  rewrite filter_cons. cbn [List.filter].
  assert (∀ r, r ∈ rows → (0 <= confidence (fields r))%Q) as Hrows.
  { intros r' Hr'. apply Hconf. by right. }
  specialize (IH Hrows).
  destruct (session_memories_where sid (Some t) 0 r) eqn:E.
  - apply session_memories_where_spec in E as [E _]; [|done].
    rewrite decide_True by done. cbn. by rewrite IH.
  - rewrite decide_False; [done|]. intros Hof.
    assert (session_memories_where sid (Some t) 0 r = true) as E'; [|congruence].
    apply session_memories_where_spec; [done|]. split; [done|]. apply Hconf. left.
Qed.

(** What [retrieve_by_type] returns for a type name and a bound
    [n >= 0]: rows of that type and session, at most [n], all of them
    when there are no more than [n], and otherwise none of lower
    confidence in place of one of higher confidence. *)
Lemma retrieve_by_type_spec st sid t n :
  t ≠ "" → 0 <= n → confidences_nonneg st →
  let res := retrieve_by_type st sid t n in
  (∀ r, r ∈ res → r ∈ memories st ∧ of_type sid t r)
  ∧ Z.of_nat (length res) <= n
  ∧ (Z.of_nat (count_of_type st sid t) <= n →
     ∀ r, r ∈ memories st → of_type sid t r → r ∈ res)
  ∧ (∀ r r', r ∈ res → r' ∈ memories st → of_type sid t r' → r' ∉ res →
             (confidence (fields r') <= confidence (fields r))%Q).
Proof.
  intros Ht Hn Hconf. cbn zeta. unfold retrieve_by_type.
  set (sorted := stable_sort _ _).
  assert (∀ r, r ∈ sorted ↔ r ∈ memories st ∧ of_type sid t r) as Hin.
  { intros r. unfold sorted. rewrite stable_sort_elem, get_session_memories_elem by done.
    split; [tauto|]. intros [Hr Hof]. split; [done|]. split; [done|by apply Hconf]. }
  assert (StronglySorted (fun a b => by_type_key_le b a = true) sorted) as Hsorted.
  { apply stable_sort_sorted.
    - intros a b. apply by_type_order_total.
    - intros a b c. apply by_type_order_trans. }
  rewrite slice_to_nonneg by done.
  split; [|split; [|split]].
  - intros r Hr%subseteq_take. by apply Hin.
  - rewrite length_take. lia.
  - intros Hcount r Hr Hof. rewrite take_ge; [by apply Hin|].
    unfold sorted. rewrite stable_sort_length, get_session_memories_length by done. lia.
  - intros r r' Hr Hr' Hof Hout.
    assert (r' ∈ drop (Z.to_nat n) sorted) as Hdropped.
    { assert (r' ∈ sorted) as Hs by (by apply Hin).
      rewrite <- (take_drop (Z.to_nat n) sorted) in Hs.
      apply elem_of_app in Hs as [Hs|Hs]; [by destruct Hout|done]. }
    rewrite <- (take_drop (Z.to_nat n) sorted) in Hsorted.
    apply by_type_key_le_confidence.
    by apply (StronglySorted_app_1_elem_of _ _ _ _ _ Hsorted).
Qed.

End ByType.

Section Critical.
Import MemoryStorage MemoryRetriever.

Lemma filter_none {A} (P : A → Prop) `{∀ x, Decision (P x)} (l : list A) :
  (∀ x, x ∈ l → ¬ P x) → filter P l = [].
Proof.
  induction l as [|x l IH]; intros Hl; [done|].
  rewrite filter_cons_False by (apply Hl; left). apply IH. intros y Hy. apply Hl. by right.
Qed.

Lemma retrieve_critical_memories_unfold st sid ct :
  retrieve_critical_memories st sid ct =
    retrieve_by_type st sid "instruction" 3
    ++ retrieve_by_type st sid "commitment" 3
    ++ List.filter (fun p => negb (Qle_bool (confidence (fields p)) 0.8))
                   (retrieve_by_type st sid "preference" 5).
Proof.
  unfold retrieve_critical_memories. cbn [flat_map]. by rewrite app_nil_r, <- app_assoc.
Qed.

Lemma high_confidence_spec (p : Row) :
  negb (Qle_bool (confidence (fields p)) 0.8) = true ↔ (0.8 < confidence (fields p))%Q.
Proof.
  rewrite negb_true_iff, <- not_true_iff_false, Qle_bool_iff. split; [lra|lra].
Qed.

(** C4 (amended).  [retrieve_critical_memories] returns, whatever the
    relevance scores are, instruction and commitment records of the
    session and preference records of confidence above 0.8, but at most
    three instructions, three commitments and five preferences: every
    such record is returned when the session holds no more than three
    instructions, three commitments and five preferences, and beyond
    that an instruction or commitment that is left out never has a
    higher confidence than one that is returned. *)
Theorem C4_retrieve_critical_memories_capped
        (st : MemoryStorage.t) (sid : string) (current_turn : Z) :
  confidences_nonneg st →
  let res := retrieve_critical_memories st sid current_turn in
  (∀ r, r ∈ res →
        r ∈ memories st
        ∧ session_id (fields r) = sid
        ∧ (mem_type (fields r) = "instruction"
           ∨ mem_type (fields r) = "commitment"
           ∨ (mem_type (fields r) = "preference"
              ∧ (0.8 < confidence (fields r))%Q)))
  ∧ (length (filter (of_type sid "instruction") res) ≤ 3
     ∧ length (filter (of_type sid "commitment") res) ≤ 3
     ∧ length (filter (of_type sid "preference") res) ≤ 5)%nat
  ∧ (∀ r, r ∈ memories st → of_type sid "instruction" r →
          (count_of_type st sid "instruction" ≤ 3)%nat → r ∈ res)
  ∧ (∀ r, r ∈ memories st → of_type sid "commitment" r →
          (count_of_type st sid "commitment" ≤ 3)%nat → r ∈ res)
  ∧ (∀ r, r ∈ memories st → of_type sid "preference" r →
          (0.8 < confidence (fields r))%Q →
          (count_of_type st sid "preference" ≤ 5)%nat → r ∈ res)
  ∧ (∀ t r r', t = "instruction" ∨ t = "commitment" →
               r ∈ res → of_type sid t r →
               r' ∈ memories st → of_type sid t r' → r' ∉ res →
               (confidence (fields r') <= confidence (fields r))%Q).
Proof.
  intros Hconf. cbn zeta. rewrite retrieve_critical_memories_unfold.
  destruct (retrieve_by_type_spec st sid "instruction" 3) as (Hi1 & Hi2 & Hi3 & Hi4);
    [done|lia|done|].
  destruct (retrieve_by_type_spec st sid "commitment" 3) as (Hc1 & Hc2 & Hc3 & Hc4);
    [done|lia|done|].
  destruct (retrieve_by_type_spec st sid "preference" 5) as (Hp1 & Hp2 & Hp3 & _);
    [done|lia|done|].
  set (Ins := retrieve_by_type st sid "instruction" 3) in *.
  set (Com := retrieve_by_type st sid "commitment" 3) in *.
  set (Prf := retrieve_by_type st sid "preference" 5) in *.
  set (Hig := List.filter _ Prf).
  assert (∀ r, r ∈ Hig ↔ r ∈ Prf ∧ (0.8 < confidence (fields r))%Q) as HH.
  { intros r. unfold Hig.
    by rewrite list_elem_of_In, filter_In, <- list_elem_of_In, high_confidence_spec. }
  assert (length Hig ≤ length Prf)%nat as HHlen.
  { unfold Hig. clear. induction Prf as [|p Prf IH]; cbn; [done|].
    destruct (negb _); cbn; lia. }
  split; [|split; [|split; [|split; [|split]]]].
  - intros r [Hr|[Hr|Hr]%elem_of_app]%elem_of_app.
    + destruct (Hi1 r Hr) as (? & ? & ?). tauto.
    + destruct (Hc1 r Hr) as (? & ? & ?). tauto.
    + apply HH in Hr as [Hr Hhigh]. destruct (Hp1 r Hr) as (? & ? & ?). tauto.
  - rewrite !filter_app, !length_app.
    assert (∀ t t' (l : list Row),
              t ≠ t' → (∀ r, r ∈ l → of_type sid t' r) →
              length (filter (of_type sid t) l) = 0%nat) as Hnone.
    { intros t t' l Hne Hl. rewrite filter_none; [done|].
      intros r Hr [_ Ht]. destruct (Hl r Hr) as [_ Ht']. congruence. }
    assert (∀ r, r ∈ Ins → of_type sid "instruction" r) as HI by (intros; by apply Hi1).
    assert (∀ r, r ∈ Com → of_type sid "commitment" r) as HC by (intros; by apply Hc1).
    assert (∀ r, r ∈ Hig → of_type sid "preference" r) as HP.
    { intros r [Hr _]%HH. by apply Hp1. }
    rewrite (Hnone "instruction" "commitment" Com), (Hnone "instruction" "preference" Hig),
      (Hnone "commitment" "instruction" Ins), (Hnone "commitment" "preference" Hig),
      (Hnone "preference" "instruction" Ins), (Hnone "preference" "commitment" Com)
      by done.
    pose proof (length_filter (of_type sid "instruction") Ins).
    pose proof (length_filter (of_type sid "commitment") Com).
    pose proof (length_filter (of_type sid "preference") Hig).
    lia.
  - intros r Hr Hof Hcount. apply elem_of_app. left. apply Hi3; [lia|done|done].
  - intros r Hr Hof Hcount. apply elem_of_app. right. apply elem_of_app. left.
    apply Hc3; [lia|done|done].
  - intros r Hr Hof Hhigh Hcount. apply elem_of_app. right. apply elem_of_app. right.
    apply HH. split; [|done]. apply Hp3; [lia|done|done].
  - intros t r r' Ht Hr [Hsid Htype] Hr' Hof' Hout.
    assert ((r' ∉ Ins) ∧ (r' ∉ Com)) as [HoutI HoutC].
    { split; intros Hin; apply Hout; apply elem_of_app; [by left|].
      right. apply elem_of_app. by left. }
    apply elem_of_app in Hr as [Hr|[Hr|Hr]%elem_of_app].
    + destruct (Hi1 r Hr) as (_ & _ & Htype').
      assert (t = "instruction") as -> by congruence. by apply (Hi4 r r').
    + destruct (Hc1 r Hr) as (_ & _ & Htype').
      assert (t = "commitment") as -> by congruence. by apply (Hc4 r r').
    + apply HH in Hr as [Hr _]. destruct (Hp1 r Hr) as (_ & _ & Htype').
      destruct Ht as [->| ->]; congruence.
Qed.

Lemma C4_retrieve_critical_memories_witness :
  {| memory_id := 1; fields := language_preference |}
    ∈ retrieve_critical_memories (store_of [language_preference; tea_preference]) "s1" 10.
Proof.
  assert (confidences_nonneg (store_of [language_preference; tea_preference])) as Hconf.
  { intros r' Hr'. vm_compute in Hr'.
    repeat (apply elem_of_cons in Hr' as [->|Hr']; [by vm_compute|]).
    by apply elem_of_nil in Hr'. }
  destruct (C4_retrieve_critical_memories_capped
              (store_of [language_preference; tea_preference]) "s1" 10 Hconf)
    as (_ & _ & _ & _ & Hpref & _).
  apply Hpref.
  - vm_compute. left.
  - by vm_compute.
  - by vm_compute.
  - vm_compute. lia.
Defined.

(** C4 as stated fails as soon as a session holds four instructions:
    the fourth is stored and is not returned. *)
Lemma C4_counterexample_fourth_instruction :
  let st := store_of four_instructions in
  let left_out := {| memory_id := 4; fields := instruction_at 4 "never share my number" |} in
  left_out ∈ memories st
  ∧ of_type "s1" "instruction" left_out
  ∧ left_out ∉ retrieve_critical_memories st "s1" 10.
Proof.
  cbn zeta. split; [|split].
  - vm_compute. do 3 right. left.
  - by vm_compute.
  - intros Hin. vm_compute in Hin.
    repeat (apply elem_of_cons in Hin as [Hin|Hin]; [discriminate|]).
    by apply elem_of_nil in Hin.
Qed.

End Critical.

(* ===================================================================== *)
(** * Properties of the relevance score *)
(* ===================================================================== *)

Section Relevance.
Import MemoryStorage MemoryRetriever.





Lemma _calculate_relevance_defined r current_turn user_message :
  0 <= access_count (fields r) →
  _calculate_relevance r current_turn user_message
  = Some (score_of r current_turn user_message).
Proof.
  intros H. unfold _calculate_relevance, math_log.
  by rewrite (proj2 (Z.ltb_lt 0 (access_count (fields r) + 1))) by lia.
Qed.







End Relevance.

(* ===================================================================== *)
(** * Properties of the relevance-ranked retrieval *)
(* ===================================================================== *)

Section Retrieve.
Import MemoryStorage MemoryRetriever.


Lemma session_memories_elem st sid r :
  r ∈ get_session_memories st sid None 0 →
  r ∈ memories st ∧ session_id (fields r) = sid.
Proof.
  unfold get_session_memories.
  rewrite stable_sort_elem, list_elem_of_In, filter_In, <- list_elem_of_In.
  unfold session_memories_where. cbn [truthy].
  rewrite !andb_true_iff, String.eqb_eq. tauto.
Qed.









End Retrieve.

(* ===================================================================== *)
(** * Properties of the extractor *)
(* ===================================================================== *)

Section Matching.

(** A successful run ends in its continuation: no text is given back,
    a pattern that is not nullable has consumed some, every group that
    was set is still set, and so are the groups the pattern always
    sets. *)
Lemma run_reaches icase n r :
  ∀ prev s caps k res,
    re.run icase r prev s caps k = Some res →
    ∃ prev' s' caps',
      k prev' s' caps' = Some res
      ∧ (length s' ≤ length s)%nat
      ∧ (nullable r = false → (length s' < length s)%nat)
      ∧ (∀ i, is_Some (caps !! i) → is_Some (caps' !! i))
      ∧ (always_sets n r = true → is_Some (caps' !! n)).
Proof.
  assert (∀ test s caps k res,
            re.one_char test s caps k = Some res →
            ∃ prev' s' caps',
              k prev' s' caps' = Some res
              ∧ (length s' ≤ length s)%nat
              ∧ (false = false → (length s' < length s)%nat)
              ∧ (∀ i, is_Some (caps !! i) → is_Some (caps' !! i))
              ∧ (false = true → is_Some (caps' !! n))) as Hone.
  { intros test s caps k res Hrun. unfold re.one_char in Hrun.
    destruct s as [|x s]; [done|]. destruct (test x); [|done].
    exists (Some x), s, caps. cbn. repeat split; [done|lia|lia|done|discriminate]. }
  induction r as [| c | | ranges | | | | | r1 IH1 r2 IH2 | r1 IH1 r2 IH2 | r1 IH1 | m r1 IH1];
    intros prev s caps k res Hrun; cbn [re.run always_sets nullable] in *;
    try (by eapply Hone).
  - exists prev, s, caps. repeat split; [done|lia|discriminate|done|discriminate].
  - destruct (xorb _ _); [|done].
    exists prev, s, caps. repeat split; [done|lia|discriminate|done|discriminate].
  - apply IH1 in Hrun as (p1 & s1 & c1 & Hk1 & Hlen1 & Hlt1 & Hmono1 & Hset1).
    apply IH2 in Hk1 as (p2 & s2 & c2 & Hk2 & Hlen2 & Hlt2 & Hmono2 & Hset2).
    exists p2, s2, c2. split; [done|]. split; [lia|]. split; [|split; [auto|]].
    + intros [H|H]%andb_false_iff; [specialize (Hlt1 H)|specialize (Hlt2 H)]; lia.
    + intros [H|H]%orb_true_iff; auto.
  - destruct (re.run icase r1 prev s caps k) as [res1|] eqn:E1.
    + injection Hrun as ->.
      apply IH1 in E1 as (p1 & s1 & c1 & Hk1 & Hlen1 & Hlt1 & Hmono1 & Hset1).
      exists p1, s1, c1. split; [done|]. split; [done|]. split; [|split; [done|]].
      * intros [H _]%orb_false_iff. auto.
      * intros [H _]%andb_true_iff. auto.
    + apply IH2 in Hrun as (p2 & s2 & c2 & Hk2 & Hlen2 & Hlt2 & Hmono2 & Hset2).
      exists p2, s2, c2. split; [done|]. split; [done|]. split; [|split; [done|]].
      * intros [_ H]%orb_false_iff. auto.
      * intros [_ H]%andb_true_iff. auto.
  - revert Hrun. generalize (length s) at 1. intros fuel. revert prev s caps.
    induction fuel as [|fuel IHfuel]; intros prev s caps Hrun.
    + exists prev, s, caps. repeat split; [done|lia|discriminate|done|discriminate].
    + match type of Hrun with
      | match ?t with _ => _ end = _ => destruct t as [res1|] eqn:E1
      end.
      * injection Hrun as ->.
        apply IH1 in E1 as (p1 & s1 & c1 & Hk1 & Hlen1 & _ & Hmono1 & _).
        destruct (length s1 <? length s)%nat; [|done].
        apply IHfuel in Hk1 as (p2 & s2 & c2 & Hk2 & Hlen2 & _ & Hmono2 & _).
        exists p2, s2, c2.
        repeat split; [done|lia|discriminate|auto|discriminate].
      * exists prev, s, caps. repeat split; [done|lia|discriminate|done|discriminate].
  - apply IH1 in Hrun as (p1 & s1 & c1 & Hk1 & Hlen1 & Hlt1 & Hmono1 & Hset1).
    exists p1, s1, (<[m := string_of_list_ascii (take (length s - length s1) s)]> c1).
    split; [exact Hk1|]. split; [done|]. split; [done|]. split.
    + intros i Hi. destruct (decide (m = i)) as [->|Hne].
      * rewrite lookup_insert_eq. by eexists.
      * rewrite lookup_insert_ne by done. auto.
    + intros [->%Nat.eqb_eq|H]%orb_true_iff.
      * rewrite lookup_insert_eq. by eexists.
      * destruct (decide (m = n)) as [->|Hne].
        -- rewrite lookup_insert_eq. by eexists.
        -- rewrite lookup_insert_ne by done. auto.
Qed.

(** Every element of [finditer] is the result of an attempt at some
    position. *)
Lemma finditer_from_match_at icase r m :
  ∀ s prev pos skip,
    m ∈ re.finditer_from icase r prev s pos skip →
    ∃ prev' s' pos', re.match_at icase r prev' s' pos' = Some m.
Proof.
  induction s as [|c s IH]; intros prev pos skip Hm; cbn in Hm.
  - destruct skip; [|by apply elem_of_nil in Hm].
    destruct (re.match_at icase r prev [] pos) as [m'|] eqn:E;
      [|by apply elem_of_nil in Hm].
    apply list_elem_of_singleton in Hm as ->. eauto.
  - destruct skip; [|by eapply IH].
    destruct (re.match_at icase r prev (c :: s) pos) as [m'|] eqn:E; [|by eapply IH].
    apply elem_of_cons in Hm as [->|Hm]; [eauto|by eapply IH].
Qed.

(** A group that every match of the pattern sets is a string in every
    match object. *)
Lemma match_at_group icase r prev s pos m n :
  re.match_at icase r prev s pos = Some m →
  always_sets (S n) r = true → (n < re.ngroups r)%nat →
  is_Some (re.group m (S n)).
Proof.
  unfold re.match_at. intros Hm Hset Hn.
  destruct (re.run icase r prev s ∅ _) as [[s' caps]|] eqn:Erun; [|done].
  injection Hm as <-. cbn.
  apply (run_reaches icase (S n)) in Erun
    as (p' & s'' & caps' & Hk & _ & _ & _ & Hcaps).
  injection Hk as -> ->.
  erewrite nth_indep by (by rewrite length_map, length_seq).
  rewrite (map_nth (fun i => caps !! i) _ 0%nat), seq_nth by done. by apply Hcaps.
Qed.

(** A match of a pattern that is not nullable is not empty. *)
Lemma match_at_nonempty icase r prev s pos m :
  re.match_at icase r prev s pos = Some m →
  nullable r = false → (re.span_start m < re.span_end m)%nat.
Proof.
  unfold re.match_at. intros Hm Hnull.
  destruct (re.run icase r prev s ∅ _) as [[s' caps]|] eqn:Erun; [|done].
  injection Hm as <-. cbn.
  apply (run_reaches icase 0%nat) in Erun as (p' & s'' & caps' & Hk & _ & Hlt & _).
  injection Hk as -> ->. specialize (Hlt Hnull). lia.
Qed.

End Matching.

Section Extraction.
Import MemoryExtractor MemoryStorage.

Lemma entity_group_is_string text m :
  m ∈ finditer entity_pattern text false → is_Some (re.group m 1).
Proof.
  unfold finditer, re.finditer.
  intros (prev & s & pos & Hm)%finditer_from_match_at.
  eapply match_at_group; [exact Hm|by vm_compute|vm_compute; lia].
Qed.

(** No pattern of the extractor matches the empty string, so that no
    match of [finditer] is empty. *)
Lemma patterns_not_nullable :
  forallb (fun pattern => negb (nullable (re.compile pattern)))
          (entity_pattern :: ignorecase_patterns) = true.
Proof. by vm_compute. Qed.

Lemma finditer_nonempty pattern text icase m :
  pattern ∈ entity_pattern :: ignorecase_patterns →
  m ∈ finditer pattern text icase → (re.span_start m < re.span_end m)%nat.
Proof.
  intros Hp%list_elem_of_In Hm. unfold finditer, re.finditer in Hm.
  apply finditer_from_match_at in Hm as (prev & s & pos & Hm).
  eapply match_at_nonempty; [exact Hm|].
  pose proof patterns_not_nullable as Hall. rewrite forallb_forall in Hall.
  by apply negb_true_iff, Hall.
Qed.

Lemma for_each_match_nil {A} patterns text (body : string → re.Match → list A) :
  (∀ pattern, pattern ∈ patterns → finditer pattern text IGNORECASE = []) →
  for_each_match patterns text body = [].
Proof.
  unfold for_each_match. induction patterns as [|p patterns IH]; intros H; [done|].
  cbn. rewrite (H p) by left. cbn. apply IH. intros p' Hp'. apply H. by right.
Qed.

Lemma is_nil_spec {A} (l : list A) : is_nil l = true ↔ l = [].
Proof. by destruct l. Qed.

Lemma nothing_matches_spec text :
  nothing_matches text = true →
  (∀ pattern, pattern ∈ ignorecase_patterns → finditer pattern text IGNORECASE = [])
  ∧ finditer entity_pattern text false = [].
Proof.
  unfold nothing_matches. rewrite andb_true_iff, forallb_forall, is_nil_spec.
  intros [Hall Hentity]. split; [|done].
  intros pattern Hp%list_elem_of_In. by apply is_nil_spec, Hall.
Qed.

(** C9.  The candidates do not depend on the assistant's response: two
    calls of [extract_memories] that differ in that argument only return
    the same sequence.  The extractor always returns: the one group it
    dereferences, group 1 of an entity match, is always a string.  When
    no pattern of the six families matches, it returns the empty
    sequence. *)
Theorem C9_extraction_ignores_assistant_response
        (user_message response1 response2 : string) (turn_number : Z)
        (session : string) (clock : nat → string) :
  extract_memories user_message response1 turn_number session clock
  = extract_memories user_message response2 turn_number session clock
  ∧ (∀ m, m ∈ finditer entity_pattern user_message false → is_Some (re.group m 1))
  ∧ (nothing_matches user_message = true →
     extract_memories user_message response1 turn_number session clock = []).
Proof.
  split; [reflexivity|]. split; [apply entity_group_is_string|].
  intros [Hall Hentity]%nothing_matches_spec.
  unfold extract_memories, _extract_preferences, _extract_constraints,
    _extract_commitments, _extract_instructions, _extract_entities, _extract_facts.
  rewrite Hentity.
  rewrite !for_each_match_nil; [done| | | | |];
    intros pattern Hp; apply Hall; unfold ignorecase_patterns;
    rewrite !elem_of_app; tauto.
Qed.

Lemma C9_extraction_witness :
  extract_memories "hello there" "Hello! How can I help you today?" 1 "s1" fixed_clock
  = [].
Proof.
  apply (C9_extraction_ignores_assistant_response
           "hello there" "Hello! How can I help you today?" "" 1 "s1" fixed_clock).
  by vm_compute.
Defined.

(** C10.  A turn that ends in a relative-time marker followed by
    whitespace (here ["tomorrow "], and ["see you soon "]) yields a
    commitment candidate whose [value] is [None].  The candidate passes
    [filter_memories] at the threshold 0.6 of the agent and
    [deduplicate_memories], its fingerprint spells the absent value as
    [None], and [store_memories] writes it to the table. *)
Theorem C10_commitment_without_value_reaches_the_store :
  let ms := extract_memories "tomorrow " "Sure" 1 "s1" fixed_clock in
  let survivors := deduplicate_memories (filter_memories ms 0.6) in
  ms = [commitment_without_value]
  ∧ mem_type commitment_without_value = MemoryType_value COMMITMENT
  ∧ value commitment_without_value = None
  ∧ filter_memories ms 0.6 = ms
  ∧ survivors = ms
  ∧ fingerprint commitment_without_value = "commitment:scheduled_action:None"
  ∧ MemoryStorage.store_memories (MemoryStorage.init false) survivors
    = ({| memories := [ {| memory_id := 1; fields := commitment_without_value |} ];
          sqlite_sequence := 1;
          vector_search_enabled := false;
          faiss_index := [];
          memory_id_map := [] |}, [1])
  ∧ (∃ m, m ∈ extract_memories "see you soon " "Bye" 7 "s1" fixed_clock
          ∧ mem_type m = MemoryType_value COMMITMENT
          ∧ content m = "soon "
          ∧ value m = None).
Proof.
  cbn zeta. repeat split; try (by vm_compute).
  eexists. split; [vm_compute; left|by vm_compute].
Qed.

End Extraction.


(* ===================================================================== *)
(** * The patterns and the tests of the repository, run on the model *)
(* ===================================================================== *)

Section Examples.
Import MemoryExtractor MemoryStorage.

(** Every pattern string of the extractor parses. *)
Lemma patterns_compile :
  forallb (fun pattern => bool_decide (is_Some (re.parse pattern)))
          (ignorecase_patterns
           ++ [entity_pattern; "language|prefer|favorite"; "time|am|pm|\d+:\d+";
               "not available|busy"]
           ++ (fst <$> parse_preference_patterns))
  = true.
Proof. by vm_compute. Qed.

(** The last commitment pattern: the marker, whitespace, and an
    optional group. *)
Example commitment_marker_pattern :
  re.parse "(?:soon|later)\s+(.+)?" =
    Some (re.RCat
            (re.RAlt
               (re.RCat (re.RChar "s") (re.RCat (re.RChar "o")
                  (re.RCat (re.RChar "o") (re.RChar "n"))))
               (re.RCat (re.RChar "l") (re.RCat (re.RChar "a")
                  (re.RCat (re.RChar "t") (re.RCat (re.RChar "e") (re.RChar "r"))))))
            (re.RCat (re.RPlus re.RSpace)
                     (re.ROpt (re.RGroup 1 (re.RPlus re.RAny))))).
Proof. reflexivity. Qed.

Example entity_pattern_parsed :
  re.parse entity_pattern =
    Some (re.RCat re.RBoundary
            (re.RCat
               (re.RGroup 1
                  (re.RCat (re.RSet [("A"%char, "Z"%char)])
                     (re.RCat (re.RPlus (re.RSet [("a"%char, "z"%char)]))
                        (re.RStar
                           (re.RCat (re.RPlus re.RSpace)
                              (re.RCat (re.RSet [("A"%char, "Z"%char)])
                                 (re.RPlus (re.RSet [("a"%char, "z"%char)]))))))))
               re.RBoundary)).
Proof. reflexivity. Qed.

(** [test_extract_preference] *)
Example test_extract_preference :
  let memories :=
    extract_memories "My preferred language is Kannada" "Got it!" 1 "test" fixed_clock in
  (content <$> List.filter (fun m => String.eqb (mem_type m) "preference") memories)
  = ["My preferred language is Kannada"; "language is Kannada"].
Proof. by vm_compute. Qed.

(** [test_extract_constraint] *)
Example test_extract_constraint :
  let memories :=
    extract_memories "Please call me only after 11 AM" "I'll remember that" 1 "test"
                     fixed_clock in
  ((fun m => (content m, key m, value m))
     <$> List.filter (fun m => String.eqb (mem_type m) "constraint") memories)
  = [ ("only after 11 AM", "time_constraint", Some "after 11 AM");
      ("after 11 AM", "time_constraint", Some "11 AM") ].
Proof. by vm_compute. Qed.

(** [test_extract_commitment] *)
Example test_extract_commitment :
  let memories :=
    extract_memories "Can you call me tomorrow?" "Sure" 1 "test" fixed_clock in
  ((fun m => (content m, value m))
     <$> List.filter (fun m => String.eqb (mem_type m) "commitment") memories)
  = [ ("call me tomorrow?", Some "me tomorrow?") ].
Proof. by vm_compute. Qed.

(** [test_deduplication] *)
Lemma C7_deduplicate_witness :
  length (deduplicate_memories [kannada; kannada; john]) = 2%nat
  ∧ deduplicate_memories [kannada; kannada; john] = [kannada; john].
Proof.
  destruct (C7_deduplicate_keeps_first_occurrences [kannada; kannada; john])
    as (Hfirst & _ & _ & _ & Hlen & _).
  split; [rewrite Hlen|rewrite Hfirst]; reflexivity.
Defined.

(** [test_store_and_retrieve_memory] *)
Example test_store_and_retrieve_memory :
  let '(st, id) := MemoryStorage.store_memory (MemoryStorage.init false) language_preference in
  0 < id ∧ (content ∘ fields <$> MemoryStorage.get_memory st id) = Some "language is Kannada".
Proof. by vm_compute. Qed.

(** Scenario 4 of the specification: nothing of a deleted session is
    listed. *)
Example delete_then_list :
  MemoryStorage.get_session_memories
    (MemoryStorage.delete_session_memories
       (store_of [language_preference; tea_preference]) "s1") "s1" None 0
  = [].
Proof. by vm_compute. Qed.

End Examples.

(* ===================================================================== *)
(** * The store: lookup, batches, deletion and its invariants *)
(* ===================================================================== *)

Section StoreOperations.
Import MemoryStorage.

(** ** Lookup by id *)

Lemma find_snoc {A} (f : A → bool) (l : list A) (x : A) :
  List.find f (l ++ [x]) =
  match List.find f l with
  | Some y => Some y
  | None => if f x then Some x else None
  end.
Proof. induction l as [|y l IH]; cbn; [done|]. by destruct (f y). Qed.

Lemma get_memory_None st id :
  get_memory st id = None ↔ ∀ r, r ∈ memories st → memory_id r ≠ id.
Proof.
  unfold get_memory. generalize (memories st). intros rows. split.
  - intros H r Hr%list_elem_of_In. apply (find_none _ _ H) in Hr. by apply Z.eqb_neq.
  - intros H. induction rows as [|r rows IH]; [done|]. cbn.
    rewrite (proj2 (Z.eqb_neq _ _)) by (apply H; left). apply IH.
    intros r' Hr'. apply H. by right.
Qed.

Lemma get_memory_Some_1 st id r :
  get_memory st id = Some r → r ∈ memories st ∧ memory_id r = id.
Proof.
  unfold get_memory. intros [Hr Hid]%find_some.
  split; [by apply list_elem_of_In|by apply Z.eqb_eq].
Qed.

Lemma get_memory_Some st id r :
  NoDup (memory_id <$> memories st) →
  get_memory st id = Some r ↔ r ∈ memories st ∧ memory_id r = id.
Proof.
  intros Hnd. split; [apply get_memory_Some_1|].
  unfold get_memory. revert Hnd. generalize (memories st). intros rows Hnd [Hr Hid].
  induction rows as [|x rows IH]; [by apply elem_of_nil in Hr|].
  cbn. rewrite fmap_cons in Hnd. apply NoDup_cons in Hnd as [Hx Hnd].
  destruct (Z.eqb_spec (memory_id x) id) as [Hxid|Hxid].
  - apply elem_of_cons in Hr as [->|Hr]; [done|].
    destruct Hx. rewrite Hxid, <- Hid. apply list_elem_of_fmap. by exists r.
  - apply elem_of_cons in Hr as [->|Hr]; [done|]. by apply IH.
Qed.

Lemma get_memory_outside st id :
  store_ok st → id <= 0 ∨ sqlite_sequence st < id → get_memory st id = None.
Proof.
  intros Hok Hid. apply get_memory_None. intros r Hr.
  pose proof (ids_positive st Hok r Hr). pose proof (ids_bounded st Hok r Hr). lia.
Qed.

(** X1.  Insert and look up.  After [store_memory] has answered with an
    id other than [-1], [get_memory] of that id gives back the record
    as it was stored, and the id named no row before; [get_memory] of
    every other id answers as before the insertion.  When the answer is
    [-1] the storage is unchanged.  An id that is not positive, or that
    the table has not issued yet, is looked up as [None]. *)
Theorem store_memory_then_get_memory (st : MemoryStorage.t) (m : Memory) :
  store_ok st →
  let st' := fst (store_memory st m) in
  let id := snd (store_memory st m) in
  (id = -1 → st' = st)
  ∧ (id ≠ -1 →
       get_memory st' id = Some {| memory_id := id; fields := m |}
       ∧ get_memory st id = None)
  ∧ (∀ id', id' ≠ id → get_memory st' id' = get_memory st id')
  ∧ (∀ id', id' <= 0 ∨ sqlite_sequence st' < id' → get_memory st' id' = None).
Proof.
  intros Hok. cbn zeta.
  pose proof (store_memory_ok st m Hok) as Hok'.
  pose proof (sequence_nonneg st Hok) as Hseq0.
  destruct (store_memory_cases st m)
    as [(Hs & _)|(st' & Hs & Hrows & Hseq & _)]; rewrite Hs in *; cbn [fst snd] in *.
  - split; [done|]. split; [done|]. split; [done|].
    intros id'. by apply get_memory_outside.
  - assert (get_memory st (sqlite_sequence st + 1) = None) as Hnew.
    { apply get_memory_outside; [done|lia]. }
    split; [lia|]. split; [|split].
    + intros _. split; [|done]. unfold get_memory in *.
      rewrite Hrows, find_snoc, Hnew. cbn. by rewrite Z.eqb_refl.
    + intros id' Hid'. unfold get_memory. rewrite Hrows, find_snoc.
      destruct (List.find _ (memories st)); [done|]. cbn.
      by rewrite (proj2 (Z.eqb_neq _ _)) by done.
    + intros id'. by apply get_memory_outside.
Qed.

Lemma store_memory_then_get_memory_witness :
  get_memory (fst (store_memory (store_of [language_preference]) tea_preference)) 2
  = Some {| memory_id := 2; fields := tea_preference |}
  ∧ get_memory (store_of [language_preference]) 2 = None.
Proof.
  destruct (store_memory_then_get_memory
              (store_of [language_preference]) tea_preference
              (store_memories_ok (init false) [language_preference] (init_ok false)))
    as (_ & Hget & _).
  apply Hget. vm_compute. discriminate.
Defined.

(** ** Batches *)

(** What an insertion does to the similarity index. *)
Lemma store_memory_index st m :
  let st' := fst (store_memory st m) in
  vector_search_enabled st' = vector_search_enabled st
  ∧ ((snd (store_memory st m) = -1
      ∧ faiss_index st' = faiss_index st ∧ memory_id_map st' = memory_id_map st)
     ∨ (snd (store_memory st m) = sqlite_sequence st + 1
        ∧ faiss_index st'
          = faiss_index st ++ (if vector_search_enabled st then [content m] else [])
        ∧ memory_id_map st'
          = memory_id_map st
            ++ (if vector_search_enabled st then [sqlite_sequence st + 1] else []))).
Proof.
  unfold store_memory, _add_to_vector_index.
  destruct (existsb _ _); cbn; [split; [done|]; by left|].
  destruct (vector_search_enabled st) eqn:E; cbn; rewrite ?E, ?app_nil_r;
    (split; [done|]; by right).
Qed.

Lemma store_memories_spec st ms st' ids :
  store_ok st → store_memories st ms = (st', ids) →
  ∃ stored,
    memories st' = memories st ++ stored
    ∧ memory_id <$> stored = ids
    ∧ sublist (fields <$> stored) ms
    ∧ ids = seqZ (sqlite_sequence st + 1) (Z.of_nat (length ids))
    ∧ sqlite_sequence st' = sqlite_sequence st + Z.of_nat (length ids)
    ∧ (∀ m, m ∈ ms → ∃ r, r ∈ memories st' ∧ unique_tuple (fields r) = unique_tuple m)
    ∧ (∀ m, m ∈ ms → value m = None → m ∈ fields <$> stored)
    ∧ vector_search_enabled st' = vector_search_enabled st
    ∧ faiss_index st'
      = faiss_index st
        ++ (if vector_search_enabled st
            then (fun r => content (fields r)) <$> stored else [])
    ∧ memory_id_map st'
      = memory_id_map st ++ (if vector_search_enabled st then ids else []).
Proof.
  revert st st' ids. induction ms as [|m ms IH]; intros st st' ids Hok Hst.
  - cbn in Hst. injection Hst as <- <-. exists []. cbn. rewrite !app_nil_r.
    split; [done|]. split; [done|]. split; [done|]. split; [done|].
    split; [lia|]. split; [|split; [|split; [done|split]]].
    + intros m Hm. by apply elem_of_nil in Hm.
    + intros m Hm. by apply elem_of_nil in Hm.
    + destruct (vector_search_enabled st); cbn; by rewrite app_nil_r.
    + destruct (vector_search_enabled st); cbn; by rewrite app_nil_r.
  - cbn [store_memories] in Hst.
    pose proof (store_memory_ok st m Hok) as Hok1.
    pose proof (store_memory_index st m) as (Hvec & Hindex).
    destruct (store_memory_cases st m)
      as [(Hs & Hv & r0 & Hr0 & Ht0)|(st1 & Hs & Hrows & Hseq & _)];
      rewrite Hs in *; cbn [fst snd] in *.
    + destruct (store_memories st ms) as [st2 ids2] eqn:Hms.
      cbn in Hst. injection Hst as <- <-.
      destruct (IH st st2 ids2 Hok Hms)
        as (stored & Hmem & Hids & Hsub & Hseq & Hcount & Hall & Hnone & Hrest).
      exists stored. split; [done|]. split; [done|].
      split; [by apply sublist_cons|]. split; [done|]. split; [done|].
      split; [|split; [|done]].
      * intros m' [->|Hm']%elem_of_cons; [|by apply Hall].
        exists r0. split; [|done]. rewrite Hmem. apply elem_of_app. by left.
      * intros m' [->|Hm']%elem_of_cons Hval; [|by apply Hnone].
        rewrite Hval in Hv. by destruct Hv.
    + destruct (store_memories st1 ms) as [st2 ids2] eqn:Hms.
      pose proof (sequence_nonneg st Hok) as Hseq0.
      rewrite (proj2 (Z.eqb_neq _ _)) in Hst by lia.
      injection Hst as <- <-.
      destruct (IH st1 st2 ids2 Hok1 Hms)
        as (stored & Hmem & Hids & Hsub & Hseq2 & Hcount & Hall & Hnone
            & Hvec2 & Hidx2 & Hmap2).
      destruct Hindex as [(Hbad & _)|(_ & Hidx1 & Hmap1)]; [lia|].
      exists ({| memory_id := sqlite_sequence st + 1; fields := m |} :: stored).
      rewrite Hseq in *. cbn [length].
      split; [by rewrite Hmem, Hrows, <- app_assoc|].
      split; [by rewrite fmap_cons, Hids|].
      split; [rewrite fmap_cons; by apply sublist_skip|].
      split; [|split; [lia|split; [|split; [|split; [congruence|split]]]]].
      * rewrite seqZ_cons by lia. f_equal. rewrite Hseq2 at 1. f_equal; lia.
      * intros m' [->|Hm']%elem_of_cons; [|by apply Hall].
        exists {| memory_id := sqlite_sequence st + 1; fields := m |}.
        split; [|reflexivity]. rewrite Hmem, Hrows.
        apply elem_of_app. left. apply elem_of_app. right. by left.
      * intros m' [->|Hm']%elem_of_cons Hval; rewrite fmap_cons; [by left|].
        right. by apply Hnone.
      * rewrite Hidx2, Hidx1, Hvec.
        destruct (vector_search_enabled st); by rewrite <- app_assoc.
      * rewrite Hmap2, Hmap1, Hvec.
        destruct (vector_search_enabled st); by rewrite <- app_assoc.
Qed.

(** X2.  [store_memories] appends one row for every record it accepts,
    in the order of the batch, and returns exactly the ids of those
    rows: the consecutive integers after the AUTOINCREMENT counter (a
    rejected duplicate uses up no id and leaves no [-1] in the list).
    Afterwards the tuple of every record of the batch is in the table,
    and every record without a value has been stored.  With the
    similarity backend enabled each new row is indexed under its id. *)
Theorem store_memories_appends_accepted_records
        (st : MemoryStorage.t) (ms : list Memory) :
  store_ok st →
  let st' := fst (store_memories st ms) in
  let ids := snd (store_memories st ms) in
  ∃ stored,
    memories st' = memories st ++ stored
    ∧ memory_id <$> stored = ids
    ∧ sublist (fields <$> stored) ms
    ∧ ids = seqZ (sqlite_sequence st + 1) (Z.of_nat (length ids))
    ∧ sqlite_sequence st' = sqlite_sequence st + Z.of_nat (length ids)
    ∧ (∀ m, m ∈ ms → ∃ r, r ∈ memories st' ∧ unique_tuple (fields r) = unique_tuple m)
    ∧ (∀ m, m ∈ ms → value m = None → m ∈ fields <$> stored)
    ∧ vector_search_enabled st' = vector_search_enabled st
    ∧ faiss_index st'
      = faiss_index st
        ++ (if vector_search_enabled st
            then (fun r => content (fields r)) <$> stored else [])
    ∧ memory_id_map st'
      = memory_id_map st ++ (if vector_search_enabled st then ids else []).
Proof.
  intros Hok. cbn zeta. apply store_memories_spec; [done|].
  by destruct (store_memories st ms).
Qed.

Lemma store_memories_appends_accepted_records_witness :
  ∃ stored,
    memories (fst (store_memories (store_of [language_preference])
                     [language_preference; tea_preference; commitment_without_value]))
    = memories (store_of [language_preference]) ++ stored
    ∧ memory_id <$> stored
      = snd (store_memories (store_of [language_preference])
               [language_preference; tea_preference; commitment_without_value])
    ∧ memory_id <$> stored = [2; 3].
Proof.
  destruct (store_memories_appends_accepted_records
              (store_of [language_preference])
              [language_preference; tea_preference; commitment_without_value]
              (store_memories_ok (init false) [language_preference] (init_ok false)))
    as (stored & Hmem & Hids & _).
  exists stored. split; [exact Hmem|]. split; [exact Hids|].
  rewrite Hids. reflexivity.
Defined.

(** ** Deletion *)

Lemma filter_filter_absorb {A} (f g : A → bool) (l : list A) :
  (∀ x, f x = true → g x = true) →
  List.filter f (List.filter g l) = List.filter f l.
Proof.
  intros Hfg. induction l as [|x l IH]; [done|]. cbn.
  destruct (g x) eqn:Eg; cbn.
  - by rewrite IH.
  - destruct (f x) eqn:Ef; [|done]. apply Hfg in Ef. congruence.
Qed.

Lemma filter_filter_none {A} (f g : A → bool) (l : list A) :
  (∀ x, g x = true → f x = false) →
  List.filter f (List.filter g l) = [].
Proof.
  intros Hfg. induction l as [|x l IH]; [done|]. cbn.
  destruct (g x) eqn:Eg; cbn; [|done]. by rewrite (Hfg x Eg).
Qed.

(** X3.  [delete_session_memories] removes exactly the rows of the
    session: the session lists as empty afterwards, every other session
    lists as before, and the rows that remain are unchanged.  The
    AUTOINCREMENT counter, the similarity index and its id map are not
    touched (the index keeps its entries for the deleted rows), and a
    second deletion changes nothing. *)
Theorem delete_session_memories_removes_the_session
        (st : MemoryStorage.t) (session : string) :
  let st' := delete_session_memories st session in
  (∀ memory_type min_confidence,
      get_session_memories st' session memory_type min_confidence = [])
  ∧ (∀ other memory_type min_confidence,
        other ≠ session →
        get_session_memories st' other memory_type min_confidence
        = get_session_memories st other memory_type min_confidence)
  ∧ (∀ r, r ∈ memories st' ↔ r ∈ memories st ∧ session_id (fields r) ≠ session)
  ∧ sqlite_sequence st' = sqlite_sequence st
  ∧ vector_search_enabled st' = vector_search_enabled st
  ∧ faiss_index st' = faiss_index st
  ∧ memory_id_map st' = memory_id_map st
  ∧ delete_session_memories st' session = st'.
Proof.
  cbn zeta. split; [|split; [|split]].
  - intros memory_type min_confidence. unfold get_session_memories. cbn.
    rewrite filter_filter_none; [done|].
    intros r Hr. unfold session_memories_where.
    destruct (String.eqb_spec (session_id (fields r)) session); [done|done].
  - intros other memory_type min_confidence Hother. unfold get_session_memories. cbn.
    rewrite filter_filter_absorb; [done|].
    intros r. unfold session_memories_where.
    rewrite !andb_true_iff, String.eqb_eq. intros [[Hs _] _].
    apply negb_true_iff, String.eqb_neq. congruence.
  - intros r. cbn. rewrite list_elem_of_In, filter_In, <- list_elem_of_In.
    by rewrite negb_true_iff, String.eqb_neq.
  - repeat split; try done.
    unfold delete_session_memories at 1. cbn.
    rewrite filter_filter_absorb by done. done.
Qed.

(** X4.  Ids are not reused.  An id issued after a session has been
    deleted is above every id the table held before the deletion, the
    ids of the deleted rows included; so an entry that the id map of the
    similarity index keeps for a deleted row never comes to name a row
    inserted later. *)
Theorem deleted_ids_are_not_reused
        (st : MemoryStorage.t) (session : string) (m : Memory) :
  store_ok st → index_ok st →
  let st1 := delete_session_memories st session in
  let id := snd (store_memory st1 m) in
  sqlite_sequence st1 = sqlite_sequence st
  ∧ (id = -1
     ∨ ((∀ r, r ∈ memories st → memory_id r < id)
        ∧ (∀ id', id' ∈ memory_id_map st → id' < id))).
Proof.
  intros Hok Hidx. cbn zeta. split; [done|].
  destruct (store_memory_cases (delete_session_memories st session) m)
    as [(Hs & _)|(st' & Hs & _)]; rewrite Hs; cbn [snd]; [by left|].
  change (sqlite_sequence (delete_session_memories st session))
    with (sqlite_sequence st).
  right. split.
  - intros r Hr. pose proof (ids_bounded st Hok r Hr). lia.
  - intros id' Hid'. pose proof (index_ids_issued st Hidx id' Hid'). lia.
Qed.

(** ** Listing a session *)

Lemma turn_order_total (a b : Row) :
  (source_turn (fields a) <=? source_turn (fields b)) = true
  ∨ (source_turn (fields b) <=? source_turn (fields a)) = true.
Proof. rewrite !Z.leb_le. lia. Qed.

Lemma turn_order_trans (a b c : Row) :
  (source_turn (fields a) <=? source_turn (fields b)) = true →
  (source_turn (fields b) <=? source_turn (fields c)) = true →
  (source_turn (fields a) <=? source_turn (fields c)) = true.
Proof. rewrite !Z.leb_le. lia. Qed.

Lemma get_session_memories_sorted st session memory_type min_confidence :
  StronglySorted turn_ascending
                 (get_session_memories st session memory_type min_confidence).
Proof.
  unfold get_session_memories.
  eapply StronglySorted_weaken;
    [|apply stable_sort_sorted; [apply turn_order_total|apply turn_order_trans]].
  intros a b Hab. by apply Z.leb_le.
Qed.

Lemma session_memories_where_selected session memory_type min_confidence r :
  session_memories_where session memory_type min_confidence r = true ↔
  session_id (fields r) = session
  ∧ type_selected memory_type r
  ∧ (min_confidence <= confidence (fields r))%Q.
Proof.
  unfold session_memories_where, type_selected.
  rewrite !andb_true_iff, String.eqb_eq, Qle_bool_iff.
  destruct memory_type as [[|c ty]|]; cbn [truthy].
  - intuition.
  - rewrite String.eqb_eq. split.
    + intros [[? ->] ?]. auto.
    + intros (? & [?|[?|[= ->]]] & ?); done.
  - intuition.
Qed.

Lemma filter_sublist_bool {A} (f : A → bool) (l : list A) :
  sublist (List.filter f l) l.
Proof.
  induction l as [|x l IH]; [done|]. cbn. destruct (f x); by constructor.
Qed.

Lemma get_session_memories_NoDup st session memory_type min_confidence :
  NoDup (memory_id <$> memories st) →
  NoDup (memory_id <$> get_session_memories st session memory_type min_confidence).
Proof.
  intros Hnd. unfold get_session_memories.
  rewrite (fmap_Permutation _ _ _ (stable_sort_perm _ _)).
  eapply sublist_NoDup; [exact Hnd|]. apply fmap_sublist, filter_sublist_bool.
Qed.

Lemma get_session_memories_selected
      st session memory_type min_confidence r :
  r ∈ get_session_memories st session memory_type min_confidence ↔
  r ∈ memories st
  ∧ session_id (fields r) = session
  ∧ type_selected memory_type r
  ∧ (min_confidence <= confidence (fields r))%Q.
Proof.
  unfold get_session_memories.
  rewrite stable_sort_elem, list_elem_of_In, filter_In, <- list_elem_of_In.
  by rewrite session_memories_where_selected.
Qed.

(** X5.  [get_session_memories] lists, in ascending order of source
    turn, the rows of the table that belong to the session, have the
    requested type and reach the confidence threshold, each of them
    once.  No type and the empty type string both select every type. *)
Theorem get_session_memories_lists_the_selection
        (st : MemoryStorage.t) (session : string) (memory_type : option string)
        (min_confidence : Q) :
  let res := get_session_memories st session memory_type min_confidence in
  StronglySorted turn_ascending res
  ∧ (∀ r, r ∈ res ↔
          r ∈ memories st
          ∧ session_id (fields r) = session
          ∧ type_selected memory_type r
          ∧ (min_confidence <= confidence (fields r))%Q)
  ∧ (NoDup (memory_id <$> memories st) → NoDup (memory_id <$> res))
  ∧ get_session_memories st session (Some "") min_confidence
    = get_session_memories st session None min_confidence.
Proof.
  cbn zeta. split; [apply get_session_memories_sorted|]. split; [|split; [|done]].
  - intros r. apply get_session_memories_selected.
  - apply get_session_memories_NoDup.
Qed.

Lemma get_session_memories_lists_the_selection_witness :
  NoDup (memory_id <$> get_session_memories
                         (store_of [language_preference; tea_preference;
                                    time_constraint])
                         "s1" (Some "") 0).
Proof.
  destruct (get_session_memories_lists_the_selection
              (store_of [language_preference; tea_preference; time_constraint])
              "s1" (Some "") 0) as (_ & _ & Hnd & _).
  apply Hnd.
  apply (ids_distinct _ (store_memories_ok (init false) _ (init_ok false))).
Defined.

(** ** The invariants of every reachable store *)


Lemma store_memory_tuples_unique_by_id st m :
  tuples_unique_by_id st → tuples_unique_by_id (fst (store_memory st m)).
Proof.
  intros Huniq. destruct (store_memory_cases st m)
    as [(Hs & _)|(st' & Hs & Hrows & _ & Hfresh)]; rewrite Hs; cbn [fst]; [done|].
  intros r r'. rewrite Hrows.
  intros [Hr| ->%list_elem_of_singleton]%elem_of_app
         [Hr'| ->%list_elem_of_singleton]%elem_of_app Hv Ht; cbn in *.
  - by apply Huniq.
  - destruct Hfresh. split.
    + unfold unique_tuple in Ht. injection Ht as _ _ _ <- _. done.
    + by exists r.
  - destruct Hfresh. split; [done|]. by exists r'.
  - done.
Qed.

Lemma touch_tuple now id r :
  unique_tuple (fields (touch now id r)) = unique_tuple (fields r)
  ∧ value (fields (touch now id r)) = value (fields r)
  ∧ confidence (fields (touch now id r)) = confidence (fields r)
  ∧ access_count (fields r) <= access_count (fields (touch now id r)).
Proof. unfold touch. destruct (memory_id r =? id); cbn; repeat split; lia. Qed.

Lemma store_memory_index_ok st m :
  store_ok st → index_ok st → index_ok (fst (store_memory st m)).
Proof.
  intros Hok Hidx. pose proof (sequence_nonneg st Hok) as Hseq0.
  pose proof (store_memory_index st m) as (Hvec & Hindex).
  destruct (store_memory_cases st m)
    as [(Hs & _)|(st' & Hs & _ & Hseq & _)]; rewrite Hs in *; cbn [fst snd] in *;
    [done|].
  destruct Hindex as [(Hbad & _)|(_ & Hfaiss & Hmap)]; [lia|].
  destruct Hidx as [Hlock Hissued Hdistinct Hdisabled].
  split; rewrite ?Hfaiss, ?Hmap, ?Hseq, ?Hvec.
  - rewrite !length_app, Hlock. by destruct (vector_search_enabled st).
  - intros id [Hid|Hid]%elem_of_app.
    + specialize (Hissued id Hid). lia.
    + destruct (vector_search_enabled st);
        [apply list_elem_of_singleton in Hid; lia|by apply elem_of_nil in Hid].
  - apply NoDup_app. split; [done|]. split.
    + intros id Hid Hnew. specialize (Hissued id Hid).
      destruct (vector_search_enabled st);
        [apply list_elem_of_singleton in Hnew; lia|by apply elem_of_nil in Hnew].
    + destruct (vector_search_enabled st); [apply NoDup_singleton|constructor].
  - intros Hoff. rewrite Hoff. rewrite Hdisabled by done. done.
Qed.

Lemma reachable_invariants st :
  reachable st →
  store_ok st ∧ tuples_unique_by_id st ∧ index_ok st
  ∧ access_counts_nonneg st ∧ confidences_nonneg st.
Proof.
  induction 1 as [vector_search
                 |st m _ (Hok & Huniq & Hidx & Hacc & Hconf) Hm_acc Hm_conf
                 |st now id _ (Hok & Huniq & Hidx & Hacc & Hconf)
                 |st session _ (Hok & Huniq & Hidx & Hacc & Hconf)].
  - split; [apply init_ok|]. split; [|split; [|split]].
    + intros r r' Hr. by apply elem_of_nil in Hr.
    + split; cbn; [done| |constructor|done]. intros id Hid. by apply elem_of_nil in Hid.
    + intros r Hr. by apply elem_of_nil in Hr.
    + intros r Hr. by apply elem_of_nil in Hr.
  - split; [by apply store_memory_ok|].
    split; [by apply store_memory_tuples_unique_by_id|].
    split; [by apply store_memory_index_ok|].
    destruct (store_memory_cases st m)
      as [(Hs & _)|(st' & Hs & Hrows & _)]; rewrite Hs; cbn [fst]; [done|].
    split; intros r; rewrite Hrows;
      (intros [Hr| ->%list_elem_of_singleton]%elem_of_app; [auto|done]).
  - split; [by apply update_memory_access_ok|]. split; [|split; [|split]].
    + intros r r'. cbn.
      intros (r0 & -> & Hr0)%list_elem_of_fmap (r0' & -> & Hr0')%list_elem_of_fmap.
      rewrite !touch_id.
      destruct (touch_tuple now id r0) as (-> & -> & _).
      destruct (touch_tuple now id r0') as (-> & _). by apply Huniq.
    + by destruct Hidx.
    + intros r. cbn. intros (r0 & -> & Hr0)%list_elem_of_fmap.
      destruct (touch_tuple now id r0) as (_ & _ & _ & Hle).
      specialize (Hacc r0 Hr0). lia.
    + intros r. cbn. intros (r0 & -> & Hr0)%list_elem_of_fmap.
      destruct (touch_tuple now id r0) as (_ & _ & -> & _). by apply Hconf.
  - assert (∀ r, r ∈ memories (delete_session_memories st session) → r ∈ memories st)
      as Hsub.
    { intros r. cbn. rewrite list_elem_of_In, filter_In, <- list_elem_of_In. tauto. }
    split; [by apply delete_session_memories_ok|]. split; [|split; [|split]].
    + intros r r' Hr Hr'. apply Huniq; by apply Hsub.
    + by destruct Hidx.
    + intros r Hr. by apply Hacc, Hsub.
    + intros r Hr. by apply Hconf, Hsub.
Qed.


Lemma two_sessions_reachable : reachable two_sessions.
Proof.
  apply reachable_store_memory; [|reflexivity|discriminate].
  apply reachable_store_memory; [|reflexivity|discriminate].
  apply reachable_init.
Qed.


Lemma deleted_ids_are_not_reused_witness :
  snd (store_memory (delete_session_memories two_sessions "s2") tea_preference) = -1
  ∨ ((∀ r, r ∈ memories two_sessions →
           memory_id r
           < snd (store_memory (delete_session_memories two_sessions "s2")
                               tea_preference))
     ∧ (∀ id', id' ∈ memory_id_map two_sessions →
               id' < snd (store_memory (delete_session_memories two_sessions "s2")
                                       tea_preference))).
Proof.
  destruct (reachable_invariants two_sessions two_sessions_reachable)
    as (Hok & _ & Hidx & _).
  destruct (deleted_ids_are_not_reused two_sessions "s2" tea_preference Hok Hidx)
    as [_ Hids].
  exact Hids.
Defined.

End StoreOperations.

(* ===================================================================== *)
(** * The two search paths of [search_memories_by_content] *)
(* ===================================================================== *)

Section SimilaritySearch.
Import MemoryStorage.

Variable index_search : list string -> string -> Z -> list Z.

Lemma py_index_None {A} (l : list A) (i : Z) :
  i < Z.of_nat (length l) → py_index l i = None → i < - Z.of_nat (length l).
Proof.
  unfold py_index. intros Hlt.
  destruct (Z.leb_spec 0 i) as [Hi|Hi].
  - intros Hnone%lookup_ge_None. lia.
  - destruct (Z.leb_spec 0 (Z.of_nat (length l) + i)) as [Hj|Hj]; [|lia].
    intros Hnone%lookup_ge_None. lia.
Qed.

Lemma py_index_elem {A} (l : list A) (i : Z) (x : A) : py_index l i = Some x → x ∈ l.
Proof.
  unfold py_index. repeat case_match; [| |done]; apply list_elem_of_lookup_2.
Qed.

(** The loop over the positions found: rows of the table, of the
    session asked for, indexed; it stops at the append that reaches
    [top_k], and fails only on a position before the start of the id
    map. *)
Lemma collect_hits_spec st session top_k indices found :
  (∀ r, r ∈ found →
        r ∈ memories st ∧ session_selected session r
        ∧ memory_id r ∈ memory_id_map st) →
  Z.of_nat (length found) < Z.max 1 top_k →
  match collect_hits st session top_k indices found with
  | Some res =>
      (∀ r, r ∈ res →
            r ∈ memories st ∧ session_selected session r
            ∧ memory_id r ∈ memory_id_map st)
      ∧ Z.of_nat (length res) <= Z.max 1 top_k
  | None =>
      ∃ idx, idx ∈ indices ∧ idx < - Z.of_nat (length (memory_id_map st))
  end.
Proof.
  revert found. induction indices as [|idx indices IH]; intros found Hfound Hlen.
  - cbn. split; [done|lia].
  - assert (match collect_hits st session top_k indices found with
            | Some res =>
                (∀ r, r ∈ res →
                      r ∈ memories st ∧ session_selected session r
                      ∧ memory_id r ∈ memory_id_map st)
                ∧ Z.of_nat (length res) <= Z.max 1 top_k
            | None =>
                ∃ idx', idx' ∈ idx :: indices
                        ∧ idx' < - Z.of_nat (length (memory_id_map st))
            end) as Hskip.
    { specialize (IH found Hfound Hlen).
      destruct (collect_hits st session top_k indices found); [done|].
      destruct IH as (idx' & Hidx' & Hlt). exists idx'. split; [by right|done]. }
    cbn [collect_hits].
    destruct (Z.ltb_spec idx (Z.of_nat (length (memory_id_map st)))) as [Hidx|Hidx];
      [|done].
    destruct (py_index (memory_id_map st) idx) as [id|] eqn:Hpy.
    + destruct (get_memory st id) as [memory|] eqn:Hget; [|done].
      apply get_memory_Some_1 in Hget as [Hmem Hid].
      assert (memory_id memory ∈ memory_id_map st) as Hmap.
      { rewrite Hid. by eapply py_index_elem. }
      assert (match session with
              | Some sid => String.eqb (session_id (fields memory)) sid
              | None => true
              end = true ↔ session_selected session memory) as Hsel.
      { unfold session_selected. destruct session; [apply String.eqb_eq|done]. }
      destruct (match session with Some _ => _ | None => _ end); [|done].
      assert (∀ r, r ∈ found ++ [memory] →
                   r ∈ memories st ∧ session_selected session r
                   ∧ memory_id r ∈ memory_id_map st) as Hfound'.
      { intros r [Hr| ->%list_elem_of_singleton]%elem_of_app; [by apply Hfound|].
        split; [done|]. split; [by apply Hsel|done]. }
      destruct (Z.leb_spec top_k (Z.of_nat (length (found ++ [memory])))) as [Hfull|Hmore].
      * split; [done|]. rewrite length_app in *. cbn in *. lia.
      * specialize (IH (found ++ [memory]) Hfound').
        destruct (collect_hits st session top_k indices (found ++ [memory])).
        -- apply IH. lia.
        -- destruct IH as (idx' & Hidx' & Hlt); [lia|].
           exists idx'. split; [by right|done].
    + exists idx. split; [left|]. by apply py_index_None.
Qed.

(** X7.  The similarity path of [search_memories_by_content].  With the
    backend enabled the search returns only rows that are in the table
    now (an index entry left behind by a deleted row is skipped), that
    are listed in the id map, and that belong to the session when one
    is given (here the test is [is None]: an empty string is a session
    id); it returns at most [top_k] of them, and at most one when
    [top_k] is not positive.  The only failure is an [IndexError], for a
    position before the start of the id map. *)
Theorem search_memories_by_content_returns_live_rows
        (st : MemoryStorage.t) (query : string) (session : option string) (top_k : Z) :
  vector_search_enabled st = true →
  match search_memories_by_content index_search st query session top_k with
  | Some res =>
      (∀ r, r ∈ res →
            r ∈ memories st ∧ session_selected session r
            ∧ memory_id r ∈ memory_id_map st)
      ∧ Z.of_nat (length res) <= Z.max 1 top_k
  | None =>
      ∃ idx,
        idx ∈ index_search (faiss_index st) query
                (Z.min (top_k * 2) (Z.of_nat (length (memory_id_map st))))
        ∧ idx < - Z.of_nat (length (memory_id_map st))
  end.
Proof.
  intros Hvec. unfold search_memories_by_content. rewrite Hvec. cbn [negb].
  apply collect_hits_spec; [|cbn; lia].
  intros r Hr. by apply elem_of_nil in Hr.
Qed.

End SimilaritySearch.

Section SearchExamples.
Import MemoryStorage.

(** The index answers with the positions of the third, the second and
    the first text, and with [-1]; the second row has been deleted. *)
Lemma search_memories_by_content_returns_live_rows_witness :
  match search_memories_by_content (fixed_hits [2; 1; 0; -1])
          (delete_session_memories indexed_store "s2") "call" (Some "s1") 5 with
  | Some res =>
      (∀ r, r ∈ res →
            r ∈ memories (delete_session_memories indexed_store "s2")
            ∧ session_selected (Some "s1") r
            ∧ memory_id r ∈ memory_id_map (delete_session_memories indexed_store "s2"))
      ∧ Z.of_nat (length res) <= Z.max 1 5
  | None =>
      ∃ idx,
        idx ∈ fixed_hits [2; 1; 0; -1]
                (faiss_index (delete_session_memories indexed_store "s2")) "call"
                (Z.min (5 * 2)
                   (Z.of_nat (length (memory_id_map
                                        (delete_session_memories indexed_store "s2")))))
        ∧ idx < - Z.of_nat (length (memory_id_map
                                      (delete_session_memories indexed_store "s2")))
  end.
Proof.
  apply (search_memories_by_content_returns_live_rows
           (fixed_hits [2; 1; 0; -1])
           (delete_session_memories indexed_store "s2") "call" (Some "s1") 5).
  reflexivity.
Defined.

(** The same search, run: the hit on the deleted row is skipped, and
    the position [-1] is read from the end of the id map. *)
Lemma search_skips_the_deleted_row :
  (memory_id <$>
     default [] (search_memories_by_content (fixed_hits [2; 1; 0; -1])
                   (delete_session_memories indexed_store "s2") "call" (Some "s1") 5))
  = [3; 1; 3].
Proof. by vm_compute. Qed.

(** ** The text path on an empty query *)

Lemma like_everything (s : string) : like s "%%" = true.
Proof.
  unfold like. change (list_ascii_of_string "%%") with ["%"%char; "%"%char].
  by rewrite like_chars_percent, like_chars_trailing_percent.
Qed.

(** X8.  The text path on an empty query.  [_text_search] of the empty
    string in a named session selects every row of the session: it
    returns the [top_k] most confident of them, highest confidence
    first, and all of them when the session holds no more than
    [top_k]. *)
Theorem text_search_of_the_empty_query
        (st : MemoryStorage.t) (sid : string) (top_k : Z) :
  sid ≠ "" → 0 <= top_k →
  let res := _text_search st "" (Some sid) top_k in
  (∀ r, r ∈ res → r ∈ memories st ∧ session_id (fields r) = sid)
  ∧ StronglySorted confidence_descending res
  ∧ Z.of_nat (length res) = Z.min top_k (Z.of_nat (length (session_rows st sid)))
  ∧ (Z.of_nat (length (session_rows st sid)) <= top_k →
     ∀ r, r ∈ memories st → session_id (fields r) = sid → r ∈ res).
Proof.
  intros Hsid Hk. cbn zeta. unfold _text_search.
  change ("%" +:+ "" +:+ "%") with "%%".
  assert (List.filter (text_search_where (Some sid) "%%") (memories st)
          = session_rows st sid) as ->.
  { apply filter_bool_prop. intros r. unfold text_search_where.
    assert (truthy (Some sid) = Some sid) as -> by (by destruct sid).
    by rewrite like_everything, orb_true_l, andb_true_r, String.eqb_eq. }
  set (sorted := stable_sort _ _).
  assert (∀ r, r ∈ sorted ↔ r ∈ memories st ∧ session_id (fields r) = sid) as Hin.
  { intros r. unfold sorted, session_rows.
    rewrite stable_sort_elem, list_elem_of_filter. tauto. }
  assert (length sorted = length (session_rows st sid)) as Hlen.
  { apply stable_sort_length. }
  split; [|split; [|split]].
  - intros r Hr%limit_elem. by apply Hin.
  - apply limit_sorted. unfold sorted.
    eapply StronglySorted_weaken;
      [|apply stable_sort_sorted;
        [intros; apply confidence_order_total|intros ???; apply confidence_order_trans]].
    intros a b Hab. by apply Qle_bool_iff.
  - unfold limit. destruct (Z.ltb_spec top_k 0); [lia|].
    rewrite length_take, Hlen. lia.
  - intros Hall r Hr Hs. rewrite limit_all by lia. by apply Hin.
Qed.

Lemma text_search_of_the_empty_query_witness :
  Z.of_nat (length (_text_search
                      (store_of [language_preference; tea_preference; time_constraint])
                      "" (Some "s1") 1))
  = Z.min 1 (Z.of_nat (length (session_rows
                                 (store_of [language_preference; tea_preference;
                                            time_constraint]) "s1"))).
Proof.
  destruct (text_search_of_the_empty_query
              (store_of [language_preference; tea_preference; time_constraint])
              "s1" 1) as (_ & _ & Hlen & _).
  - discriminate.
  - lia.
  - exact Hlen.
Defined.

End SearchExamples.

(* ===================================================================== *)
(** * The relevance score and the ranked retrieval *)
(* ===================================================================== *)

Section Similarity.
Import MemoryStorage MemoryRetriever.

Lemma _calculate_semantic_similarity_unfold a b :
  _calculate_semantic_similarity a b =
  if bool_decide (content_words a = ∅) || bool_decide (content_words b = ∅) then 0%Q
  else if 0 <? Z.of_nat (size (content_words a ∪ content_words b))
       then Qred (inject_Z (Z.of_nat (size (content_words a ∩ content_words b)))
                  / inject_Z (Z.of_nat (size (content_words a ∪ content_words b))))
       else 0%Q.
Proof. reflexivity. Qed.

Lemma jaccard_range (i u : Z) :
  0 <= i <= u → 0 < u → (0 <= Qred (inject_Z i / inject_Z u) <= 1)%Q.
Proof.
  intros Hi Hu. rewrite Qred_correct.
  assert (inject_Z 0 < inject_Z u)%Q as Hu' by (by rewrite <- Zlt_Qlt).
  assert (inject_Z 0 <= inject_Z i)%Q as Hi0 by (rewrite <- Zle_Qle; lia).
  assert (inject_Z i <= inject_Z u)%Q as Hiu by (rewrite <- Zle_Qle; lia).
  change (inject_Z 0) with 0%Q in Hu', Hi0.
  split.
  - apply Qle_shift_div_l; [done|]. by rewrite Qmult_0_l.
  - apply Qle_shift_div_r; [done|]. by rewrite Qmult_1_l.
Qed.

Lemma _calculate_semantic_similarity_range a b :
  (0 <= _calculate_semantic_similarity a b <= 1)%Q.
Proof.
  rewrite _calculate_semantic_similarity_unfold.
  destruct (_ || _); [done|].
  destruct (Z.ltb_spec 0 (Z.of_nat (size (content_words a ∪ content_words b))));
    [|done].
  apply jaccard_range; [|done]. split; [lia|].
  apply inj_le, subseteq_size.
  etrans; [apply intersection_subseteq_l|apply union_subseteq_l].
Qed.

(** X9.  [_calculate_semantic_similarity] is the Jaccard index of the
    two sets of words (lower-cased, without stopwords): a number between
    0 and 1 that does not depend on the order of its arguments; it is 0
    when either text has no word left or when the texts share no word,
    and 1 when both texts have the same non-empty set of words. *)
Theorem semantic_similarity_is_a_jaccard_index (a b : string) :
  (0 <= _calculate_semantic_similarity a b <= 1)%Q
  ∧ _calculate_semantic_similarity a b = _calculate_semantic_similarity b a
  ∧ (content_words a = ∅ ∨ content_words b = ∅ →
     _calculate_semantic_similarity a b = 0%Q)
  ∧ (content_words a ## content_words b →
     _calculate_semantic_similarity a b = 0%Q)
  ∧ (content_words a = content_words b → content_words a ≠ ∅ →
     _calculate_semantic_similarity a b = 1%Q).
Proof.
  split; [apply _calculate_semantic_similarity_range|].
  rewrite !_calculate_semantic_similarity_unfold.
  split; [|split; [|split]].
  - rewrite (comm_L (∪) (content_words b)), (comm_L (∩) (content_words b)).
    by rewrite orb_comm.
  - intros [Ha|Hb].
    + by rewrite (bool_decide_eq_true_2 _ Ha).
    + by rewrite (bool_decide_eq_true_2 _ Hb), orb_true_r.
  - intros Hdisj. destruct (_ || _); [done|].
    apply disjoint_intersection_L in Hdisj. rewrite Hdisj.
    rewrite size_empty. by destruct (0 <? _).
  - intros <- Hne. rewrite bool_decide_eq_false_2 by done. cbn [orb].
    rewrite union_idemp_L, intersection_idemp_L.
    assert (0 < Z.of_nat (size (content_words a))) as Hpos.
    { assert (size (content_words a) ≠ 0%nat)
        by (rewrite size_non_empty_iff; by intros ?%leibniz_equiv).
      lia. }
    rewrite (proj2 (Z.ltb_lt _ _) Hpos).
    transitivity (Qred 1); [|reflexivity]. apply Qred_complete.
    apply Qmult_inv_r. intros H0.
    assert (inject_Z 0 < inject_Z (Z.of_nat (size (content_words a))))%Q as Hlt
      by (by rewrite <- Zlt_Qlt).
    rewrite H0 in Hlt. by apply Qlt_irrefl in Hlt.
Qed.

End Similarity.

Section RelevanceScore.
Import MemoryStorage MemoryRetriever.













End RelevanceScore.

(* ===================================================================== *)
(** * What the ranked retrieval returns and what it writes *)
(* ===================================================================== *)

Section RankedRetrieval.
Import MemoryStorage MemoryRetriever.

(** ** The scoring loop and the sort *)

Lemma score_memories_filter rows current_turn user_message min_relevance :
  (∀ r, r ∈ rows → 0 <= access_count (fields r)) →
  score_memories rows current_turn user_message min_relevance
  = Some (scored_at current_turn user_message
            <$> List.filter
                  (fun r => Rleb min_relevance (score_of r current_turn user_message))
                  rows).
Proof.
  induction rows as [|r rows IH]; intros Hacc; [done|].
  cbn [score_memories List.filter].
  rewrite _calculate_relevance_defined by (apply Hacc; left).
  rewrite IH by (intros r' Hr'; apply Hacc; by right).
  by destruct (Rleb _ _).
Qed.



Lemma _apply_diversity_filter_nil max_count : _apply_diversity_filter [] max_count = [].
Proof. unfold _apply_diversity_filter. cbn. by repeat case_match. Qed.

Lemma retrieve_relevant_memories_unfold
      st sid current_turn user_message max_memories min_relevance clock :
  access_counts_nonneg st →
  retrieve_relevant_memories st sid current_turn user_message
                             max_memories min_relevance clock
  = Some (update_access st clock O
            (_apply_diversity_filter
               (candidates st sid current_turn user_message min_relevance)
               max_memories),
          Py.slice_to
            (_apply_diversity_filter
               (candidates st sid current_turn user_message min_relevance)
               max_memories)
            max_memories).
Proof.
  intros Hacc. unfold retrieve_relevant_memories, candidates.
  destruct (get_session_memories st sid None 0) as [|r0 rows0] eqn:Erows.
  - cbn [List.filter fmap list_fmap stable_sort foldr].
    rewrite _apply_diversity_filter_nil. cbn [update_access]. unfold Py.slice_to.
    destruct (0 <=? max_memories); by rewrite take_nil.
  - rewrite <- Erows. rewrite score_memories_filter; [done|].
    intros r Hr%session_memories_elem. apply Hacc. tauto.
Qed.




Lemma length_filter_session f st sid :
  (∀ r, f r = true → session_id (fields r) = sid) →
  (length (List.filter f (memories st)) ≤ length (session_rows st sid))%nat.
Proof.
  intros Hf. unfold session_rows. induction (memories st) as [|r rows IH]; [done|].
  rewrite filter_cons. cbn [List.filter]. destruct (f r) eqn:E.
  - rewrite decide_True by (by apply Hf). cbn. lia.
  - destruct (decide _); cbn; lia.
Qed.




(** ** The diversity filter *)



















(** ** Access tracking *)

Lemma update_access_frame st clock i selected :
  sqlite_sequence (update_access st clock i selected) = sqlite_sequence st
  ∧ vector_search_enabled (update_access st clock i selected) = vector_search_enabled st
  ∧ faiss_index (update_access st clock i selected) = faiss_index st
  ∧ memory_id_map (update_access st clock i selected) = memory_id_map st
  ∧ length (memories (update_access st clock i selected)) = length (memories st).
Proof.
  revert st i. induction selected as [|m selected IH]; intros st i; [done|].
  cbn [update_access].
  destruct (IH (update_memory_access st (clock i) (memory_id (scored_row m))) (S i))
    as (-> & -> & -> & -> & ->).
  cbn. by rewrite length_map.
Qed.

Lemma same_but_access_refl (r : Row) : same_but_access r r.
Proof. unfold same_but_access. tauto. Qed.






End RankedRetrieval.

(* ===================================================================== *)
(** * Retrieval by turn range and by type *)
(* ===================================================================== *)

Section RangeAndType.
Import MemoryStorage MemoryRetriever.

Lemma StronglySorted_sublist {A} (R : A → A → Prop) (l' l : list A) :
  sublist l' l → StronglySorted R l → StronglySorted R l'.
Proof.
  induction 1 as [|x l1 l2 Hsub IH|x l1 l2 Hsub IH]; intros Hsorted; [done| |].
  - apply StronglySorted_inv in Hsorted as [Hsorted Hall].
    constructor; [by apply IH|]. rewrite Forall_forall in *.
    intros y Hy. apply Hall. by eapply elem_of_sublist.
  - apply StronglySorted_inv in Hsorted as [Hsorted _]. by apply IH.
Qed.

(** X16.  [retrieve_by_turn_range] returns, in ascending order of
    source turn, exactly the rows of the session (of confidence at
    least 0) whose source turn lies between the two bounds, both
    included; a range whose start is after its end selects nothing. *)
Theorem retrieve_by_turn_range_selects_the_range
        (st : MemoryStorage.t) (sid : string) (start_turn end_turn : Z) :
  let res := retrieve_by_turn_range st sid start_turn end_turn in
  StronglySorted turn_ascending res
  ∧ (∀ r, r ∈ res ↔
          r ∈ memories st
          ∧ session_id (fields r) = sid
          ∧ (0 <= confidence (fields r))%Q
          ∧ start_turn <= source_turn (fields r) <= end_turn)
  ∧ (end_turn < start_turn → res = [])
  ∧ (NoDup (memory_id <$> memories st) → NoDup (memory_id <$> res)).
Proof.
  cbn zeta. unfold retrieve_by_turn_range.
  assert (∀ r, r ∈ List.filter
                     (fun m => (start_turn <=? source_turn (fields m))
                               && (source_turn (fields m) <=? end_turn))
                     (get_session_memories st sid None 0) ↔
               r ∈ memories st
               ∧ session_id (fields r) = sid
               ∧ (0 <= confidence (fields r))%Q
               ∧ start_turn <= source_turn (fields r) <= end_turn) as Hin.
  { intros r.
    rewrite list_elem_of_In, filter_In, <- list_elem_of_In.
    rewrite get_session_memories_selected, andb_true_iff, !Z.leb_le.
    unfold type_selected. intuition. }
  split; [|split; [done|split]].
  - eapply StronglySorted_sublist;
      [apply filter_sublist_bool|apply get_session_memories_sorted].
  - intros Hempty.
    destruct (List.filter _ _) as [|r rest]; [done|].
    assert (r ∈ r :: rest) as Hr by left.
    apply Hin in Hr. lia.
  - intros Hnd. eapply sublist_NoDup;
      [apply (get_session_memories_NoDup st sid None 0 Hnd)|].
    apply fmap_sublist, filter_sublist_bool.
Qed.

Lemma by_type_sorted st sid t :
  StronglySorted by_type_order
    (stable_sort (fun a b => by_type_key_le b a)
                 (get_session_memories st sid (Some t) 0)).
Proof.
  eapply StronglySorted_weaken;
    [|apply stable_sort_sorted;
      [intros a b; apply by_type_order_total|intros a b c; apply by_type_order_trans]].
  intros a b Hab. apply by_type_key_le_spec in Hab. unfold by_type_order.
  destruct Hab as [Hlt|[Heq Hturn]]; [by left|right]. split; [by symmetry|done].
Qed.

(** X17.  [retrieve_by_type] ranks the rows of the session that have
    the type: higher confidence first and, among equally confident
    rows, the earlier source turn first.  A negative bound [n] does not
    mean "no bound": the result is [-n] rows short of the rows of the
    type.  An empty type string selects the rows of every type. *)
Theorem retrieve_by_type_ranks_and_slices
        (st : MemoryStorage.t) (sid t : string) (n : Z) :
  let res := retrieve_by_type st sid t n in
  StronglySorted by_type_order res
  ∧ (∀ r, r ∈ res → r ∈ memories st ∧ session_id (fields r) = sid)
  ∧ (t ≠ "" → ∀ r, r ∈ res → mem_type (fields r) = t)
  ∧ (t ≠ "" → confidences_nonneg st → n < 0 →
     length res = (count_of_type st sid t - Z.to_nat (- n))%nat)
  ∧ (t = "" → confidences_nonneg st →
     Z.of_nat (length (session_rows st sid)) <= n →
     ∀ r, r ∈ memories st → session_id (fields r) = sid → r ∈ res).
Proof.
  cbn zeta. unfold retrieve_by_type.
  set (sorted := stable_sort _ _).
  assert (∀ r, r ∈ sorted ↔
               r ∈ memories st ∧ session_id (fields r) = sid
               ∧ type_selected (Some t) r ∧ (0 <= confidence (fields r))%Q) as Hin.
  { intros r. unfold sorted. by rewrite stable_sort_elem, get_session_memories_selected. }
  split; [|split; [|split; [|split]]].
  - unfold Py.slice_to. destruct (0 <=? n);
      apply StronglySorted_take, by_type_sorted.
  - intros r Hr%slice_to_elem%Hin. tauto.
  - intros Ht r Hr%slice_to_elem%Hin.
    destruct Hr as (_ & _ & [?|[[= ?]|[= ?]]] & _); done.
  - intros Ht Hconf Hn. rewrite slice_to_negative_length by done.
    unfold sorted. by rewrite stable_sort_length, get_session_memories_length.
  - intros -> Hconf Hfits r Hr Hsid.
    assert (length sorted ≤ length (session_rows st sid))%nat as Hlen.
    { unfold sorted, get_session_memories. rewrite !stable_sort_length.
      apply length_filter_session. intros r'.
      unfold session_memories_where. rewrite !andb_true_iff, String.eqb_eq. tauto. }
    rewrite slice_to_nonneg by lia. rewrite take_ge by lia.
    apply Hin. split; [done|]. split; [done|]. split; [|by apply Hconf].
    right. by left.
Qed.

Lemma retrieve_by_type_ranks_and_slices_witness :
  length (retrieve_by_type (store_of four_instructions) "s1" "instruction" (-1))
  = (count_of_type (store_of four_instructions) "s1" "instruction" - Z.to_nat (- -1))%nat.
Proof.
  destruct (retrieve_by_type_ranks_and_slices
              (store_of four_instructions) "s1" "instruction" (-1))
    as (_ & _ & _ & Hneg & _).
  apply Hneg.
  - discriminate.
  - intros r Hr. vm_compute in Hr.
    repeat (apply elem_of_cons in Hr as [->|Hr]; [discriminate|]).
    by apply elem_of_nil in Hr.
  - lia.
Defined.

End RangeAndType.

(* ===================================================================== *)
(** * What the extractor returns *)
(* ===================================================================== *)

Section ExtractedRecords.
Import MemoryExtractor.

Lemma extract_memories_unfold user_message assistant_response turn_number session clock :
  extract_memories user_message assistant_response turn_number session clock
  = imap (add_metadata session turn_number clock)
         (all_candidates user_message turn_number).
Proof. reflexivity. Qed.

Lemma extract_memories_lookup user_message assistant_response turn_number session clock
      i m :
  extract_memories user_message assistant_response turn_number session clock !! i = Some m →
  ∃ c, all_candidates user_message turn_number !! i = Some c
       ∧ c ∈ all_candidates user_message turn_number
       ∧ m = add_metadata session turn_number clock i c.
Proof.
  rewrite extract_memories_unfold, list_lookup_imap.
  destruct (all_candidates user_message turn_number !! i) as [c|] eqn:E; [|done].
  intros [= <-]. exists c. split; [done|]. split; [|done].
  by eapply list_elem_of_lookup_2.
Qed.

Lemma extract_memories_elem user_message assistant_response turn_number session clock m :
  m ∈ extract_memories user_message assistant_response turn_number session clock →
  ∃ i c, c ∈ all_candidates user_message turn_number
         ∧ m = add_metadata session turn_number clock i c.
Proof.
  intros [i Hi]%list_elem_of_lookup.
  apply extract_memories_lookup in Hi as (c & _ & Hc & ->). by exists i, c.
Qed.

Lemma for_each_match_elem {A} patterns text (body : string → re.Match → list A) c :
  c ∈ for_each_match patterns text body →
  ∃ pattern m, pattern ∈ patterns
               ∧ m ∈ finditer pattern text IGNORECASE
               ∧ c ∈ body pattern m.
Proof.
  unfold for_each_match. rewrite list_elem_of_In, in_flat_map.
  intros (pattern & Hp & (m & Hm & Hc)%in_flat_map).
  exists pattern, m. by rewrite !list_elem_of_In.
Qed.

(** A property of the candidates of every family is a property of all
    candidates. *)
Lemma all_candidates_ind (P : Candidate → Prop) text turn_number :
  (∀ pattern m,
      pattern ∈ preference_patterns → m ∈ finditer pattern text IGNORECASE →
      P {| c_type := MemoryType_value PREFERENCE;
           c_content := re.group0 m;
           c_key := fst (_parse_preference (re.group0 m));
           c_value := snd (_parse_preference (re.group0 m));
           c_confidence := _calculate_confidence (re.group0 m) pattern;
           c_raw_text := text |}) →
  (∀ type key pattern m,
      (type, key, pattern)
      ∈ ((fun p => (MemoryType_value CONSTRAINT, None, p)) <$> constraint_patterns)
        ++ ((fun p => (MemoryType_value COMMITMENT, Some "scheduled_action", p))
              <$> commitment_patterns)
        ++ ((fun p => (MemoryType_value INSTRUCTION, Some "instruction", p))
              <$> instruction_patterns) →
      m ∈ finditer pattern text IGNORECASE →
      P {| c_type := type;
           c_content := re.group0 m;
           c_key := default (_extract_constraint_key (re.group0 m)) key;
           c_value := group1_or m (re.group0 m);
           c_confidence := _calculate_confidence (re.group0 m) pattern;
           c_raw_text := text |}) →
  (∀ m entity,
      m ∈ finditer entity_pattern text false → re.group m 1 = Some entity →
      Py.lower entity ∉ entity_stopwords →
      P {| c_type := MemoryType_value ENTITY;
           c_content := entity;
           c_key := "entity_name";
           c_value := Some entity;
           c_confidence := 0.7%Q;
           c_raw_text := text |}) →
  (∀ pattern m,
      pattern ∈ fact_patterns → m ∈ finditer pattern text IGNORECASE →
      10 < Py.len (re.group0 m) → 2 < Z.of_nat (length (Py.split (re.group0 m))) →
      P {| c_type := MemoryType_value FACT;
           c_content := re.group0 m;
           c_key := "fact";
           c_value := Some (re.group0 m);
           c_confidence := 0.6%Q;
           c_raw_text := text |}) →
  ∀ c, c ∈ all_candidates text turn_number → P c.
Proof.
  intros Hpref Hgroup Hentity Hfact c. unfold all_candidates.
  rewrite !elem_of_app. intros [Hc|[Hc|[Hc|[Hc|[Hc|Hc]]]]].
  - apply for_each_match_elem in Hc as (pattern & m & Hp & Hm & Hc).
    cbn zeta in Hc.
    destruct (_parse_preference (re.group0 m)) as [key value] eqn:E.
    apply list_elem_of_singleton in Hc as ->.
    specialize (Hpref pattern m Hp Hm). by rewrite E in Hpref.
  - apply for_each_match_elem in Hc as (pattern & m & Hp & Hm & Hc).
    apply list_elem_of_singleton in Hc as ->.
    apply (Hgroup _ None pattern m); [|done].
    apply elem_of_app. left. apply list_elem_of_fmap. by exists pattern.
  - apply for_each_match_elem in Hc as (pattern & m & Hp & Hm & Hc).
    apply list_elem_of_singleton in Hc as ->.
    apply (Hgroup _ (Some "scheduled_action") pattern m); [|done].
    apply elem_of_app. right. apply elem_of_app. left.
    apply list_elem_of_fmap. by exists pattern.
  - apply for_each_match_elem in Hc as (pattern & m & Hp & Hm & Hc).
    apply list_elem_of_singleton in Hc as ->.
    apply (Hgroup _ (Some "instruction") pattern m); [|done].
    apply elem_of_app. right. apply elem_of_app. right.
    apply list_elem_of_fmap. by exists pattern.
  - unfold _extract_entities in Hc.
    apply list_elem_of_In, in_flat_map in Hc as (m & Hm%list_elem_of_In & Hc).
    destruct (re.group m 1) as [entity|] eqn:E; [|done].
    destruct (bool_decide (Py.lower entity ∈ entity_stopwords)) eqn:Estop; [done|].
    apply bool_decide_eq_false in Estop.
    apply list_elem_of_In, list_elem_of_singleton in Hc as ->. by apply (Hentity m).
  - apply for_each_match_elem in Hc as (pattern & m & Hp & Hm & Hc).
    cbn zeta in Hc.
    destruct (Z.ltb_spec 10 (Py.len (re.group0 m))) as [Hlen|]; cbn [andb] in Hc;
      [|by apply elem_of_nil in Hc].
    destruct (Z.ltb_spec 2 (Z.of_nat (length (Py.split (re.group0 m))))) as [Hwords|];
      [|by apply elem_of_nil in Hc].
    apply list_elem_of_singleton in Hc as ->. by apply (Hfact pattern).
Qed.

(** ** Confidence *)

Lemma _calculate_confidence_range content pattern :
  (0.6 <= _calculate_confidence content pattern <= 0.99)%Q.
Proof.
  unfold _calculate_confidence.
  destruct (Py.len content <? 5), (found _); by vm_compute.
Qed.

Lemma filter_all {A} (f : A → bool) (l : list A) :
  (∀ x, x ∈ l → f x = true) → List.filter f l = l.
Proof.
  induction l as [|x l IH]; intros H; [done|]. cbn.
  rewrite (H x) by left. f_equal. apply IH. intros y Hy. apply H. by right.
Qed.

Lemma extracted_confidence_range user_message assistant_response turn_number session
      clock m :
  m ∈ extract_memories user_message assistant_response turn_number session clock →
  (0.6 <= confidence m <= 0.99)%Q.
Proof.
  intros (i & c & Hc & ->)%extract_memories_elem. cbn.
  revert c Hc. apply all_candidates_ind; intros; cbn;
    try apply _calculate_confidence_range; by vm_compute.
Qed.

(** X18.  Every record returned by [extract_memories] has a confidence
    between 0.6 and 0.99.  So the filter that [process_turn] applies
    with a threshold of 0.6 (or any lower threshold) drops none of
    them. *)
Theorem extracted_confidence_passes_the_filter
        (user_message assistant_response : string) (turn_number : Z)
        (session : string) (clock : nat → string) :
  let memories :=
    extract_memories user_message assistant_response turn_number session clock in
  (∀ m, m ∈ memories → (0.6 <= confidence m <= 0.99)%Q)
  ∧ (∀ min_confidence, (min_confidence <= 0.6)%Q →
                       filter_memories memories min_confidence = memories).
Proof.
  cbn zeta. split; [intros m; apply extracted_confidence_range|].
  intros min_confidence Hmin. apply filter_all. intros m Hm.
  apply extracted_confidence_range in Hm as [Hm _].
  apply Qle_bool_iff. by eapply Qle_trans.
Qed.

(** ** Metadata and keys *)

Lemma _parse_preference_key text :
  fst (_parse_preference text)
  ∈ ["language"; "preference"; "favorite"; "name"; "general"].
Proof.
  unfold _parse_preference, parse_preference_patterns. cbn [_parse_preference_loop].
  repeat (destruct (search _ text IGNORECASE); [cbn; set_solver by idtac|]).
  cbn. set_solver by idtac.
Qed.

Lemma _extract_constraint_key_values text :
  _extract_constraint_key text
  ∈ ["time_constraint"; "availability"; "general_constraint"].
Proof.
  unfold _extract_constraint_key.
  repeat (destruct (found _); [set_solver by idtac|]). set_solver by idtac.
Qed.

(** X19.  Every record returned by [extract_memories] carries the
    session id and the turn number of the call, the clock reading of
    its position, no access yet ([last_accessed] is [None],
    [access_count] is 0) and the whole user message as [raw_text].  Its
    key is one of the keys of its type.  A fact is its own value, is
    longer than 10 characters and has more than two words; an entity is
    its own value and is none of [i], [my], [the], [a], [an]. *)
Theorem extracted_records_are_stamped
        (user_message assistant_response : string) (turn_number : Z)
        (session : string) (clock : nat → string) (i : nat) (m : Memory) :
  extract_memories user_message assistant_response turn_number session clock !! i
  = Some m →
  session_id m = session
  ∧ source_turn m = turn_number
  ∧ created_at m = clock i
  ∧ last_accessed m = None
  ∧ access_count m = 0
  ∧ raw_text m = user_message
  ∧ (∃ keys, (mem_type m, keys) ∈ key_vocabulary ∧ key m ∈ keys)
  ∧ (mem_type m = "fact" →
     value m = Some (content m)
     ∧ 10 < Py.len (content m)
     ∧ 2 < Z.of_nat (length (Py.split (content m))))
  ∧ (mem_type m = "entity" →
     value m = Some (content m) ∧ Py.lower (content m) ∉ entity_stopwords).
Proof.
  intros (c & _ & Hc & ->)%extract_memories_lookup. cbn.
  do 5 (split; [done|]).
  revert c Hc. apply all_candidates_ind.
  - intros pattern m _ _. cbn. split; [done|]. split; [|done].
    eexists. split; [left|]. apply _parse_preference_key.
  - intros type key pattern m Hin _. cbn. split; [done|].
    rewrite !elem_of_app, !list_elem_of_fmap in Hin.
    destruct Hin as [(p & [= -> -> ->] & _)|[(p & [= -> -> ->] & _)|(p & [= -> -> ->] & _)]];
      cbn; (split; [|done]).
    + eexists. split; [right; left|]. apply _extract_constraint_key_values.
    + eexists. split; [do 2 right; left|]. by left.
    + eexists. split; [do 3 right; left|]. by left.
  - intros m entity _ _ Hstop. cbn. split; [done|]. split; [|done].
    eexists. split; [do 4 right; left|]. by left.
  - intros pattern m _ _ Hlen Hwords. cbn. split; [done|]. split; [|done].
    eexists. split; [do 5 right; left|]. by left.
Qed.

Lemma extracted_records_are_stamped_witness :
  session_id kannada_turn = "test"
  ∧ created_at kannada_turn = fixed_clock 0
  ∧ ∃ keys, (mem_type kannada_turn, keys) ∈ key_vocabulary ∧ key kannada_turn ∈ keys.
Proof.
  destruct (extracted_records_are_stamped
              "My preferred language is Kannada" "Got it!" 1 "test" fixed_clock
              0 kannada_turn) as (Hsession & _ & Hclock & _ & _ & _ & Hkey & _).
  - by vm_compute.
  - split; [exact Hsession|]. split; [exact Hclock|exact Hkey].
Defined.

(** ** Filtering and deduplication, composed *)

Lemma filter_memories_elem memories min_confidence m :
  m ∈ filter_memories memories min_confidence ↔
  m ∈ memories ∧ (min_confidence <= confidence m)%Q.
Proof.
  unfold filter_memories.
  by rewrite list_elem_of_In, filter_In, <- list_elem_of_In, Qle_bool_iff.
Qed.

(** X20.  Filtering by confidence and then deduplicating, as
    [process_turn] does, keeps records of the input in their order, all
    of them at or above the threshold and no two with the same
    fingerprint; every fingerprint of a record at or above the
    threshold is still represented; and running the two steps again
    changes nothing. *)
Theorem filter_then_deduplicate (memories : list Memory) (min_confidence : Q) :
  let kept := surviving memories min_confidence in
  sublist kept memories
  ∧ NoDup (fingerprint <$> kept)
  ∧ (∀ m, m ∈ kept → (min_confidence <= confidence m)%Q)
  ∧ (∀ m, m ∈ memories → (min_confidence <= confidence m)%Q →
          fingerprint m ∈ fingerprint <$> kept)
  ∧ surviving kept min_confidence = kept.
Proof.
  cbn zeta. unfold surviving.
  assert (∀ m, m ∈ deduplicate_memories (filter_memories memories min_confidence) →
               (min_confidence <= confidence m)%Q) as Hconf.
  { intros m Hm. eapply elem_of_sublist in Hm; [|apply dedup_sublist].
    by apply filter_memories_elem in Hm as [_ Hm]. }
  split; [|split; [|split; [|split]]].
  - etrans; [apply dedup_sublist|]. apply filter_sublist_bool.
  - apply dedup_NoDup.
  - done.
  - intros m Hm Hmin. apply dedup_fingerprints, list_elem_of_fmap.
    exists m. split; [done|]. by apply filter_memories_elem.
  - assert (filter_memories
              (deduplicate_memories (filter_memories memories min_confidence))
              min_confidence
            = deduplicate_memories (filter_memories memories min_confidence)) as ->.
    { apply filter_all. intros m Hm. by apply Qle_bool_iff, Hconf. }
    apply dedup_NoDup_id, dedup_NoDup.
Qed.

End ExtractedRecords.

(* ===================================================================== *)
(** * The extracted text comes from the message *)
(* ===================================================================== *)

Section Pieces.

Lemma infix_of_trans (a b c : list ascii) : infix_of a b → infix_of b c → infix_of a c.
Proof.
  intros (p1 & q1 & ->) (p2 & q2 & ->). exists (p2 ++ p1), (q1 ++ q2).
  by rewrite <- !app_assoc.
Qed.

Lemma string_of_list_ascii_app (l1 l2 : list ascii) :
  string_of_list_ascii (l1 ++ l2) = string_of_list_ascii l1 +:+ string_of_list_ascii l2.
Proof.
  induction l1 as [|c l1 IH]; [reflexivity|].
  cbn [app string_of_list_ascii]. rewrite IH. reflexivity.
Qed.

Lemma substring_of_infix (piece text : string) :
  infix_of (list_ascii_of_string piece) (list_ascii_of_string text) →
  substring piece text.
Proof.
  intros (p & q & H). exists (string_of_list_ascii p), (string_of_list_ascii q).
  rewrite <- (string_of_list_ascii_of_string text), H.
  by rewrite !string_of_list_ascii_app, string_of_list_ascii_of_string.
Qed.

Lemma string_of_list_ascii_nonempty (l : list ascii) :
  l ≠ [] → string_of_list_ascii l ≠ "".
Proof. by destruct l. Qed.

(** A successful run of a pattern whose groups are not nullable: the
    continuation is reached after a prefix [c] of the text that
    remained has been consumed; the groups hold non-empty pieces of
    the subject. *)
Lemma run_pieces icase (text : list ascii) r :
  groups_not_nullable r = true →
  ∀ prev s caps k res,
    re.run icase r prev s caps k = Some res →
    (∃ p, text = p ++ s) → pieces_of text caps →
    ∃ prev' s' caps' c,
      k prev' s' caps' = Some res
      ∧ s = c ++ s'
      ∧ (nullable r = false → c ≠ [])
      ∧ pieces_of text caps'.
Proof.
  assert (∀ test s caps k res,
            re.one_char test s caps k = Some res →
            pieces_of text caps →
            ∃ prev' s' caps' c,
              k prev' s' caps' = Some res
              ∧ s = c ++ s'
              ∧ (false = false → c ≠ [])
              ∧ pieces_of text caps') as Hone.
  { intros test s caps k res Hrun Hp. unfold re.one_char in Hrun.
    destruct s as [|x s]; [done|]. destruct (test x); [|done].
    exists (Some x), s, caps, [x]. by repeat (split; [done|]). }
  induction r as [| c | | ranges | | | | | r1 IH1 r2 IH2 | r1 IH1 r2 IH2 | r1 IH1 | m r1 IH1];
    intros Hgroups prev s caps k res Hrun Hsuffix Hpieces;
    cbn [re.run groups_not_nullable nullable] in *;
    try (by eapply Hone).
  - exists prev, s, caps, []. by repeat (split; [done|]).
  - destruct (xorb _ _); [|done]. exists prev, s, caps, []. by repeat (split; [done|]).
  - apply andb_true_iff in Hgroups as [Hg1 Hg2].
    destruct Hsuffix as [p Hp].
    destruct (IH1 Hg1 _ _ _ _ _ Hrun (ex_intro _ p Hp) Hpieces)
      as (p1 & s1 & caps1 & c1 & Hk1 & Hs1 & Hn1 & Hp1).
    destruct (IH2 Hg2 _ _ _ _ _ Hk1) as (p2 & s2 & caps2 & c2 & Hk2 & Hs2 & Hn2 & Hp2).
    { exists (p ++ c1). by rewrite Hp, Hs1, <- app_assoc. }
    { done. }
    exists p2, s2, caps2, (c1 ++ c2). split; [done|].
    split; [by rewrite Hs1, Hs2, <- app_assoc|]. split; [|done].
    intros [H|H]%andb_false_iff Hnil; apply app_eq_nil in Hnil as [? ?];
      [by apply Hn1|by apply Hn2].
  - apply andb_true_iff in Hgroups as [Hg1 Hg2].
    destruct (re.run icase r1 prev s caps k) as [res1|] eqn:E1.
    + injection Hrun as ->.
      destruct (IH1 Hg1 _ _ _ _ _ E1 Hsuffix Hpieces)
        as (p1 & s1 & caps1 & c1 & Hk1 & Hs1 & Hn1 & Hp1).
      exists p1, s1, caps1, c1. split; [done|]. split; [done|]. split; [|done].
      intros [H _]%orb_false_iff. auto.
    + destruct (IH2 Hg2 _ _ _ _ _ Hrun Hsuffix Hpieces)
        as (p2 & s2 & caps2 & c2 & Hk2 & Hs2 & Hn2 & Hp2).
      exists p2, s2, caps2, c2. split; [done|]. split; [done|]. split; [|done].
      intros [_ H]%orb_false_iff. auto.
  - revert Hrun. generalize (length s) at 1. intros fuel. revert prev s caps Hsuffix Hpieces.
    induction fuel as [|fuel IHfuel]; intros prev s caps Hsuffix Hpieces Hrun.
    + exists prev, s, caps, []. by repeat (split; [done|]).
    + match type of Hrun with
      | match ?t with _ => _ end = _ => destruct t as [res1|] eqn:E1
      end.
      * injection Hrun as ->. destruct Hsuffix as [p Hp].
        destruct (IH1 Hgroups _ _ _ _ _ E1 (ex_intro _ p Hp) Hpieces)
          as (p1 & s1 & caps1 & c1 & Hk1 & Hs1 & _ & Hp1).
        destruct (length s1 <? length s)%nat; [|done].
        destruct (IHfuel p1 s1 caps1) as (p2 & s2 & caps2 & c2 & Hk2 & Hs2 & _ & Hp2).
        { exists (p ++ c1). by rewrite Hp, Hs1, <- app_assoc. }
        { done. }
        { done. }
        exists p2, s2, caps2, (c1 ++ c2). split; [done|].
        split; [by rewrite Hs1, Hs2, <- app_assoc|]. by split.
      * exists prev, s, caps, []. by repeat (split; [done|]).
  - apply andb_true_iff in Hgroups as [Hnull%negb_true_iff Hg1].
    destruct Hsuffix as [p Hp].
    destruct (IH1 Hg1 _ _ _ _ _ Hrun (ex_intro _ p Hp) Hpieces)
      as (p1 & s1 & caps1 & c1 & Hk1 & Hs1 & Hn1 & Hp1).
    assert (take (length s - length s1) s = c1) as Htake.
    { rewrite Hs1, length_app.
      replace (length c1 + length s1 - length s1)%nat with (length c1) by lia.
      apply take_app_length. }
    rewrite Htake in Hk1.
    exists p1, s1, (<[m := string_of_list_ascii c1]> caps1), c1.
    split; [done|]. split; [done|]. split; [auto|].
    intros i v. destruct (decide (m = i)) as [->|Hne].
    + rewrite lookup_insert_eq. intros [= <-].
      split; [by apply string_of_list_ascii_nonempty, Hn1|].
      rewrite list_ascii_of_string_of_list_ascii. exists p, s1. by rewrite Hp, Hs1.
    + rewrite lookup_insert_ne by done. apply Hp1.
Qed.

Lemma pieces_of_empty text : pieces_of text ∅.
Proof. intros i v Hi. by rewrite lookup_empty in Hi. Qed.

(** The match object of an attempt that starts inside [text]. *)
Lemma match_at_pieces icase r prev s pos m text :
  groups_not_nullable r = true → nullable r = false →
  (∃ p, text = p ++ s) →
  re.match_at icase r prev s pos = Some m →
  re.group0 m ≠ ""
  ∧ infix_of (list_ascii_of_string (re.group0 m)) text
  ∧ ∀ v, Some v ∈ re.groups m → v ≠ "" ∧ infix_of (list_ascii_of_string v) text.
Proof.
  unfold re.match_at. intros Hgroups Hnull [p Hp] Hm.
  destruct (re.run icase r prev s ∅ _) as [[s' caps]|] eqn:Erun; [|done].
  injection Hm as <-. cbn.
  destruct (run_pieces icase text r Hgroups _ _ _ _ _ Erun (ex_intro _ p Hp)
                       (pieces_of_empty text))
    as (p1 & s1 & caps1 & c1 & Hk & Hs & Hne & Hpieces).
  injection Hk as -> ->.
  assert (take (length s - length s') s = c1) as ->.
  { rewrite Hs, length_app.
    replace (length c1 + length s' - length s')%nat with (length c1) by lia.
    apply take_app_length. }
  split; [by apply string_of_list_ascii_nonempty, Hne|]. split.
  - rewrite list_ascii_of_string_of_list_ascii. exists p, s'. by rewrite Hp, Hs.
  - intros v (i & Hv & _)%list_elem_of_In%in_map_iff. by apply (Hpieces i).
Qed.

Lemma finditer_from_suffix icase r m :
  ∀ s prev pos skip,
    m ∈ re.finditer_from icase r prev s pos skip →
    ∃ prev' s' pos' p, s = p ++ s' ∧ re.match_at icase r prev' s' pos' = Some m.
Proof.
  induction s as [|c s IH]; intros prev pos skip Hm; cbn in Hm.
  - destruct skip; [|by apply elem_of_nil in Hm].
    destruct (re.match_at icase r prev [] pos) as [m'|] eqn:E;
      [|by apply elem_of_nil in Hm].
    apply list_elem_of_singleton in Hm as ->. by exists prev, [], pos, [].
  - assert (∀ prev' pos' skip',
              m ∈ re.finditer_from icase r prev' s pos' skip' →
              ∃ prev'' s' pos'' p,
                c :: s = p ++ s' ∧ re.match_at icase r prev'' s' pos'' = Some m) as Hrest.
    { intros prev' pos' skip' (prev'' & s' & pos'' & p & -> & Hmatch)%IH.
      by exists prev'', s', pos'', (c :: p). }
    destruct skip; [|by eapply Hrest].
    destruct (re.match_at icase r prev (c :: s) pos) as [m'|] eqn:E; [|by eapply Hrest].
    apply elem_of_cons in Hm as [->|Hm]; [|by eapply Hrest].
    by exists prev, (c :: s), pos, [].
Qed.

Lemma search_from_suffix icase r m :
  ∀ s prev pos,
    re.search_from icase r prev s pos = Some m →
    ∃ prev' s' pos' p, s = p ++ s' ∧ re.match_at icase r prev' s' pos' = Some m.
Proof.
  induction s as [|c s IH]; intros prev pos Hm; cbn in Hm.
  - destruct (re.match_at icase r prev [] pos) as [m'|] eqn:E; [|done].
    injection Hm as ->. by exists prev, [], pos, [].
  - destruct (re.match_at icase r prev (c :: s) pos) as [m'|] eqn:E.
    + injection Hm as ->. by exists prev, (c :: s), pos, [].
    + apply IH in Hm as (prev' & s' & pos' & p & -> & Hmatch).
      by exists prev', s', pos', (c :: p).
Qed.

End Pieces.

Section ExtractedText.
Import MemoryExtractor.

(** The patterns of the extractor: none matches the empty string, and
    no group of theirs can be set to the empty string. *)
Lemma patterns_capture_text :
  forallb (fun pattern =>
             groups_not_nullable (re.compile pattern)
             && negb (nullable (re.compile pattern)))
          (entity_pattern :: ignorecase_patterns ++ (fst <$> parse_preference_patterns))
  = true.
Proof. by vm_compute. Qed.

Lemma pattern_captures_text pattern :
  pattern ∈ entity_pattern :: ignorecase_patterns ++ (fst <$> parse_preference_patterns) →
  groups_not_nullable (re.compile pattern) = true
  ∧ nullable (re.compile pattern) = false.
Proof.
  intros Hp%list_elem_of_In. pose proof patterns_capture_text as Hall.
  rewrite forallb_forall in Hall. specialize (Hall pattern Hp).
  by apply andb_true_iff in Hall as [? ?%negb_true_iff].
Qed.

Lemma finditer_pieces pattern text icase m :
  pattern ∈ entity_pattern :: ignorecase_patterns ++ (fst <$> parse_preference_patterns) →
  m ∈ finditer pattern text icase →
  re.group0 m ≠ ""
  ∧ infix_of (list_ascii_of_string (re.group0 m)) (list_ascii_of_string text)
  ∧ ∀ v, Some v ∈ re.groups m →
         v ≠ "" ∧ infix_of (list_ascii_of_string v) (list_ascii_of_string text).
Proof.
  intros [Hgroups Hnull]%pattern_captures_text Hm. unfold finditer, re.finditer in Hm.
  apply finditer_from_suffix in Hm as (prev & s & pos & p & Hs & Hm).
  eapply match_at_pieces; [done|done| |exact Hm]. by exists p.
Qed.

Lemma search_pieces pattern text icase m :
  pattern ∈ entity_pattern :: ignorecase_patterns ++ (fst <$> parse_preference_patterns) →
  search pattern text icase = Some m →
  ∀ v, Some v ∈ re.groups m →
       v ≠ "" ∧ infix_of (list_ascii_of_string v) (list_ascii_of_string text).
Proof.
  intros [Hgroups Hnull]%pattern_captures_text Hm. unfold search, re.search in Hm.
  apply search_from_suffix in Hm as (prev & s & pos & p & Hs & Hm).
  eapply match_at_pieces; [done|done| |exact Hm]. by exists p.
Qed.

Lemma group_elem (m : re.Match) (n : nat) (v : string) :
  re.group m (S n) = Some v → Some v ∈ re.groups m.
Proof.
  cbn. intros H. destruct (decide (n < length (re.groups m))%nat) as [Hlt|Hge].
  - rewrite <- H. apply list_elem_of_In, nth_In, Hlt.
  - rewrite nth_overflow in H by lia. done.
Qed.

Lemma _parse_preference_value content v :
  snd (_parse_preference content) = Some v →
  v = content
  ∨ (v ≠ "" ∧ infix_of (list_ascii_of_string v) (list_ascii_of_string content)).
Proof.
  unfold _parse_preference.
  assert (∀ patterns,
            (∀ p, p ∈ patterns →
                  fst p ∈ entity_pattern
                          :: ignorecase_patterns ++ (fst <$> parse_preference_patterns)
                  ∧ snd (snd p) = 1%nat) →
            snd (_parse_preference_loop patterns content) = Some v →
            v = content
            ∨ (v ≠ "" ∧ infix_of (list_ascii_of_string v) (list_ascii_of_string content)))
    as Hloop.
  { induction patterns as [|[pattern [key group]] patterns IH]; intros Hall; cbn.
    - intros [= <-]. by left.
    - destruct (Hall (pattern, (key, group))) as [Hp Hg]; [left|]. cbn in Hp, Hg. subst group.
      destruct (search pattern content IGNORECASE) as [m|] eqn:E.
      + cbn [snd]. intros Hv%group_elem. right. by eapply search_pieces.
      + apply IH. intros p Hin. apply Hall. by right. }
  apply Hloop. intros p Hp. split.
  - right. apply elem_of_app. right. apply list_elem_of_fmap. by exists p.
  - unfold parse_preference_patterns in Hp.
    repeat (apply elem_of_cons in Hp as [->|Hp]; [done|]). by apply elem_of_nil in Hp.
Qed.

Lemma group1_or_value m content v :
  group1_or m content = Some v → v = content ∨ Some v ∈ re.groups m.
Proof.
  unfold group1_or. destruct (re.groups m) as [|g gs] eqn:E.
  - intros [= <-]. by left.
  - intros Hv%group_elem. right. by rewrite <- E.
Qed.

Lemma candidate_text_is_from_the_message text turn_number c :
  c ∈ all_candidates text turn_number →
  c_content c ≠ ""
  ∧ infix_of (list_ascii_of_string (c_content c)) (list_ascii_of_string text)
  ∧ ∀ v, c_value c = Some v →
         v ≠ "" ∧ infix_of (list_ascii_of_string v) (list_ascii_of_string text).
Proof.
  revert c. apply all_candidates_ind.
  - intros pattern m Hp Hm. cbn.
    destruct (finditer_pieces pattern text IGNORECASE m) as (Hne & Hin & _); [|done|].
    { right. apply elem_of_app. left. unfold ignorecase_patterns.
      apply elem_of_app. by left. }
    split; [done|]. split; [done|].
    intros v Hv. apply _parse_preference_value in Hv as [->|[Hv Hpiece]]; [done|].
    split; [done|]. by eapply infix_of_trans.
  - intros type key pattern m Hin Hm. cbn.
    destruct (finditer_pieces pattern text IGNORECASE m) as (Hne & Hpiece & Hgroups);
      [|done|].
    { right. apply elem_of_app. left. unfold ignorecase_patterns.
      rewrite !elem_of_app, !list_elem_of_fmap in Hin. rewrite !elem_of_app.
      destruct Hin as [(p & [= _ _ ->] & Hp)|[(p & [= _ _ ->] & Hp)|(p & [= _ _ ->] & Hp)]];
        tauto. }
    split; [done|]. split; [done|].
    intros v [->|Hv]%group1_or_value; [done|]. by apply Hgroups.
  - intros m entity Hm Hentity _. cbn.
    destruct (finditer_pieces entity_pattern text false m) as (_ & _ & Hgroups);
      [left|done|].
    destruct (Hgroups entity) as [Hne Hpiece]; [by eapply group_elem|].
    split; [done|]. split; [done|]. by intros v [= <-].
  - intros pattern m Hp Hm _ _. cbn.
    destruct (finditer_pieces pattern text IGNORECASE m) as (Hne & Hpiece & _); [|done|].
    { right. apply elem_of_app. left. unfold ignorecase_patterns.
      rewrite !elem_of_app. tauto. }
    split; [done|]. split; [done|]. by intros v [= <-].
Qed.

(** X21.  The extractor quotes: the content of every record returned by
    [extract_memories] is a non-empty contiguous piece of the user
    message, and so is its value, when it has one. *)
Theorem extracted_text_comes_from_the_message
        (user_message assistant_response : string) (turn_number : Z)
        (session : string) (clock : nat → string) (m : Memory) :
  m ∈ extract_memories user_message assistant_response turn_number session clock →
  content m ≠ ""
  ∧ substring (content m) user_message
  ∧ ∀ v, value m = Some v → v ≠ "" ∧ substring v user_message.
Proof.
  intros (i & c & Hc & ->)%extract_memories_elem. cbn.
  destruct (candidate_text_is_from_the_message _ _ _ Hc) as (Hne & Hpiece & Hvalue).
  split; [done|]. split; [by apply substring_of_infix|].
  intros v Hv. destruct (Hvalue v Hv) as [Hvne Hvpiece].
  split; [done|]. by apply substring_of_infix.
Qed.

Lemma extracted_text_comes_from_the_message_witness :
  content kannada_turn ≠ ""
  ∧ substring (content kannada_turn) "My preferred language is Kannada"
  ∧ ∀ v, value kannada_turn = Some v
         → v ≠ "" ∧ substring v "My preferred language is Kannada".
Proof.
  apply (extracted_text_comes_from_the_message
           "My preferred language is Kannada" "Got it!" 1 "test" fixed_clock).
  apply (list_elem_of_lookup_2 _ 0%nat). by vm_compute.
Defined.

End ExtractedText.

(* ===================================================================== *)
(** * The statistics of a session and the prompt *)
(* ===================================================================== *)

Section RetrievalStatistics.
Import MemoryStorage MemoryRetriever.

Lemma py_max_snoc {A} (key : A → Z) (x : A) (l : list A) (y : A) :
  py_max key x (l ++ [y])
  = if key (py_max key x l) <? key y then y else py_max key x l.
Proof. unfold py_max. by rewrite fold_left_app. Qed.

(** [max] returns the first of the elements with the greatest key. *)
Lemma py_max_first {A} (key : A → Z) (x : A) (l : list A) :
  ∃ i, (x :: l) !! i = Some (py_max key x l)
       ∧ (∀ y, y ∈ x :: l → key y <= key (py_max key x l))
       ∧ (∀ j y, (j < i)%nat → (x :: l) !! j = Some y → key y < key (py_max key x l)).
Proof.
  induction l as [|y l (i & Hi & Hmax & Hfirst)] using rev_ind.
  - exists O. cbn. split; [done|]. split; [|intros; lia].
    intros y ->%list_elem_of_singleton. lia.
  - rewrite py_max_snoc, app_comm_cons.
    assert (i < length (x :: l))%nat as Hlen by (by eapply lookup_lt_Some).
    destruct (Z.ltb_spec (key (py_max key x l)) (key y)) as [Hlt|Hge].
    + exists (length (x :: l)). split; [|split].
      * by rewrite lookup_app_r, Nat.sub_diag by lia.
      * intros z [Hz| ->%list_elem_of_singleton]%elem_of_app; [|lia].
        specialize (Hmax z Hz). lia.
      * intros j z Hj Hz. rewrite lookup_app_l in Hz by done.
        apply list_elem_of_lookup_2, Hmax in Hz. lia.
    + exists i. split; [|split].
      * by rewrite lookup_app_l.
      * intros z [Hz| ->%list_elem_of_singleton]%elem_of_app; [by apply Hmax|lia].
      * intros j z Hj Hz. rewrite lookup_app_l in Hz by lia. by eapply Hfirst.
Qed.

Lemma access_fold rows acc :
  fold_left (fun acc m => acc + access_count (fields m)) rows acc
  = acc + access_sum rows.
Proof.
  revert acc. induction rows as [|r rows IH]; intros acc; cbn [fold_left]; [cbn; lia|].
  rewrite IH. unfold access_sum. cbn [foldr]. lia.
Qed.

Lemma type_distribution_fold rows (dist : gmap string Z) ty :
  default 0
    (fold_left (fun dist mem =>
                  <[mem_type (fields mem) :=
                      default 0 (dist !! mem_type (fields mem)) + 1]> dist)
               rows dist !! ty)
  = default 0 (dist !! ty) + Z.of_nat (count_type ty rows).
Proof.
  revert dist. unfold count_type.
  induction rows as [|r rows IH]; intros dist; cbn [fold_left List.filter length]; [lia|].
  rewrite IH. destruct (String.eqb_spec (mem_type (fields r)) ty) as [->|Hne].
  - rewrite lookup_insert_eq, length_cons.
    generalize (default 0 (dist !! ty)). intros d. cbn. lia.
  - by rewrite lookup_insert_ne.
Qed.

Lemma session_count_agrees st sid :
  confidences_nonneg st →
  List.filter (session_memories_where sid None 0) (memories st)
  = List.filter (fun r => String.eqb (session_id (fields r)) sid) (memories st).
Proof.
  intros Hconf. apply filter_ext_in. intros r Hr%list_elem_of_In.
  unfold session_memories_where. cbn [truthy].
  rewrite andb_true_r.
  rewrite (proj2 (Qle_bool_iff 0 (confidence (fields r)))) by (by apply Hconf).
  by rewrite andb_true_r.
Qed.

(** X22.  [get_retrieval_stats] answers for the rows that
    [get_session_memories] lists for the session.  Without such rows it
    returns the dictionary with [total_memories] 0 only.  Otherwise:
    the total is their number, [total_accesses] the sum of their access
    counts, [avg_confidence] the mean of their confidences, the type
    distribution counts the rows of every type, and [most_accessed] is
    the first row, in order of source turn, with the greatest access
    count.  On a table without negative confidences the total is the
    one that [get_memory_stats] reports for the session. *)
Theorem get_retrieval_stats_summarises_the_session
        (st : MemoryStorage.t) (sid : string) :
  let rows := get_session_memories st sid None 0 in
  match get_retrieval_stats st sid with
  | None => rows = []
  | Some stats =>
      rows ≠ []
      ∧ stats_total_memories stats = Z.of_nat (length rows)
      ∧ stats_total_accesses stats = access_sum rows
      ∧ (stats_avg_confidence stats * inject_Z (Z.of_nat (length rows))
         == confidence_sum rows)%Q
      ∧ (∀ ty, default 0 (stats_type_distribution stats !! ty)
               = Z.of_nat (count_type ty rows))
      ∧ first_most_accessed rows (stats_most_accessed stats)
  end
  ∧ (sid ≠ "" → confidences_nonneg st →
     total_memories (get_memory_stats st (Some sid))
     = Some (match get_retrieval_stats st sid with
             | Some stats => stats_total_memories stats
             | None => 0
             end)).
Proof.
  cbn zeta. split.
  - unfold get_retrieval_stats.
    destruct (get_session_memories st sid None 0) as [|r rows] eqn:E; [done|].
    cbn [stats_total_memories stats_total_accesses stats_avg_confidence
         stats_type_distribution stats_most_accessed].
    split; [done|]. split; [done|]. split; [|split; [|split]].
    + by rewrite access_fold.
    + rewrite Qred_correct.
      change (fold_left _ (r :: rows) 0%Q) with (sql_sum (r :: rows)).
      rewrite sql_sum_spec. field.
      intros H0. unfold Qeq in H0. cbn [Qnum Qden inject_Z length] in H0. lia.
    + intros ty. by rewrite type_distribution_fold, lookup_empty.
    + apply (py_max_first (fun m => access_count (fields m)) r rows).
  - intros Hsid Hconf.
    assert (length (get_session_memories st sid None 0)
            = length (List.filter (fun r => String.eqb (session_id (fields r)) sid)
                                  (memories st))) as Hlen.
    { unfold get_session_memories. by rewrite stable_sort_length, session_count_agrees. }
    unfold get_memory_stats, stats_rows, get_retrieval_stats.
    assert (truthy (Some sid) = Some sid) as -> by (by destruct sid).
    cbn [total_memories]. unfold sql_count. rewrite <- Hlen.
    by destruct (get_session_memories st sid None 0).
Qed.

Lemma get_retrieval_stats_summarises_the_session_witness :
  total_memories (get_memory_stats two_sessions (Some "s1"))
  = Some (match get_retrieval_stats two_sessions "s1" with
          | Some stats => stats_total_memories stats
          | None => 0
          end).
Proof.
  destruct (reachable_invariants two_sessions two_sessions_reachable)
    as (_ & _ & _ & _ & Hconf).
  destruct (get_retrieval_stats_summarises_the_session two_sessions "s1") as [_ Hagree].
  apply Hagree; [discriminate|exact Hconf].
Defined.

End RetrievalStatistics.

Section Prompt.
Import MemoryStorage MemoryRetriever.

Variable format_2f : Q -> string.

Lemma fold_left_snoc_map {A B} (g : A → B) (l : list A) (acc : list B) :
  fold_left (fun acc x => acc ++ [g x]) l acc = acc ++ map g l.
Proof.
  revert acc. induction l as [|x l IH]; intros acc; cbn; [by rewrite app_nil_r|].
  by rewrite IH, <- app_assoc.
Qed.

(** The grouping loop: the state of [by_type] after [memories]. *)
Lemma types_in_order_snoc memories m :
  types_in_order (memories ++ [m])
  = if bool_decide (mem_type (fields m) ∈ types_in_order memories)
    then types_in_order memories
    else types_in_order memories ++ [mem_type (fields m)].
Proof. unfold types_in_order. by rewrite fold_left_app. Qed.

Lemma types_in_order_spec memories :
  NoDup (types_in_order memories)
  ∧ ∀ ty, ty ∈ types_in_order memories ↔ ∃ m, m ∈ memories ∧ mem_type (fields m) = ty.
Proof.
  induction memories as [|m memories [Hnd Hin]] using rev_ind.
  - split; [constructor|]. intros ty. split.
    + intros H. by apply elem_of_nil in H.
    + intros (m & Hm & _). by apply elem_of_nil in Hm.
  - rewrite types_in_order_snoc. case_bool_decide as Hseen.
    + split; [done|]. intros ty. rewrite Hin. split.
      * intros (r & Hr & Hty). exists r. split; [|done]. apply elem_of_app. by left.
      * intros (r & [Hr| ->%list_elem_of_singleton]%elem_of_app & Hty).
        -- by exists r.
        -- rewrite <- Hty. by apply Hin.
    + split.
      * apply NoDup_app. split; [done|]. split; [|apply NoDup_singleton].
        by intros ty Hty ->%list_elem_of_singleton.
      * intros ty. rewrite elem_of_app, list_elem_of_singleton, Hin. split.
        -- intros [(r & Hr & Hty)| ->].
           ++ exists r. split; [|done]. apply elem_of_app. by left.
           ++ exists m. split; [|done]. apply elem_of_app. right. left.
        -- intros (r & [Hr| ->%list_elem_of_singleton]%elem_of_app & Hty).
           ++ left. by exists r.
           ++ by right.
Qed.

Lemma group_append_spec (tys : list string) (F : string → list Row) t m :
  NoDup tys →
  group_append ((fun ty => (ty, F ty)) <$> tys) t m
  = if bool_decide (t ∈ tys)
    then (fun ty => (ty, if String.eqb ty t then F ty ++ [m] else F ty)) <$> tys
    else ((fun ty => (ty, F ty)) <$> tys) ++ [(t, [m])].
Proof.
  induction tys as [|ty tys IH]; intros Hnd.
  - by rewrite bool_decide_eq_false_2 by apply not_elem_of_nil.
  - apply NoDup_cons in Hnd as [Hty Hnd]. rewrite !fmap_cons. cbn [group_append].
    destruct (String.eqb_spec ty t) as [->|Hne].
    + rewrite bool_decide_eq_true_2 by left. f_equal.
      apply list_fmap_ext. intros i ty' Hty'%list_elem_of_lookup_2.
      destruct (String.eqb_spec ty' t) as [->|]; [done|done].
    + rewrite IH by done. case_bool_decide as Hin.
      * rewrite bool_decide_eq_true_2 by (by right). done.
      * rewrite bool_decide_eq_false_2; [done|].
        intros [?|?]%elem_of_cons; [congruence|done].
Qed.

Lemma filter_type_snoc ty memories (m : Row) :
  List.filter (fun r => String.eqb (mem_type (fields r)) ty) (memories ++ [m])
  = List.filter (fun r => String.eqb (mem_type (fields r)) ty) memories
    ++ (if String.eqb ty (mem_type (fields m)) then [m] else []).
Proof. rewrite List.filter_app. cbn. by rewrite (String.eqb_sym ty). Qed.

Lemma by_type_spec memories :
  fold_left (fun by_type memory =>
               group_append by_type (mem_type (fields memory)) memory)
            memories []
  = (fun ty => (ty, List.filter (fun r => String.eqb (mem_type (fields r)) ty) memories))
      <$> types_in_order memories.
Proof.
  induction memories as [|m memories IH] using rev_ind; [done|].
  destruct (types_in_order_spec memories) as [Hnd Hin].
  rewrite fold_left_app. cbn [fold_left]. rewrite IH, group_append_spec by done.
  rewrite types_in_order_snoc. case_bool_decide as Hseen.
  - apply list_fmap_ext. intros i ty _. rewrite filter_type_snoc.
    destruct (String.eqb ty (mem_type (fields m))); [done|by rewrite app_nil_r].
  - rewrite fmap_app. f_equal.
    + apply list_fmap_ext. intros i ty Hty%list_elem_of_lookup_2.
      rewrite filter_type_snoc.
      destruct (String.eqb_spec ty (mem_type (fields m))) as [->|]; [done|].
      by rewrite app_nil_r.
    + cbn. rewrite filter_type_snoc, String.eqb_refl.
      assert (List.filter
                (fun r => String.eqb (mem_type (fields r)) (mem_type (fields m)))
                memories = []) as ->; [|done].
      destruct (List.filter _ memories) as [|r rest] eqn:E; [done|]. exfalso.
      assert (In r (r :: rest)) as Hr by apply in_eq.
      rewrite <- E in Hr. apply filter_In in Hr as [Hr Hty%String.eqb_eq].
      apply Hseen, Hin. exists r. by rewrite list_elem_of_In.
Qed.

Lemma format_lines_unfold memories include_metadata :
  format_lines format_2f memories include_metadata
  = ["## Active Memories"]
    ++ flat_map (fun '(ty, mems) =>
                   type_heading ty :: map (memory_line format_2f include_metadata) mems)
                (fold_left (fun by_type memory =>
                              group_append by_type (mem_type (fields memory)) memory)
                           memories []).
Proof.
  unfold format_lines. cbn zeta.
  generalize (fold_left (fun by_type memory =>
                           group_append by_type (mem_type (fields memory)) memory)
                        memories []).
  intros by_type. generalize ["## Active Memories"]. intros formatted.
  revert formatted.
  induction by_type as [|[ty mems] by_type IH]; intros formatted;
    cbn [fold_left flat_map]; [by rewrite app_nil_r|].
  rewrite IH. unfold memory_line.
  destruct include_metadata; rewrite fold_left_snoc_map;
    rewrite <- !app_assoc; reflexivity.
Qed.

Lemma join_header (lines : list string) :
  Py.join Py.nl ("## Active Memories" :: lines) ≠ "".
Proof. destruct lines; discriminate. Qed.

(** X23.  [format_memories_for_prompt] returns the empty string for no
    memories.  Otherwise the prompt is the header line followed, for
    every type in the order of its first appearance, by the heading of
    the type and one line for each memory of that type, in the order of
    the input; the lines are joined by line feeds, and the prompt is
    not empty. *)
Theorem format_memories_for_prompt_groups_by_type
        (memories : list Row) (include_metadata : bool) :
  format_memories_for_prompt format_2f [] include_metadata = ""
  ∧ format_lines format_2f memories include_metadata
    = "## Active Memories"
        :: flat_map
             (fun ty =>
                type_heading ty
                  :: map (memory_line format_2f include_metadata)
                       (List.filter (fun m => String.eqb (mem_type (fields m)) ty)
                                    memories))
             (types_in_order memories)
  ∧ NoDup (types_in_order memories)
  ∧ (∀ ty, ty ∈ types_in_order memories ↔
           ∃ m, m ∈ memories ∧ mem_type (fields m) = ty)
  ∧ (memories ≠ [] →
     format_memories_for_prompt format_2f memories include_metadata
     = Py.join Py.nl (format_lines format_2f memories include_metadata)
     ∧ format_memories_for_prompt format_2f memories include_metadata ≠ "").
Proof.
  assert (format_lines format_2f memories include_metadata
          = "## Active Memories"
              :: flat_map
                   (fun ty =>
                      type_heading ty
                        :: map (memory_line format_2f include_metadata)
                             (List.filter
                                (fun m => String.eqb (mem_type (fields m)) ty) memories))
                   (types_in_order memories)) as Hlines.
  { rewrite format_lines_unfold, by_type_spec. cbn [app].
    f_equal. induction (types_in_order memories) as [|ty tys IH]; [done|].
    rewrite fmap_cons. cbn [flat_map]. by rewrite IH. }
  split; [done|]. split; [done|].
  destruct (types_in_order_spec memories) as [Hnd Hin].
  split; [done|]. split; [done|].
  intros Hne. destruct memories as [|m memories]; [done|].
  cbn [format_memories_for_prompt]. split; [done|].
  rewrite Hlines. apply join_header.
Qed.

End Prompt.

Section PromptExamples.
Import MemoryRetriever.

Lemma format_memories_for_prompt_groups_by_type_witness :
  format_memories_for_prompt example_format_2f
    [ {| memory_id := 1; fields := language_preference |} ] false
  = Py.join Py.nl
      (format_lines example_format_2f
         [ {| memory_id := 1; fields := language_preference |} ] false)
  ∧ format_memories_for_prompt example_format_2f
      [ {| memory_id := 1; fields := language_preference |} ] false ≠ "".
Proof.
  destruct (format_memories_for_prompt_groups_by_type
              example_format_2f
              [ {| memory_id := 1; fields := language_preference |} ] false)
    as (_ & _ & _ & _ & Hne).
  apply Hne. discriminate.
Defined.

(** The prompt of two preferences and a constraint, with the metadata. *)
Example format_memories_for_prompt_example :
  format_lines example_format_2f
    [ {| memory_id := 1; fields := language_preference |};
      {| memory_id := 3; fields := time_constraint |};
      {| memory_id := 2; fields := tea_preference |} ] true
  = [ "## Active Memories";
      Py.nl +:+ "### Preferences:";
      "- language is Kannada (from turn 1, confidence: 0.95)";
      "- likes tea (from turn 2, confidence: 0.80)";
      Py.nl +:+ "### Constraints:";
      "- after 11 AM (from turn 3, confidence: 0.80)" ].
Proof. by vm_compute. Qed.

End PromptExamples.

(* ===================================================================== *)
(** * The conversation agent *)
(* ===================================================================== *)

Section Agent.
Import MemoryStorage.

Variable format_2f : Q -> string.

(** ** The bookkeeping of the session *)

(** Whatever the outcome of the call, the agent afterwards differs from
    the agent before in its storage and in the entry of the session. *)
Lemma process_turn_agent agent sid message turn retrieve now rclock eclock measured :
  ∃ st,
    fst (ConversationAgent.process_turn format_2f agent sid message turn retrieve
           now rclock eclock measured)
    = {| ConversationAgent.verbose := ConversationAgent.verbose agent;
         ConversationAgent.enable_memory := ConversationAgent.enable_memory agent;
         ConversationAgent.storage := st;
         ConversationAgent.sessions :=
           <[sid :=
               match ConversationAgent.sessions agent !! sid with
               | Some s =>
                   {| ConversationAgent.created_at := ConversationAgent.created_at s;
                      ConversationAgent.turn_count :=
                        match turn with
                        | None => ConversationAgent.turn_count s + 1
                        | Some n => Z.max (ConversationAgent.turn_count s) n
                        end;
                      ConversationAgent.last_active := now O |}
               | None =>
                   {| ConversationAgent.created_at := now O;
                      ConversationAgent.turn_count :=
                        match turn with
                        | None => 0 + 1
                        | Some n => Z.max 0 n
                        end;
                      ConversationAgent.last_active := now 2%nat |}
               end]> (ConversationAgent.sessions agent) |}.
Proof.
  unfold ConversationAgent.process_turn, ConversationAgent.process_turn_steps.
  destruct (ConversationAgent.sessions agent !! sid) as [s|], turn as [n|];
    cbn zeta; cbn beta;
    repeat match goal with
           | |- context [if ?b then _ else _] => destruct b
           | |- context [match ?x with Some _ => _ | None => _ end] => destruct x
           | |- context [match ?x with [] => _ | _ :: _ => _ end] => destruct x
           | |- context [let '(_, _) := ?x in _] => destruct x
           end;
    cbn [fst]; eauto.
Qed.


(** X24.  The session entry after [process_turn], whether the call
    returns or raises.  An unknown session is created with the first
    clock reading.  Without a turn number the call counts one turn more
    and processes that turn; with a turn number it processes that turn
    and raises the count to it, if it was lower: the count never goes
    down.  [last_active] is the latest clock reading of the
    bookkeeping; no other session and no flag of the agent changes; the
    response names the turn processed. *)
Theorem process_turn_counts_the_turns
        (agent : ConversationAgent.t) (sid message : string) (turn : option Z)
        (retrieve : bool) (now rclock eclock : nat → string)
        (measured : ConversationAgent.Durations) :
  let result :=
    ConversationAgent.process_turn format_2f agent sid message turn retrieve
                                   now rclock eclock measured in
  (∃ s, ConversationAgent.sessions (fst result) !! sid = Some s
        ∧ ConversationAgent.turn_count s
          = match turn with
            | None => turn_count_of agent sid + 1
            | Some n => Z.max (turn_count_of agent sid) n
            end
        ∧ turn_count_of agent sid <= ConversationAgent.turn_count s
        ∧ effective_turn agent sid turn <= ConversationAgent.turn_count s
        ∧ ConversationAgent.created_at s
          = match ConversationAgent.sessions agent !! sid with
            | Some s0 => ConversationAgent.created_at s0
            | None => now O
            end
        ∧ ConversationAgent.last_active s
          = match ConversationAgent.sessions agent !! sid with
            | Some _ => now O
            | None => now 2%nat
            end)
  ∧ (∀ other, other ≠ sid →
              ConversationAgent.sessions (fst result) !! other
              = ConversationAgent.sessions agent !! other)
  ∧ ConversationAgent.enable_memory (fst result) = ConversationAgent.enable_memory agent
  ∧ ConversationAgent.verbose (fst result) = ConversationAgent.verbose agent
  ∧ (∀ r, snd result = Some r →
          ConversationAgent.turn_number r = effective_turn agent sid turn
          ∧ ConversationAgent.response_session_id r = sid
          ∧ ConversationAgent.user_message r = message).
Proof.
  cbn zeta.
  destruct (process_turn_agent agent sid message turn retrieve now rclock eclock measured)
    as (st & Hagent).
  rewrite Hagent. cbn [ConversationAgent.sessions ConversationAgent.enable_memory
                       ConversationAgent.verbose].
  split; [|split; [|split; [done|split; [done|]]]].
  - rewrite lookup_insert_eq. eexists. split; [reflexivity|].
    unfold effective_turn, turn_count_of.
    destruct (ConversationAgent.sessions agent !! sid) as [s|], turn as [n|]; cbn;
      repeat split; lia.
  - intros other Hother. by rewrite lookup_insert_ne.
  - clear Hagent st. intros r.
    unfold ConversationAgent.process_turn, ConversationAgent.process_turn_steps,
      effective_turn, turn_count_of.
    destruct (ConversationAgent.sessions agent !! sid) as [s|], turn as [n|];
      cbn zeta; cbn beta;
      repeat match goal with
             | |- context [if ?b then _ else _] => destruct b
             | |- context [match ?x with Some _ => _ | None => _ end] => destruct x
             | |- context [match ?x with [] => _ | _ :: _ => _ end] => destruct x
             | |- context [let '(_, _) := ?x in _] => destruct x
             end;
      cbn [snd]; intros [= <-]; cbn; done.
Qed.

(** ** Retrieval, extraction and the response *)


Lemma store_memories_nil st : store_memories st [] = (st, []).
Proof. reflexivity. Qed.



(** ** What a turn stores and what it reports *)

Lemma update_access_ok st clock i selected :
  store_ok st → store_ok (MemoryRetriever.update_access st clock i selected).
Proof.
  revert st i. induction selected as [|m selected IH]; intros st i Hok; [done|].
  cbn. by apply IH, update_memory_access_ok.
Qed.

Lemma zip_filter_ids (l : list Memory) (ids : list Z) :
  (∀ id, id ∈ ids → id ≠ -1) → (length ids ≤ length l)%nat →
  fst <$> List.filter (fun '(m, mid) => negb (mid =? -1)) (zip l ids)
  = take (length ids) l.
Proof.
  revert l. induction ids as [|id ids IH]; intros l Hids Hlen.
  - by destruct l.
  - destruct l as [|m l]; [cbn in Hlen; lia|]. cbn.
    rewrite (proj2 (Z.eqb_neq id (-1))) by (apply Hids; left). cbn. f_equal.
    apply IH; [|cbn in Hlen; lia]. intros id' Hid'. apply Hids. by right.
Qed.

(** Steps 2 to 4 with the memory system enabled, when they return: the
    surviving records of the turn are handed to the store, and the
    response pairs them with the ids the store returns. *)
Lemma process_turn_steps_returns
      agent after sid message n retrieve eclock measured st1 relevant retrieval r :
  ConversationAgent.enable_memory agent = true →
  snd (ConversationAgent.process_turn_steps
         format_2f agent after sid message n retrieve eclock measured
         st1 relevant retrieval) = Some r →
  ConversationAgent.turn_number r = n
  ∧ fst (ConversationAgent.process_turn_steps
           format_2f agent after sid message n retrieve eclock measured
           st1 relevant retrieval)
    = after (fst (store_memories st1
                    (surviving (MemoryExtractor.extract_memories
                                  message (ConversationAgent.assistant_response r)
                                  n sid eclock) 0.6)))
  ∧ ConversationAgent.extracted_memories r
    = report
        <$> (fst <$> List.filter
                       (fun '(m, mid) => negb (mid =? -1))
                       (zip (surviving
                               (MemoryExtractor.extract_memories
                                  message (ConversationAgent.assistant_response r)
                                  n sid eclock) 0.6)
                            (snd (store_memories st1
                                    (surviving
                                       (MemoryExtractor.extract_memories
                                          message
                                          (ConversationAgent.assistant_response r)
                                          n sid eclock)
                                       0.6))))).
Proof.
  intros Hmemory. unfold ConversationAgent.process_turn_steps, surviving.
  rewrite Hmemory. cbv zeta.
  remember (ConversationAgent._generate_response _ _ _ _) as text eqn:Etext.
  remember (MemoryExtractor.deduplicate_memories _) as kept eqn:Ekept.
  destruct kept as [|m kept].
  - destruct (if retrieve then retrieval else Some 0%Q); cbn [fst snd]; [|done].
    intros [= <-].
    cbn [ConversationAgent.assistant_response ConversationAgent.turn_number
         ConversationAgent.extracted_memories].
    by rewrite <- ?Ekept.
  - destruct (store_memories st1 (m :: kept)) as [st2 ids] eqn:Estore.
    destruct (if retrieve then retrieval else Some 0%Q); cbn [fst snd]; [|done].
    intros [= <-].
    cbn [ConversationAgent.assistant_response ConversationAgent.turn_number
         ConversationAgent.extracted_memories].
    rewrite <- ?Ekept, ?Estore. cbn [fst snd]. split; [done|]. split; [done|].
      reflexivity.
Qed.

(** A call that returns, with the memory system enabled: the storage
    [st1] it extracts into, after the retrieval if there was one. *)
Lemma process_turn_returns
      agent sid message turn retrieve now rclock eclock measured r :
  snd (ConversationAgent.process_turn format_2f agent sid message turn retrieve
                                      now rclock eclock measured) = Some r →
  ConversationAgent.enable_memory agent = true →
  access_counts_nonneg (ConversationAgent.storage agent) →
  ∃ st1,
    store_memories st1
      (surviving (MemoryExtractor.extract_memories
                    message (ConversationAgent.assistant_response r)
                    (ConversationAgent.turn_number r) sid eclock) 0.6)
    = (ConversationAgent.storage
         (fst (ConversationAgent.process_turn format_2f agent sid message turn retrieve
                 now rclock eclock measured)),
       snd (store_memories st1
              (surviving (MemoryExtractor.extract_memories
                            message (ConversationAgent.assistant_response r)
                            (ConversationAgent.turn_number r) sid eclock) 0.6)))
    ∧ ConversationAgent.extracted_memories r
      = report
          <$> (fst <$> List.filter
                         (fun '(m, mid) => negb (mid =? -1))
                         (zip (surviving
                                 (MemoryExtractor.extract_memories
                                    message (ConversationAgent.assistant_response r)
                                    (ConversationAgent.turn_number r) sid eclock) 0.6)
                              (snd (store_memories st1
                                      (surviving
                                         (MemoryExtractor.extract_memories
                                            message
                                            (ConversationAgent.assistant_response r)
                                            (ConversationAgent.turn_number r) sid eclock)
                                         0.6)))))
    ∧ length (memories st1) = length (memories (ConversationAgent.storage agent))
    ∧ (store_ok (ConversationAgent.storage agent) → store_ok st1).
Proof.
  intros Hr Hmemory Hacc. revert Hr.
  unfold ConversationAgent.process_turn.
  destruct (ConversationAgent.sessions agent !! sid) as [s|], turn as [n|];
    cbv zeta;
    (destruct (ConversationAgent.enable_memory agent && retrieve && (1 <? _));
     [rewrite retrieve_relevant_memories_unfold by done|]);
    intros Hr;
    destruct (process_turn_steps_returns _ _ _ _ _ _ _ _ _ _ _ _ Hmemory Hr)
      as (-> & -> & ->);
    cbn [ConversationAgent.storage];
    eexists; (split; [apply surjective_pairing|]); (split; [reflexivity|]);
    (split; [try done; apply update_access_frame|]);
    try done; apply update_access_ok.
Qed.

(** X26.  What a turn stores and what it reports.  When [process_turn]
    returns with the memory system enabled, the rows it has appended to
    the table are surviving records of the turn (extracted, at least 0.6
    confident, first of their fingerprint), in their order, and the
    response reports as many records as rows were appended.  But the
    records it reports are the first of the surviving records, whether
    or not these are the ones that were stored. *)
Theorem process_turn_reports_the_first_survivors
        (agent : ConversationAgent.t) (sid message : string) (turn : option Z)
        (retrieve : bool) (now rclock eclock : nat → string)
        (measured : ConversationAgent.Durations) (r : ConversationAgent.Response) :
  snd (ConversationAgent.process_turn format_2f agent sid message turn retrieve
                                      now rclock eclock measured) = Some r →
  ConversationAgent.enable_memory agent = true →
  store_ok (ConversationAgent.storage agent) →
  access_counts_nonneg (ConversationAgent.storage agent) →
  let agent' :=
    fst (ConversationAgent.process_turn format_2f agent sid message turn retrieve
                                        now rclock eclock measured) in
  let kept :=
    surviving (MemoryExtractor.extract_memories
                 message (ConversationAgent.assistant_response r)
                 (ConversationAgent.turn_number r) sid eclock) 0.6 in
  let new_rows :=
    drop (length (memories (ConversationAgent.storage agent)))
         (memories (ConversationAgent.storage agent')) in
  sublist (fields <$> new_rows) kept
  ∧ length (memories (ConversationAgent.storage agent'))
    = (length (memories (ConversationAgent.storage agent)) + length new_rows)%nat
  ∧ ConversationAgent.extracted_memories r = report <$> take (length new_rows) kept.
Proof.
  intros Hr Hmemory Hok Hacc. cbn zeta.
  destruct (process_turn_returns _ _ _ _ _ _ _ _ _ _ Hr Hmemory Hacc)
    as (st1 & Hstore & Hreport & Hlen & Hok1).
  specialize (Hok1 Hok).
  destruct (store_memories_spec _ _ _ _ Hok1 Hstore)
    as (stored & Hmem & Hids & Hsub & Hseq & _).
  rewrite Hmem, <- Hlen, drop_app_length, length_app.
  split; [done|]. split; [done|].
  rewrite Hreport. f_equal.
  assert (length stored = length (snd (store_memories st1
            (surviving (MemoryExtractor.extract_memories
                          message (ConversationAgent.assistant_response r)
                          (ConversationAgent.turn_number r) sid eclock) 0.6)))) as ->.
  { by rewrite <- Hids, length_fmap. }
  apply zip_filter_ids.
  - intros id Hid. rewrite Hseq in Hid. apply elem_of_seqZ in Hid.
    pose proof (sequence_nonneg st1 Hok1). lia.
  - rewrite <- Hids, length_fmap. apply sublist_length in Hsub.
    by rewrite length_fmap in Hsub.
Qed.

End Agent.

Section AgentExamples.
Import MemoryStorage.

Lemma process_turn_reports_the_first_survivors_witness :
  ∃ r, snd first_turn = Some r
       ∧ ConversationAgent.extracted_memories r
         = report
             <$> take (length (drop (length (memories
                                               (ConversationAgent.storage new_agent)))
                                    (memories
                                       (ConversationAgent.storage (fst first_turn)))))
                      (surviving
                         (MemoryExtractor.extract_memories
                            "My preferred language is Kannada"
                            (ConversationAgent.assistant_response r)
                            (ConversationAgent.turn_number r) "s1" fixed_clock) 0.6).
Proof.
  destruct (reachable_invariants (init false) (reachable_init false))
    as (Hok & _ & _ & Hacc & _).
  destruct (snd first_turn) as [r|] eqn:Hr; [|by vm_compute in Hr].
  exists r. split; [reflexivity|].
  exact (proj2 (proj2 (process_turn_reports_the_first_survivors
                         example_format_2f new_agent "s1"
                         "My preferred language is Kannada" (Some 1) false
                         fixed_clock fixed_clock fixed_clock example_durations r Hr
                         eq_refl Hok Hacc))).
Defined.

(** The first turn stores three records and reports them.  A second
    call under the same turn number extracts the entities Kannada and
    Tamil; Kannada is in the table already, so the one row the call
    appends is Tamil, and the one record it reports is Kannada. *)
Example process_turn_reports_a_record_it_did_not_store :
  contents_from 0 (fst first_turn)
  = ["My preferred language is Kannada"; "Kannada"; "My preferred language is Kannada"]
  ∧ reported_contents (snd first_turn)
    = Some ["My preferred language is Kannada"; "Kannada";
            "My preferred language is Kannada"]
  ∧ contents_from 3 (fst repeated_turn) = ["Tamil"]
  ∧ reported_contents (snd repeated_turn) = Some ["Kannada"].
Proof. vm_compute. repeat split; reflexivity. Qed.

(** With the default arguments (no turn number, retrieval requested)
    the first turn of a session raises, after it has recorded the turn
    and stored the greeting's records (none here). *)
Example process_turn_first_turn_raises :
  let result :=
    ConversationAgent.process_turn
      example_format_2f new_agent "s1" "hello" None true
      fixed_clock fixed_clock fixed_clock example_durations in
  snd result = None ∧ turn_count_of (fst result) "s1" = 1.
Proof. vm_compute. split; reflexivity. Qed.

End AgentExamples.

Section Sessions.
Import MemoryStorage.

Lemma stats_rows_delete_other st sid other :
  other ≠ sid → other ≠ "" →
  stats_rows (delete_session_memories st sid) (Some other) = stats_rows st (Some other).
Proof.
  intros Hother Hempty. unfold stats_rows.
  assert (truthy (Some other) = Some other) as ->.
  { destruct other; [done|reflexivity]. }
  cbn. apply filter_filter_absorb.
  intros r Hr. apply String.eqb_eq in Hr.
  apply negb_true_iff, String.eqb_neq. congruence.
Qed.

Lemma get_session_memories_delete_other st sid other memory_type min_confidence :
  other ≠ sid →
  get_session_memories (delete_session_memories st sid) other memory_type min_confidence
  = get_session_memories st other memory_type min_confidence.
Proof.
  intros Hother. unfold get_session_memories. cbn.
  rewrite filter_filter_absorb; [done|].
  intros r. unfold session_memories_where.
  rewrite !andb_true_iff, String.eqb_eq. intros [[Hs _] _].
  apply negb_true_iff, String.eqb_neq. congruence.
Qed.

Lemma session_rows_delete st sid :
  session_rows (delete_session_memories st sid) sid = [].
Proof.
  unfold session_rows. apply elem_of_nil_inv. intros r Hr.
  apply list_elem_of_filter in Hr as [Hs Hin]. cbn in Hin.
  rewrite list_elem_of_In, filter_In in Hin. destruct Hin as [_ Hne].
  by apply negb_true_iff, String.eqb_neq in Hne.
Qed.

(** X27.  [clear_session] forgets the session: its summary is the
    error afterwards, and a later call of [process_turn] without a turn
    number starts again at turn 1.  With the memory system enabled the
    rows of the session leave the table, while the AUTOINCREMENT counter
    stays, so the ids of the cleared session are not issued again;
    with the memory system disabled the storage is not touched.  The
    summary of every other session (other than the session with the
    empty id, whose statistics range over all rows) is as before, and
    clearing twice is clearing once. *)
Theorem clear_session_forgets_the_session
        (agent : ConversationAgent.t) (sid : string) :
  let agent' := ConversationAgent.clear_session agent sid in
  ConversationAgent.get_session_summary agent' sid = ConversationAgent.SessionNotFound
  ∧ effective_turn agent' sid None = 1
  ∧ (∀ other, other ≠ sid → other ≠ "" →
              ConversationAgent.get_session_summary agent' other
              = ConversationAgent.get_session_summary agent other)
  ∧ (ConversationAgent.enable_memory agent = true →
     session_rows (ConversationAgent.storage agent') sid = []
     ∧ (∀ r, r ∈ memories (ConversationAgent.storage agent')
             ↔ r ∈ memories (ConversationAgent.storage agent)
               ∧ session_id (fields r) ≠ sid)
     ∧ sqlite_sequence (ConversationAgent.storage agent')
       = sqlite_sequence (ConversationAgent.storage agent))
  ∧ (ConversationAgent.enable_memory agent = false →
     ConversationAgent.storage agent' = ConversationAgent.storage agent)
  ∧ ConversationAgent.clear_session agent' sid = agent'.
Proof.
  cbn zeta. split; [|split; [|split; [|split; [|split]]]].
  - unfold ConversationAgent.get_session_summary, ConversationAgent.clear_session. cbn.
    by rewrite lookup_delete_eq.
  - unfold effective_turn, turn_count_of, ConversationAgent.clear_session. cbn.
    by rewrite lookup_delete_eq.
  - intros other Hother Hempty.
    unfold ConversationAgent.get_session_summary, ConversationAgent.clear_session. cbn.
    rewrite lookup_delete_ne by done.
    destruct (ConversationAgent.sessions agent !! other) as [s|]; [|done].
    destruct (ConversationAgent.enable_memory agent); [|done].
    unfold get_memory_stats, MemoryRetriever.get_retrieval_stats.
    rewrite stats_rows_delete_other by done.
    by rewrite get_session_memories_delete_other by done.
  - intros Hmemory. unfold ConversationAgent.clear_session. cbn. rewrite Hmemory.
    split; [apply session_rows_delete|]. split; [|done].
    intros r. cbn. rewrite list_elem_of_In, filter_In, <- list_elem_of_In.
    by rewrite negb_true_iff, String.eqb_neq.
  - intros Hmemory. unfold ConversationAgent.clear_session. cbn. by rewrite Hmemory.
  - unfold ConversationAgent.clear_session. cbn.
    rewrite delete_delete_eq. f_equal.
    destruct (ConversationAgent.enable_memory agent); [|done].
    unfold delete_session_memories at 1. cbn.
    by rewrite filter_filter_absorb.
Qed.

End Sessions.

Section Injection.
Import MemoryStorage.

Variable format_2f : Q -> string.



End Injection.

Section Reachability.
Import MemoryStorage.

Variable format_2f : Q -> string.







End Reachability.

Section InjectionExamples.
Import MemoryStorage.




End InjectionExamples.
